(** * RFMPD: a shallow embedding of the protocol engine

    The daemon (package [rfmpd]) is a Python program.  Its byte strings are
    modelled as [list byte], its text strings as the list of their UTF-8 code
    units (so ['|'.join], [split] and [encode('utf-8')] act on bytes), its
    integers as [Z], its dictionaries and SQLite tables keyed by a primary key
    as [gmap], and raised exceptions as the [Raise] branch of [result]. *)

From Stdlib Require Import ZArith Lia List Strings.Byte Strings.String.
From stdpp Require Import base option list gmap.
Import ListNotations.
Open Scope Z_scope.

#[global] Set Warnings "-clear-no-such-hyp".

(** ** Python values shared by all modules *)

Inductive exn :=
| ValueError
| KeyError
| IndexError
| ZeroDivisionError
| UnicodeDecodeError
| OverflowError.

Inductive result (A : Type) :=
| Ok (a : A)
| Raise (e : exn).
Arguments Ok {A} a.
Arguments Raise {A} e.

Definition bind {A B} (r : result A) (k : A -> result B) : result B :=
  match r with
  | Ok a => k a
  | Raise e => Raise e
  end.

Notation "x <-! r ; k" := (bind r (fun x => k))
  (at level 100, r at next level, right associativity).

(** [try: ... except Exception: return None] *)
Definition catch_none {A} (r : result (option A)) : option A :=
  match r with
  | Ok o => o
  | Raise _ => None
  end.

#[global] Instance byte_eq_dec : EqDecision byte := Byte.byte_eq_dec.
#[global] Instance byte_countable : Countable byte :=
  inj_countable Byte.to_N Byte.of_N Byte.of_to_N.
#[global] Instance exn_eq_dec : EqDecision exn.
Proof. solve_decision. Defined.

(** [b[i]] read as an integer, and [bytes([z])], which raises [ValueError]
    outside [range(256)]. *)
Definition ord (b : byte) : Z := Z.of_N (Byte.to_N b).

Definition byte_of_int (z : Z) : result byte :=
  if 0 <=? z then
    match Byte.of_N (Z.to_N z) with
    | Some b => Ok b
    | None => Raise ValueError
    end
  else Raise ValueError.

(** A text literal, as its UTF-8 bytes. *)
Abbreviation str := (list byte).
Definition u (s : string) : str := list_byte_of_string s.

(** [b.find(x)] and [b.find(x, start)]; [None] is Python's [-1]. *)
Fixpoint find_byte (x : byte) (l : list byte) : option nat :=
  match l with
  | [] => None
  | y :: l' => if decide (y = x) then Some 0%nat else S <$> find_byte x l'
  end.

Definition find_byte_from (x : byte) (l : list byte) (start : nat) : option nat :=
  (fun i => (start + i)%nat) <$> find_byte x (drop start l).

(** [l[lo:hi]] for [0 <= lo] *)
Definition slice {A} (l : list A) (lo hi : nat) : list A :=
  take (hi - lo) (drop lo l).

(** ** KISS framing ([network/kiss.py]) *)

Module KISS.

Inductive KISSCommand :=
| DATA_FRAME | TX_DELAY | PERSISTENCE | SLOT_TIME
| TX_TAIL | FULL_DUPLEX | SET_HARDWARE | RETURN.

#[global] Instance KISSCommand_eq_dec : EqDecision KISSCommand.
Proof. solve_decision. Defined.

Definition KISSCommand_value (c : KISSCommand) : Z :=
  match c with
  | DATA_FRAME => 0 | TX_DELAY => 1 | PERSISTENCE => 2 | SLOT_TIME => 3
  | TX_TAIL => 4 | FULL_DUPLEX => 5 | SET_HARDWARE => 6 | RETURN => 15
  end.

(** [KISSCommand(v)]: the [IntEnum] lookup raises [ValueError] on a value
    that is not a member (7 to 14). *)
Definition KISSCommand_of_value (v : Z) : result KISSCommand :=
  match v with
  | 0 => Ok DATA_FRAME | 1 => Ok TX_DELAY | 2 => Ok PERSISTENCE
  | 3 => Ok SLOT_TIME | 4 => Ok TX_TAIL | 5 => Ok FULL_DUPLEX
  | 6 => Ok SET_HARDWARE | 15 => Ok RETURN
  | _ => Raise ValueError
  end.

Definition FEND : byte := Byte.xc0.
Definition FESC : byte := Byte.xdb.
Definition TFEND : byte := Byte.xdc.
Definition TFESC : byte := Byte.xdd.

Record KISSFrame := mkKISSFrame {
  port : Z;
  command : KISSCommand;
  data : list byte
}.

(** The escaping loop of [KISSFrame.encode]. *)
Fixpoint escape (content : list byte) : list byte :=
  match content with
  | [] => []
  | b :: rest =>
      if decide (b = FEND) then FESC :: TFEND :: escape rest
      else if decide (b = FESC) then FESC :: TFESC :: escape rest
      else b :: escape rest
  end.

Definition encode (f : KISSFrame) : result (list byte) :=
  let cmd_byte := Z.lor (Z.shiftl (port f) 4) (KISSCommand_value (command f)) in
  c <-! byte_of_int cmd_byte;
  let content := c :: data f in
  Ok ([FEND] ++ escape content ++ [FEND]).

(** The unescaping loop of [KISSFrame.decode]; [None] is its early
    [return None]. *)
Fixpoint unescape (data : list byte) : option (list byte) :=
  match data with
  | [] => Some []
  | b :: rest =>
      if decide (b = FESC) then
        match rest with
        | [] => None
        | c :: rest' =>
            if decide (c = TFEND) then (FEND ::.) <$> unescape rest'
            else if decide (c = TFESC) then (FESC ::.) <$> unescape rest'
            else None
        end
      else (b ::.) <$> unescape rest
  end.

Definition decode (data : list byte) : result (option KISSFrame) :=
  match data with
  | [] => Ok None
  | d0 :: tl =>
      let data1 := if decide (d0 = FEND) then tl else data in
      let data2 :=
        match last data1 with
        | Some e => if decide (e = FEND) then removelast data1 else data1
        | None => data1
        end in
      match data2 with
      | [] => Ok None
      | _ =>
          match unescape data2 with
          | None => Ok None
          | Some [] => Ok None
          | Some (cmd_byte :: frame_data) =>
              let port := Z.land (Z.shiftr (ord cmd_byte) 4) 15 in
              command <-! KISSCommand_of_value (Z.land (ord cmd_byte) 15);
              Ok (Some (mkKISSFrame port command frame_data))
          end
      end
  end.

Record KISSProtocol := mkKISSProtocol {
  kp_port : Z;
  buffer : list byte
}.

Definition new (port : Z) : KISSProtocol := mkKISSProtocol port [].

Definition encode_data (self : KISSProtocol) (data : list byte) : result (list byte) :=
  encode (mkKISSFrame (kp_port self) DATA_FRAME data).

(** The [while FEND in self.buffer] loop.  Every iteration that continues
    removes at least two bytes from the buffer, so the length of the buffer
    is enough fuel; [None] stands for running out of it.  The buffer is
    returned next to the outcome because [self.buffer] is already advanced
    when [KISSFrame.decode] raises. *)
Fixpoint decode_loop (fuel : nat) (buf : list byte) (frames : list KISSFrame)
  : option (list byte * result (list KISSFrame)) :=
  match find_byte FEND buf with
  | None => Some (buf, Ok frames)
  | Some start_idx =>
      match find_byte_from FEND buf (start_idx + 1) with
      | None => Some (buf, Ok frames)
      | Some end_idx =>
          match fuel with
          | O => None
          | S fuel' =>
              let frame_data := slice buf start_idx (end_idx + 1) in
              let buf' := drop (end_idx + 1) buf in
              match decode frame_data with
              | Raise e => Some (buf', Raise e)
              | Ok frame =>
                  let frames' :=
                    match frame with
                    | Some f =>
                        if decide (command f = DATA_FRAME) then frames ++ [f]
                        else frames
                    | None => frames
                    end in
                  decode_loop fuel' buf' frames'
              end
          end
      end
  end.

Definition decode_frames (self : KISSProtocol) (data : list byte)
  : option (KISSProtocol * result (list KISSFrame)) :=
  let buf := buffer self ++ data in
  match decode_loop (length buf) buf [] with
  | Some (buf', r) => Some (mkKISSProtocol (kp_port self) buf', r)
  | None => None
  end.

(** [set_tx_delay] and [set_slot_time]: the value in units of 10 ms, at
    most 255; [bytes([units])] raises [ValueError] below 0. *)
Definition set_tx_delay (self : KISSProtocol) (delay_ms : Z) : result (list byte) :=
  let delay_units := Z.min 255 (delay_ms / 10) in
  d <-! byte_of_int delay_units;
  encode (mkKISSFrame (kp_port self) TX_DELAY [d]).

Definition set_slot_time (self : KISSProtocol) (slot_ms : Z) : result (list byte) :=
  let slot_units := Z.min 255 (slot_ms / 10) in
  d <-! byte_of_int slot_units;
  encode (mkKISSFrame (kp_port self) SLOT_TIME [d]).

(** The frames [pre] found before, put in front of an outcome of the loop. *)
Definition shift_frames (pre : list KISSFrame)
    (r : list byte * result (list KISSFrame)) : list byte * result (list KISSFrame) :=
  (r.1, match r.2 with Ok fs => Ok (pre ++ fs) | Raise e => Raise e end).

End KISS.

(** ** Text ([str]) operations

    A Python [str] is represented by its UTF-8 encoding, so
    [s.encode('utf-8')] is the identity and [b.decode('utf-8')] succeeds
    exactly on well-formed UTF-8.  A character below U+0080 is one byte and
    never occurs inside the encoding of another character, which makes
    [split], [join], [in] and [find] on the separators used by the protocol
    the same on bytes as on characters. *)

Module Text.

Definition in_range (lo hi : Z) (b : byte) : bool :=
  (lo <=? ord b) && (ord b <=? hi).

Definition is_cont (b : byte) : bool := in_range 128 191 b.

(** [bytes.decode('utf-8')] in strict mode accepts the well-formed byte
    sequences of the Unicode standard (no overlong forms, no surrogates,
    nothing above U+10FFFF) and raises [UnicodeDecodeError] otherwise. *)
Fixpoint utf8_valid (s : list byte) : bool :=
  match s with
  | [] => true
  | b0 :: r0 =>
      if ord b0 <? 128 then utf8_valid r0 else
      match r0 with
      | [] => false
      | b1 :: r1 =>
          if in_range 194 223 b0 then is_cont b1 && utf8_valid r1 else
          match r1 with
          | [] => false
          | b2 :: r2 =>
              if in_range 224 239 b0 then
                (if ord b0 =? 224 then in_range 160 191 b1
                 else if ord b0 =? 237 then in_range 128 159 b1
                 else is_cont b1)
                && is_cont b2 && utf8_valid r2
              else
              match r2 with
              | [] => false
              | b3 :: r3 =>
                  if in_range 240 244 b0 then
                    (if ord b0 =? 240 then in_range 144 191 b1
                     else if ord b0 =? 244 then in_range 128 143 b1
                     else is_cont b1)
                    && is_cont b2 && is_cont b3 && utf8_valid r3
                  else false
              end
          end
      end
  end.

Definition decode_utf8 (data : list byte) : result str :=
  if utf8_valid data then Ok data else Raise UnicodeDecodeError.

(** [len(s)]: the number of characters, i.e. of bytes that are not
    continuation bytes. *)
Definition len (s : str) : Z :=
  Z.of_nat (length (filter (fun b => is_cont b = false) s)).

Definition isascii (s : str) : bool := forallb (fun b => ord b <? 128) s.

Definition is_upper_byte (b : byte) : bool := in_range 65 90 b.
Definition is_lower_byte (b : byte) : bool := in_range 97 122 b.

(** [s.islower()] on an ASCII string: some cased character, and no
    uppercase one.  The source only uses it in conjunction with
    [s.isascii()]. *)
Definition islower (s : str) : bool :=
  existsb is_lower_byte s && negb (existsb is_upper_byte s).

(** [sep.join(parts)] *)
Fixpoint join (sep : str) (parts : list str) : str :=
  match parts with
  | [] => []
  | [p] => p
  | p :: rest => p ++ sep ++ join sep rest
  end.

(** [s.split(c)] for a one-character ASCII separator: never empty. *)
Fixpoint split (c : byte) (s : str) : list str :=
  match s with
  | [] => [[]]
  | b :: r =>
      if decide (b = c) then [] :: split c r
      else
        match split c r with
        | p :: ps => (b :: p) :: ps
        | [] => [[b]]
        end
  end.

(** [c in s], and [s.split(c, 1)] when [c in s]. *)
Definition contains (c : byte) (s : str) : bool := bool_decide (c ∈ s).

Fixpoint split1 (c : byte) (s : str) : str * str :=
  match s with
  | [] => ([], [])
  | b :: r =>
      if decide (b = c) then ([], r)
      else let '(k, v) := split1 c r in (b :: k, v)
  end.

(** *** [str(n)] and [int(s)] *)

Definition digit_char (d : Z) : byte :=
  match d with
  | 0 => "0" | 1 => "1" | 2 => "2" | 3 => "3" | 4 => "4"
  | 5 => "5" | 6 => "6" | 7 => "7" | 8 => "8" | _ => "9"
  end%byte.

Definition digit_val (b : byte) : option Z :=
  if in_range 48 57 b then Some (ord b - 48) else None.

(** Decimal digits of a non-negative integer, most significant first. *)
Fixpoint digits (fuel : nat) (n : Z) : list Z :=
  match fuel with
  | O => []
  | S fuel' => if n <? 10 then [n] else digits fuel' (n / 10) ++ [n mod 10]
  end.

(** The decimal numeral of [n], with a minus sign when [n] is negative.
    A number below [2^k] has at most [k] digits. *)
Definition digits_fuel (n : Z) : nat := S (Z.to_nat (Z.log2 n)).

Definition decimal (n : Z) : str :=
  if n <? 0 then "-"%byte :: map digit_char (digits (digits_fuel (- n)) (- n))
  else map digit_char (digits (digits_fuel n) n).

(** CPython bounds the conversions between [int] and [str] in base 10:
    more than [sys.get_int_max_str_digits()] digits, 4300 unless it is
    changed (nothing in the daemon changes it), raise [ValueError].  The
    sign, white space and underscores do not count. *)
Definition MAX_STR_DIGITS : Z := 4300.

Definition count_digits (s : str) : Z :=
  Z.of_nat (length (filter (fun b => in_range 48 57 b = true) s)).

(** [str(n)], which is also how an f-string formats [n]. *)
Definition str_of_int (n : Z) : result str :=
  let s := decimal n in
  if MAX_STR_DIGITS <? count_digits s then Raise ValueError else Ok s.

(** The white space of [PyLong_FromString] ([Py_ISSPACE]). *)
Definition is_space (b : byte) : bool := in_range 9 13 b || (ord b =? 32).

Fixpoint lstrip (s : str) : str :=
  match s with
  | b :: r => if is_space b then lstrip r else s
  | [] => []
  end.

Definition strip (s : str) : str := reverse (lstrip (reverse (lstrip s))).

(** Digits with single underscores between them, folded left to right.
    [prev_digit] tells whether the previous character was a digit. *)
Fixpoint parse_digits (s : str) (acc : Z) (prev_digit : bool) : option Z :=
  match s with
  | [] => if prev_digit then Some acc else None
  | b :: r =>
      match digit_val b with
      | Some d => parse_digits r (acc * 10 + d) true
      | None =>
          if decide (b = "_"%byte) then
            if prev_digit then parse_digits r acc false else None
          else None
      end
  end.

(** [PyLong_FromString] in base 10, on ASCII text: surrounding white
    space, an optional sign, digits with optional single underscores, at
    most 4300 digits. *)
Definition int_of_ascii (s : str) : result Z :=
  let body := strip s in
  let '(neg, ds) :=
    match body with
    | b :: r =>
        if decide (b = "-"%byte) then (true, r)
        else if decide (b = "+"%byte) then (false, r)
        else (false, body)
    | [] => (false, [])
    end in
  match parse_digits ds 0 false with
  | Some n =>
      if MAX_STR_DIGITS <? count_digits ds then Raise ValueError
      else Ok (if neg then - n else n)
  | None => Raise ValueError
  end.

(** What [int(s)] takes from the interpreter's Unicode database, for the
    code points from U+007F on: the value of a decimal digit (category Nd,
    [Py_UNICODE_TODECIMAL]) and whether a character is white space
    ([Py_UNICODE_ISSPACE]).  The tables grow with the version of Unicode
    that the interpreter ships; they are a parameter of the model. *)
Class UnicodeData := mkUnicodeData {
  todecimal : Z -> option Z;
  isspace : Z -> bool
}.

(** An excerpt of the database: the Arabic-Indic, extended Arabic-Indic,
    Devanagari and fullwidth digits, and the white space outside ASCII. *)
Definition excerpt_todecimal (cp : Z) : option Z :=
  if (1632 <=? cp) && (cp <=? 1641) then Some (cp - 1632)
  else if (1776 <=? cp) && (cp <=? 1785) then Some (cp - 1776)
  else if (2406 <=? cp) && (cp <=? 2415) then Some (cp - 2406)
  else if (65296 <=? cp) && (cp <=? 65305) then Some (cp - 65296)
  else None.

Definition excerpt_isspace (cp : Z) : bool :=
  bool_decide (cp ∈ [133; 160; 5760; 8232; 8233; 8239; 8287; 12288])
  || ((8192 <=? cp) && (cp <=? 8202)).

Definition unicode_excerpt : UnicodeData :=
  mkUnicodeData excerpt_todecimal excerpt_isspace.

Section Unicode.

Context {ucd : UnicodeData}.

(** One character of [_PyUnicode_TransformDecimalAndSpaceToASCII]: a space
    for white space, the ASCII digit for a decimal digit, and otherwise a
    question mark, at which the output ends. *)
Definition transform_char (cp : Z) (rest : str) : str :=
  if isspace cp then " "%byte :: rest
  else
    match todecimal cp with
    | Some d => digit_char d :: rest
    | None => ["?"%byte]
    end.

(** [_PyUnicode_TransformDecimalAndSpaceToASCII] on text that is not all
    ASCII, character by character of well-formed UTF-8: a character below
    U+007F stays. *)
Fixpoint to_ascii (s : str) : str :=
  match s with
  | [] => []
  | b0 :: r0 =>
      if ord b0 <? 127 then b0 :: to_ascii r0
      else if ord b0 <? 128 then transform_char (ord b0) (to_ascii r0)
      else
      match r0 with
      | [] => ["?"%byte]
      | b1 :: r1 =>
          if ord b0 <? 224 then
            transform_char ((ord b0 - 192) * 64 + (ord b1 - 128)) (to_ascii r1)
          else
          match r1 with
          | [] => ["?"%byte]
          | b2 :: r2 =>
              if ord b0 <? 240 then
                transform_char ((ord b0 - 224) * 4096 + (ord b1 - 128) * 64
                                + (ord b2 - 128)) (to_ascii r2)
              else
              match r2 with
              | [] => ["?"%byte]
              | b3 :: r3 =>
                  transform_char ((ord b0 - 240) * 262144 + (ord b1 - 128) * 4096
                                  + (ord b2 - 128) * 64 + (ord b3 - 128))
                                 (to_ascii r3)
              end
          end
      end
  end.

(** [int(s)] on a [str]: text that is all ASCII is parsed as it is, other
    text after the transformation above. *)
Definition int_of_str (s : str) : result Z :=
  int_of_ascii (if isascii s then s else to_ascii s).

End Unicode.

(** The characters of a string, each by its first byte; a character of
    ASCII is that byte. *)
Definition leading_bytes (s : str) : list byte :=
  filter (fun b => is_cont b = false) s.

(** [s.ljust(width, fill)] *)
Definition ljust (width : Z) (fill : byte) (s : str) : str :=
  s ++ replicate (Z.to_nat (width - len s)) fill.

End Text.

(** ** Base64 ([base64.b64encode], [base64.b64decode])

    The standard alphabet with padding, as produced by
    [binascii.b2a_base64], and the default, non-validating decoder of
    [binascii.a2b_base64]: characters outside the alphabet are skipped, a
    complete pad sequence ends the input, anything left over is an error
    ([binascii.Error], a [ValueError]). *)

Module Base64.

Definition alphabet : list byte :=
  u "ABCDEFGHIJKLMNOPQRSTUVWXYZabcdefghijklmnopqrstuvwxyz0123456789+/".

Definition PAD : byte := "="%byte.

Definition b2a (i : Z) : byte := nth (Z.to_nat i) alphabet PAD.

Fixpoint index_of (c : byte) (l : list byte) : option Z :=
  match l with
  | [] => None
  | x :: l' => if decide (x = c) then Some 0 else Z.succ <$> index_of c l'
  end.

Definition a2b (c : byte) : option Z := index_of c alphabet.

(** An [unsigned char] store. *)
Definition to_byte (z : Z) : byte :=
  default Byte.x00 (Byte.of_N (Z.to_N (z mod 256))).

Fixpoint b64encode (data : list byte) : str :=
  match data with
  | [] => []
  | [a] =>
      [b2a (Z.shiftr (ord a) 2); b2a (Z.shiftl (Z.land (ord a) 3) 4); PAD; PAD]
  | [a; b] =>
      [b2a (Z.shiftr (ord a) 2);
       b2a (Z.lor (Z.shiftl (Z.land (ord a) 3) 4) (Z.shiftr (ord b) 4));
       b2a (Z.shiftl (Z.land (ord b) 15) 2); PAD]
  | a :: b :: c :: rest =>
      [b2a (Z.shiftr (ord a) 2);
       b2a (Z.lor (Z.shiftl (Z.land (ord a) 3) 4) (Z.shiftr (ord b) 4));
       b2a (Z.lor (Z.shiftl (Z.land (ord b) 15) 2) (Z.shiftr (ord c) 6));
       b2a (Z.land (ord c) 63)] ++ b64encode rest
  end.

(** The decoding loop, with its state [quad_pos], [leftchar], [pads]. *)
Fixpoint a2b_loop (s : list byte) (quad_pos leftchar pads : Z)
  : result (list byte) :=
  match s with
  | [] => if quad_pos =? 0 then Ok [] else Raise ValueError
  | this_ch :: rest =>
      if decide (this_ch = PAD) then
        if 2 <=? quad_pos then
          if 4 <=? quad_pos + (pads + 1) then Ok []
          else a2b_loop rest quad_pos leftchar (pads + 1)
        else a2b_loop rest quad_pos leftchar pads
      else
        match a2b this_ch with
        | None => a2b_loop rest quad_pos leftchar pads
        | Some v =>
            if quad_pos =? 0 then a2b_loop rest 1 v 0
            else if quad_pos =? 1 then
              out <-! a2b_loop rest 2 (Z.land v 15) 0;
              Ok (to_byte (Z.lor (Z.shiftl leftchar 2) (Z.shiftr v 4)) :: out)
            else if quad_pos =? 2 then
              out <-! a2b_loop rest 3 (Z.land v 3) 0;
              Ok (to_byte (Z.lor (Z.shiftl leftchar 4) (Z.shiftr v 2)) :: out)
            else
              out <-! a2b_loop rest 0 0 0;
              Ok (to_byte (Z.lor (Z.shiftl leftchar 6) v) :: out)
        end
  end.

(** [base64.b64decode(s)] for a [str] argument: it must be ASCII. *)
Definition b64decode (s : str) : result (list byte) :=
  if Text.isascii s then a2b_loop s 0 0 0 else Raise ValueError.

End Base64.

(** ** RFMP frames ([protocol/frames.py]) *)

Module Frames.
Import Text.

Inductive FrameType := T_MSG | T_FRAG | T_SYNC | T_REQ.

Definition FrameType_value (t : FrameType) : str :=
  match t with
  | T_MSG => u "MSG" | T_FRAG => u "FRAG" | T_SYNC => u "SYNC" | T_REQ => u "REQ"
  end.

(** [FrameType(s)]: [None] is the [ValueError] the parser catches. *)
Definition FrameType_of_value (s : str) : option FrameType :=
  if decide (s = u "MSG") then Some T_MSG
  else if decide (s = u "FRAG") then Some T_FRAG
  else if decide (s = u "SYNC") then Some T_SYNC
  else if decide (s = u "REQ") then Some T_REQ
  else None.

(** [to_dict] builds a dictionary whose insertion order is the order of
    the fields on the wire; [from_dict] only looks keys up. *)
Definition getitem (d : gmap str str) (k : str) : result str :=
  match d !! k with
  | Some v => Ok v
  | None => Raise KeyError
  end.

Record MSG := mkMSG {
  id : str;
  from_node : str;
  timestamp : str;
  channel : str;
  priority : Z;
  reply_to : option str;
  body : str
}.

(** The dataclass constructor followed by [__post_init__]. *)
Definition MSG_new (id from_node timestamp channel : str) (priority : Z)
    (reply_to : option str) (body : str) : result MSG :=
  if negb ((8 <=? len id) && (len id <=? 12)) then Raise ValueError
  else if negb ((0 <=? priority) && (priority <=? 3)) then Raise ValueError
  else if negb (islower channel) || negb (isascii channel) then Raise ValueError
  else Ok (mkMSG id from_node timestamp channel priority reply_to body).

Definition MSG_to_dict (m : MSG) : result (list (str * str)) :=
  prio <-! str_of_int (priority m);
  Ok [ (u "id", id m);
       (u "from", from_node m);
       (u "time", timestamp m);
       (u "chan", channel m);
       (u "prio", prio);
       (u "reply", match reply_to m with
                   | Some r => if decide (r = []) then u "-" else r
                   | None => u "-"
                   end);
       (u "body", body m) ].

Definition MSG_from_dict {ucd : UnicodeData} (data : gmap str str) : result MSG :=
  id <-! getitem data (u "id");
  from_node <-! getitem data (u "from");
  timestamp <-! getitem data (u "time");
  channel <-! getitem data (u "chan");
  prio <-! getitem data (u "prio");
  priority <-! int_of_str prio;
  reply <-! getitem data (u "reply");
  body <-! getitem data (u "body");
  MSG_new id from_node timestamp channel priority
    (if decide (reply = u "-") then None else Some reply) body.

Record FRAG := mkFRAG {
  message_id : str;
  idx : Z;
  total : Z;
  data : list byte
}.

Definition FRAG_new (message_id : str) (idx total : Z) (data : list byte)
  : result FRAG :=
  if (idx <? 0) || (total <=? idx) then Raise ValueError
  else Ok (mkFRAG message_id idx total data).

Definition FRAG_to_dict (f : FRAG) : result (list (str * str)) :=
  idx_s <-! str_of_int (idx f);
  total_s <-! str_of_int (total f);
  Ok [ (u "msgid", message_id f);
       (u "idx", idx_s);
       (u "total", total_s);
       (u "data", Base64.b64encode (data f)) ].

Definition FRAG_from_dict {ucd : UnicodeData} (d : gmap str str) : result FRAG :=
  message_id <-! getitem d (u "msgid");
  idx_s <-! getitem d (u "idx");
  idx <-! int_of_str idx_s;
  total_s <-! getitem d (u "total");
  total <-! int_of_str total_s;
  data_s <-! getitem d (u "data");
  data <-! Base64.b64decode data_s;
  FRAG_new message_id idx total data.

Record SYNC := mkSYNC {
  sync_from_node : str;
  bloom_filters : list (list byte);
  window_index : Z
}.

Definition SYNC_new (from_node : str) (bloom_filters : list (list byte))
    (window_index : Z) : result SYNC :=
  if negb (length bloom_filters =? 3)%nat then Raise ValueError
  else if negb ((0 <=? window_index) && (window_index <=? 2)) then Raise ValueError
  else Ok (mkSYNC from_node bloom_filters window_index).

Definition list_getitem {A} (l : list A) (i : nat) : result A :=
  match l !! i with
  | Some x => Ok x
  | None => Raise IndexError
  end.

Definition SYNC_to_dict (s : SYNC) : result (list (str * str)) :=
  bf0 <-! list_getitem (bloom_filters s) 0;
  bf1 <-! list_getitem (bloom_filters s) 1;
  bf2 <-! list_getitem (bloom_filters s) 2;
  win <-! str_of_int (window_index s);
  Ok [ (u "from", sync_from_node s);
       (u "bf0", Base64.b64encode bf0);
       (u "bf1", Base64.b64encode bf1);
       (u "bf2", Base64.b64encode bf2);
       (u "win", win) ].

Definition SYNC_from_dict {ucd : UnicodeData} (d : gmap str str) : result SYNC :=
  from_node <-! getitem d (u "from");
  s0 <-! getitem d (u "bf0");
  bf0 <-! Base64.b64decode s0;
  s1 <-! getitem d (u "bf1");
  bf1 <-! Base64.b64decode s1;
  s2 <-! getitem d (u "bf2");
  bf2 <-! Base64.b64decode s2;
  win <-! getitem d (u "win");
  window_index <-! int_of_str win;
  SYNC_new from_node [bf0; bf1; bf2] window_index.

Record REQ := mkREQ {
  req_from_node : str;
  req_message_id : str;
  missing_fragments : option (list Z)
}.

Fixpoint strs_of_ints (l : list Z) : result (list str) :=
  match l with
  | [] => Ok []
  | i :: l' => s <-! str_of_int i; r <-! strs_of_ints l'; Ok (s :: r)
  end.

Definition REQ_to_dict (r : REQ) : result (list (str * str)) :=
  missing <-! match missing_fragments r with
              | Some (i :: l) =>
                  strs <-! strs_of_ints (i :: l);
                  Ok [ (u "missing", join (u ",") strs) ]
              | _ => Ok []
              end;
  Ok ([ (u "from", req_from_node r); (u "msgid", req_message_id r) ] ++ missing).

Fixpoint ints_of_strs {ucd : UnicodeData} (l : list str) : result (list Z) :=
  match l with
  | [] => Ok []
  | s :: l' => i <-! int_of_str s; r <-! ints_of_strs l'; Ok (i :: r)
  end.

Definition REQ_from_dict {ucd : UnicodeData} (d : gmap str str) : result REQ :=
  missing <-! match d !! u "missing" with
              | Some s => l <-! ints_of_strs (split ","%byte s); Ok (Some l)
              | None => Ok None
              end;
  from_node <-! getitem d (u "from");
  message_id <-! getitem d (u "msgid");
  Ok (mkREQ from_node message_id missing).

Inductive Frame :=
| FrameMSG (m : MSG)
| FrameFRAG (f : FRAG)
| FrameSYNC (s : SYNC)
| FrameREQ (r : REQ).

Definition frame_type (f : Frame) : FrameType :=
  match f with
  | FrameMSG _ => T_MSG | FrameFRAG _ => T_FRAG
  | FrameSYNC _ => T_SYNC | FrameREQ _ => T_REQ
  end.

Definition to_dict (f : Frame) : result (list (str * str)) :=
  match f with
  | FrameMSG m => MSG_to_dict m
  | FrameFRAG f => FRAG_to_dict f
  | FrameSYNC s => SYNC_to_dict s
  | FrameREQ r => REQ_to_dict r
  end.

End Frames.

(** ** The wire codec ([protocol/parser.py]) *)

Module FrameParser.
Import Text Frames.

Definition PIPE : byte := "|"%byte.
Definition EQUALS : byte := "="%byte.

(** [f"{key}={value}"] *)
Definition field_str (kv : str * str) : str := kv.1 ++ [EQUALS] ++ kv.2.

(** [TYPE|key=value|...] from the type and the ordered fields. *)
Definition encode_fields (t : FrameType) (fields : list (str * str)) : list byte :=
  join [PIPE] (FrameType_value t :: map field_str fields).

Definition encode (frame : Frame) : result (list byte) :=
  fields <-! to_dict frame;
  Ok (encode_fields (frame_type frame) fields).

(** The loop over [parts[1:]] that fills [fields]. *)
Definition parse_fields (parts : list str) : gmap str str :=
  fold_left
    (fun fields part =>
       if contains EQUALS part
       then let '(key, value) := split1 EQUALS part in <[key := value]> fields
       else fields)
    parts ∅.

Definition decode {ucd : UnicodeData} (data : list byte) : option Frame :=
  catch_none (
    text <-! decode_utf8 data;
    match split PIPE text with
    | frame_type_str :: ((_ :: _) as rest) =>
        match FrameType_of_value frame_type_str with
        | None => Ok None
        | Some t =>
            let fields := parse_fields rest in
            match t with
            | T_MSG => m <-! MSG_from_dict fields; Ok (Some (FrameMSG m))
            | T_FRAG => f <-! FRAG_from_dict fields; Ok (Some (FrameFRAG f))
            | T_SYNC => s <-! SYNC_from_dict fields; Ok (Some (FrameSYNC s))
            | T_REQ => r <-! REQ_from_dict fields; Ok (Some (FrameREQ r))
            end
        end
    | _ => Ok None
    end).

(** [validate_frame]; its [try/except] has nothing to catch on records of
    these types. *)
Definition validate_frame (frame : Frame) : bool :=
  match frame with
  | FrameMSG frame =>
      if negb ((8 <=? len (id frame)) && (len (id frame) <=? 12)) then false
      else if negb ((0 <=? priority frame) && (priority frame <=? 3)) then false
      else if negb (islower (channel frame)) || negb (isascii (channel frame)) then false
      else if negb (len (timestamp frame) =? 16)
              || negb (bool_decide (leading_bytes (timestamp frame) !! 8%nat
                                    = Some "T"%byte))
              || negb (bool_decide (last (leading_bytes (timestamp frame))
                                    = Some "Z"%byte))
           then false
      else true
  | FrameFRAG frame =>
      if (idx frame <? 0) || (total frame <=? idx frame) then false
      else if total frame <=? 0 then false
      else true
  | FrameSYNC frame =>
      if negb (length (bloom_filters frame) =? 3)%nat then false
      else if negb ((0 <=? window_index frame) && (window_index frame <=? 2)) then false
      else forallb (fun bf => (length bf =? 32)%nat) (bloom_filters frame)
  | FrameREQ frame =>
      match req_message_id frame with
      | [] => false
      | _ :: _ => true
      end
  end.

(** The checks of [validate_frame] that the constructors do not make. *)
Definition validate_beyond_constructor (frame : Frame) : bool :=
  match frame with
  | FrameMSG frame =>
      (len (timestamp frame) =? 16)
      && bool_decide (leading_bytes (timestamp frame) !! 8%nat = Some "T"%byte)
      && bool_decide (last (leading_bytes (timestamp frame)) = Some "Z"%byte)
  | FrameFRAG _ => true
  | FrameSYNC frame => forallb (fun bf => (length bf =? 32)%nat) (bloom_filters frame)
  | FrameREQ frame =>
      match req_message_id frame with
      | [] => false
      | _ :: _ => true
      end
  end.

End FrameParser.

(** ** What the codec round trip is stated with *)

Module Codec.
Import Text Frames FrameParser.

(** A record is valid when its constructor accepts it. *)
Definition MSG_valid (m : MSG) : Prop :=
  MSG_new (id m) (from_node m) (timestamp m) (channel m) (priority m)
    (reply_to m) (body m) = Ok m.

Definition FRAG_valid (f : FRAG) : Prop :=
  FRAG_new (message_id f) (idx f) (total f) (data f) = Ok f.

Definition SYNC_valid (s : SYNC) : Prop :=
  SYNC_new (sync_from_node s) (bloom_filters s) (window_index s) = Ok s.

Definition Frame_valid (f : Frame) : Prop :=
  match f with
  | FrameMSG m => MSG_valid m
  | FrameFRAG f => FRAG_valid f
  | FrameSYNC s => SYNC_valid s
  | FrameREQ _ => True
  end.

(** The text fields of a record, which go on the wire as they are. *)
Definition text_fields (f : Frame) : list str :=
  match f with
  | FrameMSG m =>
      [id m; from_node m; timestamp m; channel m; body m] ++
      match reply_to m with Some r => [r] | None => [] end
  | FrameFRAG f => [message_id f]
  | FrameSYNC s => [sync_from_node s]
  | FrameREQ r => [req_from_node r; req_message_id r]
  end.

(** The integers of a record, which are written in decimal, and what
    [str] asks of one: at most 4300 digits. *)
Definition int_fields (f : Frame) : list Z :=
  match f with
  | FrameMSG m => [priority m]
  | FrameFRAG f => [idx f; total f]
  | FrameSYNC s => [window_index s]
  | FrameREQ r => default [] (missing_fragments r)
  end.

Definition int_ok (n : Z) : Prop := Z.abs n < 10 ^ MAX_STR_DIGITS.

(** The normal form a record takes on the wire: no reply is written [-],
    and so are an empty reply and the reply [-] itself; an empty list of
    missing fragments is not written at all. *)
Definition normalize_reply (r : option str) : option str :=
  match r with
  | Some s => if decide (s = [] \/ s = u "-") then None else Some s
  | None => None
  end.

Definition normalize (f : Frame) : Frame :=
  match f with
  | FrameMSG m =>
      FrameMSG (mkMSG (id m) (from_node m) (timestamp m) (channel m)
                  (priority m) (normalize_reply (reply_to m)) (body m))
  | FrameREQ r =>
      FrameREQ (mkREQ (req_from_node r) (req_message_id r)
                  (match missing_fragments r with
                   | Some [] => None
                   | other => other
                   end))
  | other => other
  end.

(** The dictionary that [parse_fields] rebuilds from ordered fields. *)
Definition dict_of (fields : list (str * str)) : gmap str str :=
  fold_left (fun d kv => <[kv.1 := kv.2]> d) fields ∅.

(** Text that can sit in a field: well-formed UTF-8 without the field
    separator. *)
Definition wire_ok (s : str) : Prop := utf8_valid s = true /\ PIPE ∉ s.

(** A key and a value that survive [key=value] framing. *)
Definition field_ok (kv : str * str) : Prop :=
  wire_ok (kv.1) /\ (EQUALS ∉ kv.1) /\ wire_ok (kv.2).

(** The dispatch on the frame type at the end of [FrameParser.decode]. *)
Definition dispatch {ucd : UnicodeData} (t : FrameType) (fields : gmap str str)
  : result (option Frame) :=
  match t with
  | T_MSG => m <-! MSG_from_dict fields; Ok (Some (FrameMSG m))
  | T_FRAG => f <-! FRAG_from_dict fields; Ok (Some (FrameFRAG f))
  | T_SYNC => s <-! SYNC_from_dict fields; Ok (Some (FrameSYNC s))
  | T_REQ => r <-! REQ_from_dict fields; Ok (Some (FrameREQ r))
  end.

(** Two sample messages. *)
Definition msg_hello : MSG :=
  mkMSG (u "deadbeef0123") (u "N0CALL-1") (u "20240101T000000Z") (u "general") 1
    (Some (u "-")) (u "héllo=wörld").

Definition msg_pipe : MSG :=
  mkMSG (u "deadbeef0123") (u "N0CALL-1") (u "20240101T000000Z") (u "general") 1
    None (u "a|b").

(** A message long enough to be fragmented at the default threshold, and
    the same with a field separator in its body. *)
Definition long_text : str := mjoin (replicate 20 (u "lorem ipsum "))%nat.

Definition msg_long : MSG :=
  mkMSG (u "deadbeef0123") (u "N0CALL-1") (u "20240101T000000Z") (u "general") 1
    None long_text.

Definition msg_long_pipe : MSG :=
  mkMSG (u "deadbeef0123") (u "N0CALL-1") (u "20240101T000000Z") (u "general") 1
    None (long_text ++ u "|" ++ long_text).

(** The fields that [MSG.to_dict] returns when [str] accepts the
    priority. *)
Definition MSG_fields (m : MSG) : list (str * str) :=
  [ (u "id", id m);
    (u "from", from_node m);
    (u "time", timestamp m);
    (u "chan", channel m);
    (u "prio", decimal (priority m));
    (u "reply", match reply_to m with
                | Some r => if decide (r = []) then u "-" else r
                | None => u "-"
                end);
    (u "body", body m) ].

(** A FRAG written with Arabic-Indic digits and a no-break space, which
    [int] reads as 0 and 3. *)
Definition frag_arabic : list byte :=
  u "FRAG|msgid=deadbeef0123|idx= ٠|total=٣|data=aGk=".

(** A fragment that the constructor accepts and [str] does not. *)
Definition frag_huge : FRAG := mkFRAG (u "deadbeef0123") (10 ^ 4300) (10 ^ 4300 + 1) [].

(** A message and a reply to it. *)
Definition msg_parent : MSG :=
  mkMSG (u "aaaaaaaaaaaa") (u "N0CALL-1") (u "20240101T000000Z") (u "general") 1
    None (u "first").

Definition msg_reply : MSG :=
  mkMSG (u "bbbbbbbbbbbb") (u "N0CALL-2") (u "20240101T000100Z") (u "general") 2
    (Some (u "aaaaaaaaaaaa")) (u "second").

End Codec.

(** ** AX.25 addresses ([network/ax25.py]) *)

Module AX25.
Import Text.

Record AX25Address := mkAX25Address {
  callsign : str;
  ssid : Z
}.

(** [chr(n)] for a code point below 128, in UTF-8. *)
Definition chr7 (n : Z) : byte := default Byte.x00 (Byte.of_N (Z.to_N n)).

Definition SPACE : byte := " "%byte.
Definition HYPHEN : byte := "-"%byte.

(** [str.upper] restricted to ASCII letters; used where an instance of the
    section variable below is needed. *)
Definition ascii_upper (s : str) : str :=
  map (fun b => if is_lower_byte b then chr7 (ord b - 32) else b) s.

Section Address.

(** [str.upper()], Unicode case mapping included, is left abstract: the
    constructor only measures its result. *)
Variable upper : str -> str.

Context {ucd : UnicodeData}.

(** The dataclass constructor followed by [__post_init__]. *)
Definition AX25Address_new (callsign : str) (ssid : Z) : result AX25Address :=
  let callsign := upper callsign in
  if 6 <? len callsign then Raise ValueError
  else if negb ((0 <=? ssid) && (ssid <=? 15)) then Raise ValueError
  else Ok (mkAX25Address callsign ssid).

Definition decode (data : list byte) : result (option AX25Address) :=
  if negb (length data =? 7)%nat then Ok None
  else
    let callsign_chars :=
      filter (fun c => c <> SPACE)
             (map (fun b => chr7 (Z.shiftr (ord b) 1)) (take 6 data)) in
    let ssid_byte := match data !! 6%nat with Some b => ord b | None => 0 end in
    let ssid := Z.land (Z.shiftr ssid_byte 1) 15 in
    a <-! AX25Address_new callsign_chars ssid;
    Ok (Some a).

Definition parse (address_str : str) : result AX25Address :=
  if contains HYPHEN address_str then
    let '(callsign, ssid_str) := split1 HYPHEN address_str in
    ssid <-! int_of_str ssid_str;
    AX25Address_new callsign ssid
  else AX25Address_new address_str 0.

End Address.

(** The invariant the specification states for addresses. *)
Definition is_alnum_byte (b : byte) : bool :=
  in_range 48 57 b || in_range 65 90 b || in_range 97 122 b.

Definition stated_invariant (a : AX25Address) : Prop :=
  1 <= len (callsign a) <= 6
  /\ forallb is_alnum_byte (callsign a) = true
  /\ 0 <= ssid a <= 15.

(** The invariant the constructor enforces. *)
Definition enforced_invariant (a : AX25Address) : Prop :=
  len (callsign a) <= 6 /\ 0 <= ssid a <= 15.

(** The loop of [AX25Address.encode] over the characters of the padded
    callsign.  [bytearray.append] raises [ValueError] outside [range(256)],
    which is what [ord(char) << 1] is for every character outside ASCII;
    so does the first byte of such a character in UTF-8. *)
Fixpoint shift_chars (padded : str) : result (list byte) :=
  match padded with
  | [] => Ok []
  | char :: rest =>
      b <-! byte_of_int (Z.shiftl (ord char) 1);
      bs <-! shift_chars rest;
      Ok (b :: bs)
  end.

(** [AX25Address.encode(is_last)] *)
Definition encode (self : AX25Address) (is_last : bool) : result (list byte) :=
  let padded := ljust 6 SPACE (callsign self) in
  shifted <-! shift_chars padded;
  let ssid_byte := Z.lor 96 (Z.shiftl (ssid self) 1) in
  let ssid_byte := if is_last then Z.lor ssid_byte 1 else ssid_byte in
  s <-! byte_of_int ssid_byte;
  Ok (shifted ++ [s]).

(** [AX25Address.__str__] *)
Definition to_str (self : AX25Address) : result str :=
  if ssid self =? 0 then Ok (callsign self)
  else
    ssid_str <-! str_of_int (ssid self);
    Ok (callsign self ++ [HYPHEN] ++ ssid_str).

Record AX25Frame := mkAX25Frame {
  destination : AX25Address;
  source : AX25Address;
  digipeaters : list AX25Address;
  control : Z;
  pid : Z;
  info : list byte
}.

(** The loop over [enumerate(self.digipeaters)]; [n] is
    [len(self.digipeaters)] and [i] the index of the head of [digis]. *)
Fixpoint encode_digipeaters (n i : nat) (digis : list AX25Address) : result (list byte) :=
  match digis with
  | [] => Ok []
  | digi :: rest =>
      let is_last := (i =? n - 1)%nat in
      b <-! encode digi is_last;
      bs <-! encode_digipeaters n (S i) rest;
      Ok (b ++ bs)
  end.

(** [AX25Frame.encode] *)
Definition AX25Frame_encode (self : AX25Frame) : result (list byte) :=
  d <-! encode (destination self) false;
  let is_last := (length (digipeaters self) =? 0)%nat in
  s <-! encode (source self) is_last;
  digis <-! encode_digipeaters (length (digipeaters self)) 0 (digipeaters self);
  c <-! byte_of_int (control self);
  p <-! byte_of_int (pid self);
  Ok (d ++ s ++ digis ++ [c] ++ [p] ++ info self).

Section Frame.

Variable upper : str -> str.

Context {ucd : UnicodeData}.

(** The [while idx + 7 <= len(data)] loop of [AX25Frame.decode], on the
    bytes from [idx] on: it returns the digipeaters and the bytes that
    follow them. *)
Fixpoint decode_digipeaters (rest : list byte) (digipeaters : list AX25Address)
  : result (list byte * list AX25Address) :=
  match rest with
  | b0 :: b1 :: b2 :: b3 :: b4 :: b5 :: b6 :: rest' =>
      digi <-! decode upper [b0; b1; b2; b3; b4; b5; b6];
      match digi with
      | None => Ok (rest, digipeaters)
      | Some digi =>
          let digipeaters := digipeaters ++ [digi] in
          if negb (Z.land (ord b6) 1 =? 0) then Ok (rest', digipeaters)
          else decode_digipeaters rest' digipeaters
      end
  | _ => Ok (rest, digipeaters)
  end.

(** [AX25Frame.decode]; [except Exception: return None] is [catch_none]. *)
Definition AX25Frame_decode (data : list byte) : option AX25Frame :=
  if (length data <? 16)%nat then None
  else catch_none (
    destination <-! decode upper (slice data 0 7);
    match destination with
    | None => Ok None
    | Some destination =>
        source <-! decode upper (slice data 7 14);
        match source with
        | None => Ok None
        | Some source =>
            let data13 := match data !! 13%nat with Some b => ord b | None => 0 end in
            after <-! (if Z.land data13 1 =? 0
                       then decode_digipeaters (drop 14 data) []
                       else Ok (drop 14 data, []));
            let '(rest, digipeaters) := after in
            match rest with
            | [] => Ok None
            | control :: rest =>
                match rest with
                | [] => Ok None
                | pid :: info =>
                    Ok (Some (mkAX25Frame destination source digipeaters
                                (ord control) (ord pid) info))
                end
            end
        end
    end).

Fixpoint parse_all (addresses : list str) : result (list AX25Address) :=
  match addresses with
  | [] => Ok []
  | a :: rest =>
      addr <-! parse upper a;
      addrs <-! parse_all rest;
      Ok (addr :: addrs)
  end.

(** [AX25Frame.create_ui_frame]; no digipeaters is the empty list. *)
Definition create_ui_frame (source destination : str) (info : list byte)
    (digipeaters : list str) : result AX25Frame :=
  src_addr <-! parse upper source;
  dst_addr <-! parse upper destination;
  digi_addrs <-! parse_all digipeaters;
  Ok (mkAX25Frame dst_addr src_addr digi_addrs 3 240 info).

End Frame.

(** Addresses and frames as they go on the air: callsigns of at most six
    ASCII characters without a space, which [str.upper] leaves alone, an
    SSID of four bits, and one byte each for control and PID. *)
Definition wire_address (upper : str -> str) (a : AX25Address) : Prop :=
  isascii (callsign a) = true
  /\ (length (callsign a) <= 6)%nat
  /\ SPACE ∉ callsign a
  /\ upper (callsign a) = callsign a
  /\ 0 <= ssid a <= 15.

Definition wire_frame (upper : str -> str) (f : AX25Frame) : Prop :=
  wire_address upper (destination f)
  /\ wire_address upper (source f)
  /\ Forall (wire_address upper) (digipeaters f)
  /\ 0 <= control f < 256
  /\ 0 <= pid f < 256.

End AX25.

(** ** The link to the TNC ([network/direwolf.py])

    [send_frame] and [_receive_loop] without the socket: what is written
    for a payload, and which AX.25 frames a sequence of reads delivers to
    [on_frame_received]. *)

Module Direwolf.
Import Text.

Record DirewolfConfig := mkDirewolfConfig {
  offline_mode : bool;
  callsign : str;
  ssid : Z
}.

(** [f"{callsign}"], with [f"-{ssid}"] appended when the SSID is positive. *)
Definition source_of (config : DirewolfConfig) : result str :=
  if 0 <? ssid config then
    ssid_str <-! str_of_int (ssid config);
    Ok (callsign config ++ [AX25.HYPHEN] ++ ssid_str)
  else Ok (callsign config).

Section Link.

Variable upper : str -> str.

Context {ucd : UnicodeData}.

(** [send_frame(data, destination)]: the flag [connected] after the call
    and the bytes written, if any.  An exception while the frame is built
    is logged and clears [connected]. *)
Definition send_frame (config : DirewolfConfig) (connected : bool)
    (data : list byte) (destination : str) : bool * option (list byte) :=
  if offline_mode config then (connected, None)
  else if negb connected then (connected, None)
  else
    match
      (source <-! source_of config;
       ax25_frame <-! AX25.create_ui_frame upper source destination data [];
       ax25_data <-! AX25.AX25Frame_encode ax25_frame;
       KISS.encode_data (KISS.new 0) ax25_data)
    with
    | Ok kiss_data => (true, Some kiss_data)
    | Raise _ => (false, None)
    end.

(** The body of the [for kiss_frame in frames] loop: the frames handed to
    [on_frame_received]. *)
Definition deliver (frames : list KISS.KISSFrame) : list AX25.AX25Frame :=
  omap (fun kiss_frame =>
          match AX25.AX25Frame_decode upper (KISS.data kiss_frame) with
          | Some ax25_frame =>
              if (AX25.control ax25_frame =? 3) && (AX25.pid ax25_frame =? 240)
              then Some ax25_frame else None
          | None => None
          end) frames.

(** [_receive_loop] over the chunks that [reader.read] returns.  The local
    [buffer] starts as a [bytearray] of its own; after the first pass
    [buffer = self.kiss_protocol.buffer] makes it the decoder's own buffer
    object, so that from the second pass on [buffer.extend(data)] already
    extends the decoder's buffer, and [decode_frames(bytes(buffer))]
    appends the whole of it once more.  [first] tells the first pass from
    the later ones.  An empty read, or an exception of [decode_frames],
    ends the loop. *)
Fixpoint _receive_loop (first : bool) (kiss_protocol : KISS.KISSProtocol)
    (reads : list (list byte)) : list AX25.AX25Frame :=
  match reads with
  | [] => []
  | data :: rest =>
      match data with
      | [] => []
      | _ :: _ =>
          let kiss_protocol :=
            if first then kiss_protocol
            else KISS.mkKISSProtocol (KISS.kp_port kiss_protocol)
                   (KISS.buffer kiss_protocol ++ data) in
          let buffer := if first then data else KISS.buffer kiss_protocol in
          match KISS.decode_frames kiss_protocol buffer with
          | Some (kiss_protocol, Ok frames) =>
              deliver frames ++ _receive_loop false kiss_protocol rest
          | _ => []
          end
      end
  end.

(** A station whose callsign goes on the air as it is configured. *)
Definition station_ok (config : DirewolfConfig) : Prop :=
  offline_mode config = false
  /\ isascii (callsign config) = true
  /\ (length (callsign config) <= 6)%nat
  /\ AX25.SPACE ∉ callsign config
  /\ AX25.HYPHEN ∉ callsign config
  /\ upper (callsign config) = callsign config
  /\ 0 <= ssid config <= 15
  /\ upper (u "RFMP") = u "RFMP".

(** The UI frame that carries [data] from the station. *)
Definition ui_frame (config : DirewolfConfig) (data : list byte) : AX25.AX25Frame :=
  AX25.mkAX25Frame (AX25.mkAX25Address (u "RFMP") 0)
    (AX25.mkAX25Address (callsign config) (ssid config)) [] 3 240 data.

End Link.

Definition demo_station : DirewolfConfig := mkDirewolfConfig false (u "N0CALL") 7.

End Direwolf.

(** ** Fragmentation and reassembly ([protocol/fragmentation.py]) *)

Module Fragmentation.
Import Text Frames FrameParser.

(** [math.ceil(a / b)].  The quotient of the source is a float; it is the
    exact quotient rounded, and its ceiling is the exact one for every
    [a] below [2^53], which the length of a byte string is. *)
Definition ceil_div (a b : Z) : result Z :=
  if b =? 0 then Raise ZeroDivisionError else Ok (- ((- a) / b)).

(** [b[start:end]] for [0 <= start]. *)
Definition zslice (b : list byte) (start stop : Z) : list byte :=
  slice b (Z.to_nat start) (Z.to_nat stop).

Fixpoint mapM {A B} (f : A -> result B) (l : list A) : result (list B) :=
  match l with
  | [] => Ok []
  | x :: l' => y <-! f x; ys <-! mapM f l'; Ok (y :: ys)
  end.

Record FragmentCollector := mkFragmentCollector {
  fc_message_id : str;
  total_fragments : Z;
  fragments : gmap Z (list byte);
  first_seen : Z
}.

(** [FragmentCollector.add_fragment]: the collector after the call and the
    returned flag. *)
Definition collector_add_fragment (self : FragmentCollector) (fragment : FRAG)
  : result (FragmentCollector * bool) :=
  if decide (message_id fragment <> fc_message_id self) then Raise ValueError
  else
    match fragments self !! idx fragment with
    | Some _ => Ok (self, false)
    | None =>
        Ok (mkFragmentCollector (fc_message_id self) (total_fragments self)
              (<[idx fragment := data fragment]> (fragments self))
              (first_seen self), true)
    end.

Definition is_complete (self : FragmentCollector) : bool :=
  Z.of_nat (size (fragments self)) =? total_fragments self.

Definition reassemble (self : FragmentCollector) : result (option (list byte)) :=
  if negb (is_complete self) then Ok None
  else
    parts <-! mapM (fun i => match fragments self !! i with
                             | Some d => Ok d
                             | None => Raise KeyError
                             end)
                   (seqZ 0 (total_fragments self));
    Ok (Some (concat parts)).

Record Fragmenter := mkFragmenter {
  fragment_threshold : Z;
  collectors : gmap str FragmentCollector
}.

Definition Fragmenter_new (fragment_threshold : Z) : Fragmenter :=
  mkFragmenter fragment_threshold ∅.

Definition fragment_message (self : Fragmenter) (msg : MSG) : result (list FRAG) :=
  encoded <-! encode (FrameMSG msg);
  let L := Z.of_nat (length encoded) in
  if L <=? fragment_threshold self then Ok []
  else
    let fragment_size := fragment_threshold self - 50 in
    total_fragments <-! ceil_div L fragment_size;
    mapM (fun i =>
            let start := i * fragment_size in
            let stop := Z.min (start + fragment_size) L in
            FRAG_new (id msg) i total_fragments (zslice encoded start stop))
         (seqZ 0 total_fragments).

(** [Fragmenter.add_fragment] at time [now]: the fragmenter after the call
    (collectors are updated in place, also when reassembly raises) and the
    returned pair, or the exception. *)
Definition add_fragment {ucd : UnicodeData} (now : Z) (self : Fragmenter) (fragment : FRAG)
  : Fragmenter * result (bool * option MSG) :=
  let collector0 :=
    match collectors self !! message_id fragment with
    | Some c => c
    | None => mkFragmentCollector (message_id fragment) (total fragment) ∅ now
    end in
  match collector_add_fragment collector0 fragment with
  | Raise e =>
      (mkFragmenter (fragment_threshold self)
         (<[message_id fragment := collector0]> (collectors self)), Raise e)
  | Ok (collector, is_new) =>
      let self1 := mkFragmenter (fragment_threshold self)
                     (<[message_id fragment := collector]> (collectors self)) in
      if is_complete collector then
        match reassemble collector with
        | Raise e => (self1, Raise e)
        | Ok (Some ((_ :: _) as data)) =>
            match decode data with
            | Some (FrameMSG frame) =>
                (mkFragmenter (fragment_threshold self)
                   (delete (message_id fragment) (collectors self1)),
                 Ok (is_new, Some frame))
            | _ => (self1, Ok (is_new, None))
            end
        | Ok _ => (self1, Ok (is_new, None))
        end
      else (self1, Ok (is_new, None))
  end.

(** [FragmentCollector.get_missing_indexes] *)
Definition get_missing_indexes (self : FragmentCollector) : list Z :=
  filter (fun i => fragments self !! i = None) (seqZ 0 (total_fragments self)).

(** [Fragmenter.get_missing_fragments] *)
Definition get_missing_fragments (self : Fragmenter) (message_id : str)
  : option (list Z) :=
  match collectors self !! message_id with
  | None => None
  | Some collector => Some (get_missing_indexes collector)
  end.

(** Calls of [Fragmenter.add_fragment] one after another, each at its
    time, with what each call returned or raised. *)
Fixpoint feed {ucd : UnicodeData} (self : Fragmenter) (events : list (Z * FRAG))
  : Fragmenter * list (result (bool * option MSG)) :=
  match events with
  | [] => (self, [])
  | (now, fragment) :: rest =>
      let '(self1, r) := add_fragment now self fragment in
      let '(self2, rs) := feed self1 rest in
      (self2, r :: rs)
  end.

(** The fragments that a collector holds all have an index below its
    total. *)
Definition indexes_in_range (self : FragmentCollector) : Prop :=
  forall i, is_Some (fragments self !! i) -> 0 <= i < total_fragments self.

(** The fragments that [fragment_message] cuts from the encoding. *)
Definition cut (msg : MSG) (encoded : list byte) (threshold total : Z) (i : Z) : FRAG :=
  let s := threshold - 50 in
  mkFRAG (id msg) i total
    (zslice encoded (i * s) (Z.min (i * s + s) (Z.of_nat (length encoded)))).

(** The fragments held after receiving [received], latest first. *)
Definition held (received : list FRAG) : gmap Z (list byte) :=
  list_to_map ((fun f => (idx f, data f)) <$> received).

(** Two collectors that wait for fragments. *)
Definition two_of_three : FragmentCollector :=
  mkFragmentCollector (u "deadbeef0123") 3
    (<[0 := u "ab"]> (<[2 := u "ef"]> ∅)) 0.

Definition one_of_two : FragmentCollector :=
  mkFragmentCollector (u "deadbeef0123") 2 (<[0 := u "ab"]> ∅) 0.

End Fragmentation.

(** ** Bloom filters ([sync/bloom.py])

    A [datetime] is the number of microseconds since the epoch and a
    [timedelta] a number of microseconds. *)

Definition seconds (n : Z) : Z := n * 1000000.

Module Bloom.

Section Hash.

(** [mmh3.hash(item, seed, signed=False)] *)
Variable mmh3_hash : str -> Z -> Z.

Record BloomFilter := mkBloomFilter {
  num_bits : Z;
  num_hashes : Z;
  num_bytes : Z;
  bits : list Z
}.

(** [BloomFilter(num_bits, num_hashes)]; [bytearray(n)] raises
    [ValueError] on a negative count. *)
Definition BloomFilter_new (num_bits num_hashes : Z) : result BloomFilter :=
  if negb (num_bits mod 8 =? 0) then Raise ValueError
  else if num_bits / 8 <? 0 then Raise ValueError
  else Ok (mkBloomFilter num_bits num_hashes (num_bits / 8)
             (replicate (Z.to_nat (num_bits / 8)) 0)).

(** The position in [l] that the index [i] names: negative indices count
    from the end, anything else out of range raises [IndexError]. *)
Definition index_of (l : list Z) (i : Z) : result nat :=
  let n := Z.of_nat (length l) in
  if (0 <=? i) && (i <? n) then Ok (Z.to_nat i)
  else if (i <? 0) && (0 <=? n + i) then Ok (Z.to_nat (n + i))
  else Raise IndexError.

(** [hash_val % num_bits], [bit_pos // 8] and [bit_pos % 8] *)
Definition bit_position (self : BloomFilter) (item : str) (seed : Z)
  : result (Z * Z) :=
  if num_bits self =? 0 then Raise ZeroDivisionError
  else
    let bit_pos := mmh3_hash item seed mod num_bits self in
    Ok (bit_pos / 8, bit_pos mod 8).

(** One iteration of the loop of [add]: [self.bits[byte_idx] |= 1 << bit_idx] *)
Definition set_bit (self : BloomFilter) (item : str) (seed : Z) : result BloomFilter :=
  pos <-! bit_position self item seed;
  let '(byte_idx, bit_idx) := pos in
  i <-! index_of (bits self) byte_idx;
  let old := default 0 (bits self !! i) in
  Ok (mkBloomFilter (num_bits self) (num_hashes self) (num_bytes self)
        (<[i := Z.lor old (Z.shiftl 1 bit_idx)]> (bits self))).

Fixpoint add_seeds (self : BloomFilter) (item : str) (seeds : list Z)
  : result BloomFilter :=
  match seeds with
  | [] => Ok self
  | seed :: rest => self' <-! set_bit self item seed; add_seeds self' item rest
  end.

Definition add (self : BloomFilter) (item : str) : result BloomFilter :=
  add_seeds self item (seqZ 0 (num_hashes self)).

(** One iteration of the loop of [contains]: is the bit set? *)
Definition test_bit (self : BloomFilter) (item : str) (seed : Z) : result bool :=
  pos <-! bit_position self item seed;
  let '(byte_idx, bit_idx) := pos in
  i <-! index_of (bits self) byte_idx;
  Ok (negb (Z.land (default 0 (bits self !! i)) (Z.shiftl 1 bit_idx) =? 0)).

Fixpoint contains_seeds (self : BloomFilter) (item : str) (seeds : list Z)
  : result bool :=
  match seeds with
  | [] => Ok true
  | seed :: rest =>
      b <-! test_bit self item seed;
      if b then contains_seeds self item rest else Ok false
  end.

Definition contains (self : BloomFilter) (item : str) : result bool :=
  contains_seeds self item (seqZ 0 (num_hashes self)).

Record RotatingBloomFilter := mkRotatingBloomFilter {
  window_duration : Z;
  window_count : Z;
  bloom_bits : Z;
  bloom_hashes : Z;
  windows : list (Z * BloomFilter);
  current_window_index : Z
}.

(** [RotatingBloomFilter(...)] constructed at time [now]. *)
Definition RotatingBloomFilter_new (now : Z)
    (window_duration window_count bloom_bits bloom_hashes : Z)
  : result RotatingBloomFilter :=
  windows <-! Fragmentation.mapM
                (fun i => bloom <-! BloomFilter_new bloom_bits bloom_hashes;
                          Ok (now - seconds (i * window_duration), bloom))
                (seqZ 0 window_count);
  Ok (mkRotatingBloomFilter window_duration window_count bloom_bits bloom_hashes
        windows 0).

Definition _rotate_if_needed (now : Z) (self : RotatingBloomFilter)
  : result RotatingBloomFilter :=
  match last (windows self) with
  | None => Raise IndexError
  | Some (oldest_start, _) =>
      let age := now - oldest_start in
      if seconds (window_duration self * window_count self) <? age then
        new_bloom <-! BloomFilter_new (bloom_bits self) (bloom_hashes self);
        if window_count self =? 0 then Raise ZeroDivisionError
        else
          Ok (mkRotatingBloomFilter (window_duration self) (window_count self)
                (bloom_bits self) (bloom_hashes self)
                ((now, new_bloom) :: removelast (windows self))
                ((current_window_index self + 1) mod window_count self))
      else Ok self
  end.

Definition rotating_add (now : Z) (self : RotatingBloomFilter) (item : str)
  : result RotatingBloomFilter :=
  self <-! _rotate_if_needed now self;
  match windows self with
  | [] => Raise IndexError
  | (start, bloom) :: rest =>
      bloom' <-! add bloom item;
      Ok (mkRotatingBloomFilter (window_duration self) (window_count self)
            (bloom_bits self) (bloom_hashes self)
            ((start, bloom') :: rest) (current_window_index self))
  end.

Fixpoint contains_any (ws : list (Z * BloomFilter)) (item : str) : result bool :=
  match ws with
  | [] => Ok false
  | (_, bloom) :: rest =>
      b <-! contains bloom item;
      if b then Ok true else contains_any rest item
  end.

Definition rotating_contains (now : Z) (self : RotatingBloomFilter) (item : str)
  : result (RotatingBloomFilter * bool) :=
  self <-! _rotate_if_needed now self;
  b <-! contains_any (windows self) item;
  Ok (self, b).

(** A call made on the filter, with the time at which it is made. *)
Inductive call :=
| Add (now : Z) (item : str)
| Contains (now : Z) (item : str).

Definition call_time (c : call) : Z :=
  match c with Add now _ | Contains now _ => now end.

Definition run_call (self : RotatingBloomFilter) (c : call)
  : result RotatingBloomFilter :=
  match c with
  | Add now item => rotating_add now self item
  | Contains now item => r <-! rotating_contains now self item; Ok r.1
  end.

Fixpoint run_calls (self : RotatingBloomFilter) (cs : list call)
  : result RotatingBloomFilter :=
  match cs with
  | [] => Ok self
  | c :: rest => self' <-! run_call self c; run_calls self' rest
  end.

(** What the constructors establish and every method keeps. *)
Definition BloomFilter_wf (bf : BloomFilter) : Prop :=
  0 < num_bits bf /\ num_bits bf mod 8 = 0
  /\ Z.of_nat (length (bits bf)) = num_bits bf / 8.

Definition Rotating_wf (rb : RotatingBloomFilter) : Prop :=
  0 < bloom_bits rb /\ bloom_bits rb mod 8 = 0
  /\ 0 < window_count rb
  /\ windows rb <> []
  /\ Forall (fun w => BloomFilter_wf (w.2)) (windows rb).

(** Some window that started at [s] contains [item]. *)
Definition holds (rb : RotatingBloomFilter) (item : str) (s : Z) : Prop :=
  exists bf, (s, bf) ∈ windows rb /\ contains bf item = Ok true.

End Hash.

(** [to_bytes]: the elements of a [bytearray] are in [range(256)], where
    [bytes(...)] cannot fail. *)
Definition to_bytes (self : BloomFilter) : result (list byte) :=
  Fragmentation.mapM byte_of_int (bits self).

(** [BloomFilter.from_bytes(data, num_hashes)] *)
Definition from_bytes (data : list byte) (num_hashes : Z) : result BloomFilter :=
  let num_bits := Z.of_nat (length data) * 8 in
  bf <-! BloomFilter_new num_bits num_hashes;
  Ok (mkBloomFilter (Bloom.num_bits bf) (Bloom.num_hashes bf) (num_bytes bf)
        (ord <$> data)).



(** Every byte of the bit array is a byte, and the declared sizes agree
    with it. *)
Definition BloomFilter_bytes (bf : BloomFilter) : Prop :=
  Forall (fun b => 0 <= b < 256) (bits bf)
  /\ num_bytes bf = num_bits bf / 8.


(** Calls of [add] one after another. *)
Fixpoint add_items (mmh3_hash : str -> Z -> Z) (self : BloomFilter) (items : list str)
  : result BloomFilter :=
  match items with
  | [] => Ok self
  | item :: rest => self' <-! add mmh3_hash self item; add_items mmh3_hash self' rest
  end.

Definition same_config (rb rb' : RotatingBloomFilter) : Prop :=
  window_duration rb' = window_duration rb /\ window_count rb' = window_count rb
  /\ bloom_bits rb' = bloom_bits rb /\ bloom_hashes rb' = bloom_hashes rb.

(** The instant after which a window that started at [s] may be dropped. *)
Definition deadline (rb : RotatingBloomFilter) (s : Z) : Z :=
  s + seconds (window_duration rb * window_count rb).

(** The start of the window that receives an item added at [now]: [now]
    itself when the call rotates, else the start of the newest window. *)
Definition receiving_window_start (now : Z) (rb : RotatingBloomFilter) : option Z :=
  match last (windows rb) with
  | Some (oldest_start, _) =>
      if seconds (window_duration rb * window_count rb) <? now - oldest_start
      then Some now
      else fst <$> head (windows rb)
  | None => None
  end.

(** A filter of three 10-second windows created at time 0, and a stand-in
    for the hash function to run it with. *)
Definition empty_filter : BloomFilter := mkBloomFilter 256 3 32 (replicate 32 0).

Definition fresh_filter : RotatingBloomFilter :=
  mkRotatingBloomFilter 10 3 256 3
    [(0, empty_filter); (seconds (-10), empty_filter); (seconds (-20), empty_filter)] 0.

Definition toy_hash (item : str) (seed : Z) : Z := Z.of_nat (length item) + seed.


End Bloom.

(** ** REQ rate limiting ([sync/rate_limit.py]) *)

Module RateLimit.

Record RequestRecord := mkRequestRecord {
  message_id : str;
  first_attempt : Z;
  last_attempt : Z;
  attempt_count : Z;
  backoff_seconds : Z
}.

Record RateLimitConfig := mkRateLimitConfig {
  max_req_per_min : Z;
  initial_backoff : Z;
  max_backoff : Z;
  max_retries : Z
}.

Definition default_config : RateLimitConfig := mkRateLimitConfig 6 30 600 4.

Record RateLimiter := mkRateLimiter {
  config : RateLimitConfig;
  request_history : list Z;
  message_requests : gmap str RequestRecord
}.

Definition RateLimiter_new (config : RateLimitConfig) : RateLimiter :=
  mkRateLimiter config [] ∅.

(** [_check_global_limit] prunes the history in place and answers. *)
Definition _check_global_limit (now : Z) (self : RateLimiter) : RateLimiter * bool :=
  let cutoff := now - seconds 60 in
  let history := filter (fun ts => cutoff < ts) (request_history self) in
  (mkRateLimiter (config self) history (message_requests self),
   bool_decide (Z.of_nat (length history) < max_req_per_min (config self))).

Definition _check_message_limit (now : Z) (self : RateLimiter) (message_id : str) : bool :=
  match message_requests self !! message_id with
  | None => true
  | Some record =>
      if bool_decide (max_retries (config self) <= attempt_count record) then false
      else
        let next_allowed := last_attempt record + seconds (backoff_seconds record) in
        bool_decide (next_allowed <= now)
  end.

(** [can_send_req(message_id)]; the per-message check is made for an id
    that is neither [None] nor empty. *)
Definition can_send_req (now : Z) (self : RateLimiter) (message_id : option str)
  : RateLimiter * bool :=
  let '(self, ok) := _check_global_limit now self in
  if negb ok then (self, false)
  else
    match message_id with
    | Some ((_ :: _) as id) =>
        if negb (_check_message_limit now self id) then (self, false)
        else (self, true)
    | _ => (self, true)
    end.

Definition record_req (now : Z) (self : RateLimiter) (message_id : str) : RateLimiter :=
  let history := request_history self ++ [now] in
  let record :=
    match message_requests self !! message_id with
    | Some record =>
        mkRequestRecord (RateLimit.message_id record) (first_attempt record) now
          (attempt_count record + 1)
          (Z.min (max_backoff (config self)) (backoff_seconds record * 2))
    | None =>
        mkRequestRecord message_id now now 1 (initial_backoff (config self))
    end in
  mkRateLimiter (config self) history (<[message_id := record]> (message_requests self)).

(** [mark_success] *)
Definition mark_success (self : RateLimiter) (message_id : str) : RateLimiter :=
  mkRateLimiter (config self) (request_history self)
    (delete message_id (message_requests self)).

(** [get_backoff] *)
Definition get_backoff (self : RateLimiter) (message_id : str) : option Z :=
  match message_requests self !! message_id with
  | Some record => Some (backoff_seconds record)
  | None => None
  end.

(** [min(l)] of a list that is not empty. *)
Definition list_min (l : list Z) : option Z :=
  match l with
  | [] => None
  | x :: rest => Some (foldr Z.min x rest)
  end.

(** [get_next_req_time]: [None] is the source's [None], which stands both
    for "now" and for "never". *)
Definition get_next_req_time (self : RateLimiter) (message_id : option str)
  : option Z :=
  let global :=
    if bool_decide (max_req_per_min (config self)
                    <= Z.of_nat (length (request_history self)))
    then match list_min (request_history self) with
         | Some oldest => Some (oldest + seconds 60)
         | None => None
         end
    else None in
  match global with
  | Some t => Some t
  | None =>
      match message_id with
      | Some ((_ :: _) as id) =>
          match message_requests self !! id with
          | Some record =>
              if bool_decide (max_retries (config self) <= attempt_count record)
              then None
              else Some (last_attempt record + seconds (backoff_seconds record))
          | None => None
          end
      | _ => None
      end
  end.

(** [cleanup_old_records(max_age_hours)] at time [now] *)
Definition cleanup_old_records (now : Z) (self : RateLimiter) (max_age_hours : Z)
  : RateLimiter :=
  let cutoff := now - seconds (max_age_hours * 3600) in
  mkRateLimiter (config self) (request_history self)
    (filter (fun kv => cutoff < last_attempt (kv.2)) (message_requests self)).

(** A REQ for [message_id] comes up at time [now]: it is sent, and
    recorded, when [can_send_req] admits it. *)
Definition try_send (now : Z) (message_id : str) (self : RateLimiter) : RateLimiter * bool :=
  let '(self, ok) := can_send_req now self (Some message_id) in
  if ok then (record_req now self message_id, true) else (self, false).

(** What is done with the limiter: a REQ comes up, a message is received
    ([mark_success]), or the records are cleaned up. *)
Inductive call :=
| Req (message_id : str)
| Success (message_id : str)
| Cleanup (max_age_hours : Z).

(** One call at time [now]: the limiter after it, and the admission it
    made, if any. *)
Definition step (now : Z) (c : call) (self : RateLimiter)
  : RateLimiter * list (Z * str) :=
  match c with
  | Req message_id =>
      let '(self, ok) := try_send now message_id self in
      (self, if ok then [(now, message_id)] else [])
  | Success message_id => (mark_success self message_id, [])
  | Cleanup max_age_hours => (cleanup_old_records now self max_age_hours, [])
  end.

(** A sequence of calls; [admitted] collects the admissions in the order
    in which they happen. *)
Fixpoint run (self : RateLimiter) (admitted : list (Z * str)) (trace : list (Z * call))
  : RateLimiter * list (Z * str) :=
  match trace with
  | [] => (self, admitted)
  | (now, c) :: rest =>
      let '(self', adm) := step now c self in
      run self' (admitted ++ adm) rest
  end.

(** The clock does not go back: times are non-decreasing from [T] on. *)
Fixpoint ordered_from (T : Z) (trace : list (Z * call)) : Prop :=
  match trace with
  | [] => True
  | (now, _) :: rest => T <= now /\ ordered_from now rest
  end.

(** No call of the trace removes the record of [id] when there is one. *)
Fixpoint keeps_record (id : str) (self : RateLimiter) (trace : list (Z * call)) : Prop :=
  match trace with
  | [] => True
  | (now, c) :: rest =>
      (is_Some (message_requests self !! id)
       -> is_Some (message_requests (step now c self).1 !! id))
      /\ keeps_record id (step now c self).1 rest
  end.

(** The times at which [id] was admitted. *)
Definition admissions_of (id : str) (admitted : list (Z * str)) : list Z :=
  (filter (fun a => a.2 = id) admitted).*1.

(** The admissions in the 60 seconds that end at [t]. *)
Definition in_window (t : Z) (admitted : list (Z * str)) : list Z :=
  filter (fun ts => t - seconds 60 < ts /\ ts <= t) (admitted.*1).

(** [sum over i < n of min(max_backoff, initial_backoff * 2^i)] *)
Fixpoint backoff_sum (cfg : RateLimitConfig) (n : nat) : Z :=
  match n with
  | O => 0
  | S n' => backoff_sum cfg n'
            + Z.min (max_backoff cfg) (initial_backoff cfg * 2 ^ Z.of_nat n')
  end.

(** The lower bound on the backoff after [k + 1] recorded attempts. *)
Definition cap (cfg : RateLimitConfig) (k : nat) : Z :=
  Z.min (max_backoff cfg) (initial_backoff cfg * 2 ^ Z.of_nat k).

(** What the record of an id says about the admissions of that id since
    the id last had no record. *)
Definition rec_inv (cfg : RateLimitConfig) (orec : option RequestRecord)
    (times : list Z) : Prop :=
  match orec with
  | None => times = []
  | Some r =>
      times !! 0%nat = Some (first_attempt r)
      /\ last times = Some (last_attempt r)
      /\ attempt_count r = Z.of_nat (length times)
      /\ cap cfg (length times - 1) <= backoff_seconds r
      /\ (forall n an, times !! n = Some an ->
                       first_attempt r + seconds (backoff_sum cfg n) <= an)
      /\ Z.of_nat (length times) <= Z.max 1 (max_retries cfg)
  end.

(** What holds of the history and of all the admissions so far, when the
    last call was made at time [T]. *)
Definition history_inv (cfg : RateLimitConfig) (T : Z)
    (st : RateLimiter) (adm : list (Z * str)) : Prop :=
  config st = cfg
  /\ Forall (fun a => a.1 <= T) adm
  /\ (forall c, T - seconds 60 <= c ->
        filter (fun ts => c < ts) (request_history st)
        = filter (fun ts => c < ts) (adm.*1))
  /\ (forall t, Z.of_nat (length (in_window t adm)) <= max_req_per_min cfg).

(** A message id and moments at which a REQ for it comes up. *)
Definition demo_id : str := u "deadbeef0123".

Definition demo_trace : list (Z * call) :=
  map (fun t => (seconds t, Req demo_id)) [0; 10; 30; 60; 90; 100; 210; 449; 450; 1000].

(** The message arrives after the last admission and is then asked for
    again; or a day goes by and the records are cleaned up. *)
Definition demo_success : list (Z * call) :=
  [(seconds 1001, Success demo_id); (seconds 1002, Req demo_id)].

Definition demo_cleanup : list (Z * call) :=
  [(seconds 90000, Cleanup 24); (seconds 90001, Req demo_id)].

End RateLimit.

(** ** The store ([storage/database.py])

    Each SQLite table is the finite map from its primary key to the other
    columns.  The [seen_cache] table is declared with [message_id] alone as
    primary key, and [messages] with a foreign key from [reply_to] to its
    own [id], which the connection enforces ([PRAGMA foreign_keys = ON]).
    The aggregate tables (channels, nodes, users) are written and never
    read by what is modelled here, and are left out.

    An integer that a caller hands over to be bound to a statement (a
    fragment index or total, a priority) must fit SQLite's 64-bit INTEGER:
    [sqlite3] raises [OverflowError] for any other, before the statement
    runs.  So does the time at which a transmission is scheduled, the sum
    of the clock and of a delay that the caller chooses.  The other times
    that are bound are readings of the system clock, whole seconds of a
    [datetime]; they fit. *)

Module Database.

Definition sqlite_int (n : Z) : result Z :=
  if (- 2 ^ 63 <=? n) && (n <? 2 ^ 63) then Ok n else Raise OverflowError.

(** An optional integer, [None] being bound as [NULL]. *)
Definition sqlite_opt_int (n : option Z) : result (option Z) :=
  match n with
  | Some n => n <-! sqlite_int n; Ok (Some n)
  | None => Ok None
  end.

Definition dict := list (str * str).

Record message_row := mkMessageRow {
  m_id : str;
  m_from_node : str;
  m_author : option str;
  m_timestamp : str;
  m_channel : str;
  m_priority : Z;
  m_reply_to : option str;
  m_body : str;
  m_received_at : Z;
  m_raw_frame : dict
}.

Record fragment_row := mkFragmentRow {
  f_total : Z;
  f_data : list byte;
  f_received_at : Z
}.

Record seen_row := mkSeenRow {
  fragment_idx : option Z;
  seen_at : Z;
  rebroadcast : bool
}.

Inductive tx_status := pending | transmitting | sent | failed.

#[global] Instance tx_status_eq_dec : EqDecision tx_status.
Proof. solve_decision. Defined.

Record tx_row := mkTxRow {
  tx_id : Z;
  frame_type : Frames.FrameType;
  frame_data : dict;
  tx_priority : Z;
  scheduled_at : Z;
  created_at : Z;
  attempts : Z;
  status : tx_status
}.

Record Database := mkDatabase {
  messages : gmap str message_row;
  fragments : gmap (str * Z) fragment_row;
  seen_cache : gmap str seen_row;
  transmission_queue : list tx_row;
  next_tx_id : Z
}.

(** The tables right after [_create_tables] on a new file. *)
Definition empty : Database := mkDatabase ∅ ∅ ∅ [] 1.

(** The constraints of [INSERT INTO messages]: the primary key must be
    new, and a non-NULL [reply_to] must name a stored message or the row
    itself.  A violation raises [IntegrityError]. *)
Definition insert_allowed (db : Database) (row : message_row) : bool :=
  bool_decide (messages db !! m_id row = None)
  && match m_reply_to row with
     | None => true
     | Some r => bool_decide (is_Some (messages db !! r) \/ r = m_id row)
     end.

(** [save_message]: the database after the call, with [True] when the row
    was inserted and [False] when the [IntegrityError] was caught. *)
Definition save_message (db : Database) (row : message_row) : result (Database * bool) :=
  _ <-! sqlite_int (m_priority row);
  if insert_allowed db row then
    Ok (mkDatabase (<[m_id row := row]> (messages db)) (fragments db) (seen_cache db)
          (transmission_queue db) (next_tx_id db), true)
  else Ok (db, false).

Definition get_message (db : Database) (message_id : str) : option message_row :=
  messages db !! message_id.

(** [save_fragment]: [False] when the [IntegrityError] of the primary key
    [(message_id, idx)] was caught. *)
Definition save_fragment (now : Z) (db : Database) (message_id : str) (idx total : Z)
    (data : list byte) : result (Database * bool) :=
  idx <-! sqlite_int idx;
  total <-! sqlite_int total;
  match fragments db !! (message_id, idx) with
  | Some _ => Ok (db, false)
  | None =>
      Ok (mkDatabase (messages db)
            (<[(message_id, idx) := mkFragmentRow total data now]> (fragments db))
            (seen_cache db) (transmission_queue db) (next_tx_id db), true)
  end.

(** [queue_transmission]; [delay] is [int(delay_seconds)]. *)
Definition queue_transmission (now : Z) (db : Database)
    (frame_type : Frames.FrameType) (frame_data : dict) (priority delay : Z)
  : result Database :=
  let scheduled := now + delay in
  priority <-! sqlite_int priority;
  scheduled <-! sqlite_int scheduled;
  let row := mkTxRow (next_tx_id db) frame_type frame_data priority scheduled
               now 0 pending in
  Ok (mkDatabase (messages db) (fragments db) (seen_cache db)
        (transmission_queue db ++ [row]) (next_tx_id db + 1)).

(** [WHERE status = 'pending' AND scheduled_at <= now] *)
Definition eligible (now : Z) (row : tx_row) : bool :=
  bool_decide (status row = pending) && (scheduled_at row <=? now).

(** [ORDER BY priority DESC, scheduled_at ASC]: does [a] come strictly
    before [b]? *)
Definition before (a b : tx_row) : bool :=
  (tx_priority b <? tx_priority a)
  || ((tx_priority a =? tx_priority b) && (scheduled_at a <? scheduled_at b)).

(** [LIMIT 1] of the ordered rows; among rows that the order does not
    separate the one inserted first is taken. *)
Fixpoint first_row (rows : list tx_row) : option tx_row :=
  match rows with
  | [] => None
  | r :: rest =>
      match first_row rest with
      | Some r' => if before r' r then Some r' else Some r
      | None => Some r
      end
  end.

Definition mark_transmitting (id : Z) (row : tx_row) : tx_row :=
  if tx_id row =? id then
    mkTxRow (tx_id row) (frame_type row) (frame_data row) (tx_priority row)
      (scheduled_at row) (created_at row) (attempts row) transmitting
  else row.

(** The [SELECT] of [get_next_transmission]. *)
Definition select_next (now : Z) (db : Database) : option tx_row :=
  first_row (filter (fun r => eligible now r = true) (transmission_queue db)).

(** The [UPDATE] of [get_next_transmission]. *)
Definition update_transmitting (db : Database) (id : Z) : Database :=
  mkDatabase (messages db) (fragments db) (seen_cache db)
    (map (mark_transmitting id) (transmission_queue db)) (next_tx_id db).

(** [get_next_transmission]: the selected row as it was read, and the
    table with that row marked. *)
Definition get_next_transmission (now : Z) (db : Database)
  : Database * option tx_row :=
  match select_next now db with
  | Some row => (update_transmitting db (tx_id row), Some row)
  | None => (db, None)
  end.

(** Two coroutines in [get_next_transmission] at once.  The [SELECT] and
    the [UPDATE] are separate awaited statements with no lock or
    transaction around them, so the event loop may run the second
    caller's [SELECT] before the first caller's [UPDATE].  The result is
    the table and what each caller returns. *)
Definition get_next_transmission_interleaved (now : Z) (db : Database)
  : Database * option tx_row * option tx_row :=
  let row_a := select_next now db in
  let row_b := select_next now db in
  let db_a := match row_a with
              | Some row => update_transmitting db (tx_id row)
              | None => db
              end in
  let db_b := match row_b with
              | Some row => update_transmitting db_a (tx_id row)
              | None => db_a
              end in
  (db_b, row_a, row_b).

(** [is_seen(message_id, fragment_idx, rebroadcast)] *)
Definition is_seen (db : Database) (message_id : str) (fragment_idx : option Z)
    (rebroadcast : bool) : result bool :=
  fragment_idx <-! sqlite_opt_int fragment_idx;
  Ok match seen_cache db !! message_id with
     | None => false
     | Some row =>
         match fragment_idx with
         | Some idx => bool_decide (Database.fragment_idx row = Some idx)
         | None =>
             bool_decide (Database.fragment_idx row = None)
             && (if rebroadcast then Database.rebroadcast row else true)
         end
     end.

(** [mark_seen]: [INSERT OR REPLACE] *)
Definition mark_seen (now : Z) (db : Database) (message_id : str)
    (fragment_idx : option Z) (rebroadcast : bool) : result Database :=
  fragment_idx <-! sqlite_opt_int fragment_idx;
  Ok (mkDatabase (messages db) (fragments db)
        (<[message_id := mkSeenRow fragment_idx now rebroadcast]> (seen_cache db))
        (transmission_queue db) (next_tx_id db)).

(** [mark_seen_if_new]: [INSERT OR IGNORE], and whether a row was
    inserted. *)
Definition mark_seen_if_new (now : Z) (db : Database) (message_id : str)
    (fragment_idx : option Z) : result (Database * bool) :=
  fragment_idx <-! sqlite_opt_int fragment_idx;
  match seen_cache db !! message_id with
  | Some _ => Ok (db, false)
  | None =>
      Ok (mkDatabase (messages db) (fragments db)
            (<[message_id := mkSeenRow fragment_idx now false]> (seen_cache db))
            (transmission_queue db) (next_tx_id db), true)
  end.

(** The pending rows that are due at [now], in table order. *)
Definition due (now : Z) (db : Database) : list tx_row :=
  filter (fun r => eligible now r = true) (transmission_queue db).

(** Referential integrity of [messages]: every row sits under its own id
    and every [reply_to] names a stored message. *)
Definition references_closed (db : Database) : Prop :=
  forall id row, messages db !! id = Some row ->
    m_id row = id
    /\ forall r, m_reply_to row = Some r -> is_Some (messages db !! r).

(** The table [request_tracking], keyed by [message_id]; times are Unix
    seconds. *)
Record tracking_row := mkTrackingRow {
  first_request : Z;
  last_request : Z;
  retry_count : Z;
  backoff_seconds : Z;
  success : bool
}.

Abbreviation request_tracking := (gmap str tracking_row).

(** [track_request]: the table after the call and the row returned. *)
Definition track_request (now : Z) (table : request_tracking) (message_id : str)
  : request_tracking * tracking_row :=
  let row :=
    match table !! message_id with
    | Some existing =>
        let retry_count := retry_count existing + 1 in
        let backoff := Z.min 600 (backoff_seconds existing * 2) in
        mkTrackingRow (first_request existing) now retry_count backoff
          (success existing)
    | None => mkTrackingRow now now 0 30 false
    end in
  (<[message_id := row]> table, row).

(** [can_request] *)
Definition can_request (now : Z) (table : request_tracking) (message_id : str) : bool :=
  match table !! message_id with
  | None => true
  | Some tracker =>
      if success tracker then false
      else if 4 <=? retry_count tracker then false
      else
        let next_allowed := last_request tracker + backoff_seconds tracker in
        next_allowed <=? now
  end.

(** [track_request] for one message at each of the given times. *)
Fixpoint track_requests (table : request_tracking) (message_id : str) (times : list Z)
  : request_tracking :=
  match times with
  | [] => table
  | now :: rest => track_requests (track_request now table message_id).1 message_id rest
  end.

(** The primary key of the queue: ids are unique and below the counter
    of [AUTOINCREMENT]. *)
Definition queue_wf (db : Database) : Prop :=
  NoDup (tx_id <$> transmission_queue db)
  /\ Forall (fun r => tx_id r < next_tx_id db) (transmission_queue db).

(** Calls on the queue: an insertion, or a caller taking the next row. *)
Inductive queue_call :=
| Queue (now : Z) (frame_type : Frames.FrameType) (frame_data : dict)
        (priority delay : Z)
| Next (now : Z).

(** The calls made in sequence, with the rows that the callers of
    [get_next_transmission] received, in order.  A call of
    [queue_transmission] that raises leaves the table as it was. *)
Fixpoint run_queue (db : Database) (calls : list queue_call) : Database * list tx_row :=
  match calls with
  | [] => (db, [])
  | Queue now ft data priority delay :: rest =>
      match queue_transmission now db ft data priority delay with
      | Ok db' => run_queue db' rest
      | Raise _ => run_queue db rest
      end
  | Next now :: rest =>
      let '(db', r) := get_next_transmission now db in
      let '(db'', rows) := run_queue db' rest in
      (db'', match r with Some row => row :: rows | None => rows end)
  end.

(** Rows in an order that [priority DESC, scheduled_at ASC] allows: no
    row comes after one that the order puts behind it. *)
Fixpoint in_queue_order (rows : list tx_row) : Prop :=
  match rows with
  | [] => True
  | a :: rest => Forall (fun b => before b a = false) rest /\ in_queue_order rest
  end.

(** A queue of four rows, queued at time 100. *)
Definition demo_queue : Database :=
  (run_queue empty
     [Queue 100 Frames.T_MSG [] 1 5; Queue 100 Frames.T_SYNC [] 2 9;
      Queue 100 Frames.T_MSG [] 2 3; Queue 100 Frames.T_REQ [] 3 60]).1.

End Database.

(** ** The orchestrator ([main.py])

    A handler runs at an instant [now] (microseconds, as a [datetime]);
    the store stamps rows with the whole seconds of it.  The random delay
    computed by [AdaptiveTiming] enters as the argument [delay], its whole
    seconds.  [notifications] is the log of the payloads passed to
    [notify_websocket_clients], one entry per broadcast. *)

Module Daemon.
Import Frames Fragmentation Database.

Definition unix (now : Z) : Z := now / 1000000.

Section Hash.

Variable mmh3_hash : str -> Z -> Z.

Context {ucd : Text.UnicodeData}.

Record RFMPDaemon := mkRFMPDaemon {
  database : Database;
  fragmenter : Fragmenter;
  bloom_filter : Bloom.RotatingBloomFilter;
  notifications : list (option message_row)
}.

Definition RFMPDaemon_new (fragment_threshold : Z) (bloom : Bloom.RotatingBloomFilter)
  : RFMPDaemon :=
  mkRFMPDaemon Database.empty (Fragmenter_new fragment_threshold) bloom [].

Definition with_database (self : RFMPDaemon) (db : Database) : RFMPDaemon :=
  mkRFMPDaemon db (fragmenter self) (bloom_filter self) (notifications self).

(** [serialize_message_for_client(stored)] followed by
    [notify_websocket_clients]: the payload is the stored row, or the empty
    dictionary when there is none. *)
Definition notify_websocket_clients (self : RFMPDaemon) (stored : option message_row)
  : RFMPDaemon :=
  mkRFMPDaemon (database self) (fragmenter self) (bloom_filter self)
    (notifications self ++ [stored]).

(** The range check of [AdaptiveTiming.calculate_delay], reached through
    [calculate_rebroadcast_delay]. *)
Definition calculate_rebroadcast_delay (priority delay : Z) : result Z :=
  if (0 <=? priority) && (priority <=? 3) then Ok delay else Raise ValueError.

(** [handle_msg_frame].  The frame is turned into a dictionary twice, for
    [raw_frame] and for the queued [frame_data]. *)
Definition handle_msg_frame (now delay : Z) (self : RFMPDaemon) (frame : MSG)
  : RFMPDaemon * result unit :=
  match mark_seen_if_new (unix now) (database self) (id frame) None with
  | Raise e => (self, Raise e)
  | Ok (db, is_new) =>
  if negb is_new then (self, Ok tt)
  else
  let self := with_database self db in
  match MSG_to_dict frame with
  | Raise e => (self, Raise e)
  | Ok raw_frame =>
  let message_data :=
    mkMessageRow (id frame) (from_node frame) None (timestamp frame)
      (channel frame) (priority frame) (reply_to frame) (body frame)
      (unix now) raw_frame in
  match save_message db message_data with
  | Raise e => (self, Raise e)
  | Ok (db, is_new) =>
  let self := with_database self db in
  if negb is_new then (self, Ok tt)
  else
  match Bloom.rotating_add mmh3_hash now (bloom_filter self) (id frame) with
  | Raise e => (self, Raise e)
  | Ok bloom =>
  let self := mkRFMPDaemon db (fragmenter self) bloom (notifications self) in
  let stored := get_message db (id frame) in
  let self := notify_websocket_clients self stored in
  match is_seen db (id frame) None true with
  | Raise e => (self, Raise e)
  | Ok true => (self, Ok tt)
  | Ok false =>
  match calculate_rebroadcast_delay (priority frame) delay with
  | Raise e => (self, Raise e)
  | Ok delay =>
  match MSG_to_dict frame with
  | Raise e => (self, Raise e)
  | Ok frame_data =>
  match queue_transmission (unix now) db T_MSG frame_data (priority frame) delay with
  | Raise e => (self, Raise e)
  | Ok db =>
  let self := with_database self db in
  match mark_seen (unix now) db (id frame) None true with
  | Raise e => (self, Raise e)
  | Ok db => (with_database self db, Ok tt)
  end end end end end end end end end.

Definition handle_frag_frame (now delay : Z) (self : RFMPDaemon) (frame : FRAG)
  : RFMPDaemon * result unit :=
  match is_seen (database self) (message_id frame) (Some (idx frame)) false with
  | Raise e => (self, Raise e)
  | Ok true => (self, Ok tt)
  | Ok false =>
  match mark_seen (unix now) (database self) (message_id frame)
          (Some (idx frame)) false with
  | Raise e => (self, Raise e)
  | Ok db =>
  let self := with_database self db in
  match save_fragment (unix now) db (message_id frame) (idx frame)
          (total frame) (data frame) with
  | Raise e => (self, Raise e)
  | Ok (db, _) =>
  let '(fragmenter, r) := add_fragment now (fragmenter self) frame in
  let self := mkRFMPDaemon db fragmenter (bloom_filter self) (notifications self) in
  match r with
  | Raise e => (self, Raise e)
  | Ok (_, Some complete_msg) => handle_msg_frame now delay self complete_msg
  | Ok (_, None) => (self, Ok tt)
  end end end end.

(** What [handle_received_frame] does with a decoded frame of either
    kind; an exception of the handler is logged and swallowed there. *)
Definition handle_frame (now delay : Z) (self : RFMPDaemon) (frame : Frame) : RFMPDaemon :=
  match frame with
  | FrameMSG m => (handle_msg_frame now delay self m).1
  | FrameFRAG f => (handle_frag_frame now delay self f).1
  | _ => self
  end.

(** Frames ingested one after the other, each with its instant and its
    random delay. *)
Definition ingest (self : RFMPDaemon) (events : list (Z * Z * Frame)) : RFMPDaemon :=
  fold_left (fun self '(now, delay, frame) => handle_frame now delay self frame)
            events self.

End Hash.


Definition msg_events (frames : list (Z * Z * MSG)) : list (Z * Z * Frame) :=
  map (fun '(now, delay, m) => (now, delay, FrameMSG m)) frames.

Definition frag_events (frames : list (Z * Z * FRAG)) : list (Z * Z * Frame) :=
  map (fun '(now, delay, f) => (now, delay, FrameFRAG f)) frames.

(** The fragments of [Codec.msg_long] at the default threshold, received
    in the order 2, 0, 1. *)
Definition long_fragments : list FRAG :=
  match fragment_message (Fragmenter_new 200) Codec.msg_long with
  | Ok frags => frags
  | Raise _ => []
  end.

Definition fragments_201 : list (Z * Z * FRAG) :=
  match long_fragments with
  | [f0; f1; f2] => [(seconds 1, 2, f2); (seconds 2, 2, f0); (seconds 3, 2, f1)]
  | _ => []
  end.

End Daemon.

(** * Properties *)

(** ** Bytes and searching *)

Lemma ord_range b : 0 <= ord b < 256.
Proof.
  unfold ord. pose proof (Byte.to_N_bounded b). lia.
Qed.

Lemma byte_of_int_ord b : byte_of_int (ord b) = Ok b.
Proof.
  unfold byte_of_int, ord.
  destruct (Z.leb_spec 0 (Z.of_N (Byte.to_N b))); [|lia].
  by rewrite N2Z.id, Byte.of_to_N.
Qed.

Lemma byte_of_int_Ok z b : byte_of_int z = Ok b -> ord b = z.
Proof.
  unfold byte_of_int, ord. destruct (Z.leb_spec 0 z); [|done].
  destruct (Byte.of_N (Z.to_N z)) as [c|] eqn:E; [|done].
  intros [= <-]. apply Byte.to_of_N in E. lia.
Qed.

Lemma find_byte_None x l : find_byte x l = None <-> x ∉ l.
Proof.
  induction l as [|y l IH]; simpl.
  - split; [intros _; apply not_elem_of_nil | done].
  - destruct (decide (y = x)) as [->|Hne].
    + split; [done | intros H; exfalso; apply H; left].
    + rewrite fmap_None, IH, not_elem_of_cons. split; [by intros ?; split|by intros [_ ?]].
Qed.

Lemma find_byte_app_here x l l' :
  x ∉ l -> find_byte x (l ++ x :: l') = Some (length l).
Proof.
  induction l as [|y l IH]; simpl; intros Hnin.
  - by rewrite decide_True.
  - apply not_elem_of_cons in Hnin as [Hne Hnin].
    rewrite decide_False by done. by rewrite IH.
Qed.

Lemma last_snoc_eq {A} (l : list A) (x : A) : last (l ++ [x]) = Some x.
Proof. apply last_snoc. Qed.

(** ** KISS *)

Module KISSFacts.
Import KISS.

Lemma escape_no_FEND content : FEND ∉ escape content.
Proof.
  induction content as [|b rest IH]; simpl.
  - apply not_elem_of_nil.
  - repeat case_decide; rewrite !not_elem_of_cons; repeat split; done.
Qed.

Lemma unescape_escape content : unescape (escape content) = Some content.
Proof.
  induction content as [|b rest IH]; simpl; [done|].
  destruct (decide (b = FEND)) as [->|HnF]; simpl.
  - by rewrite IH.
  - destruct (decide (b = FESC)) as [->|HnE]; simpl.
    + by rewrite IH.
    + rewrite decide_False by done. by rewrite IH.
Qed.

Lemma escape_nonempty b rest : escape (b :: rest) <> [].
Proof. simpl. by repeat case_decide. Qed.

(** The command byte of a data frame on a port between 0 and 15. *)
Lemma cmd_byte_data p :
  0 <= p <= 15 ->
  exists c, byte_of_int (Z.lor (Z.shiftl p 4) (KISSCommand_value DATA_FRAME)) = Ok c
    /\ Z.land (Z.shiftr (ord c) 4) 15 = p
    /\ Z.land (ord c) 15 = 0.
Proof.
  intros Hp.
  assert (Hcases : p = 0 \/ p = 1 \/ p = 2 \/ p = 3 \/ p = 4 \/ p = 5 \/ p = 6
    \/ p = 7 \/ p = 8 \/ p = 9 \/ p = 10 \/ p = 11 \/ p = 12 \/ p = 13
    \/ p = 14 \/ p = 15) by lia.
  repeat (destruct Hcases as [->|Hcases]; [eexists; split; [reflexivity|by vm_compute]|]).
  subst p. eexists; split; [reflexivity|by vm_compute].
Qed.

Lemma decode_delimited body c rest :
  unescape body = Some (c :: rest) ->
  decode ([FEND] ++ body ++ [FEND]) =
    (command <-! KISSCommand_of_value (Z.land (ord c) 15);
     Ok (Some (mkKISSFrame (Z.land (Z.shiftr (ord c) 4) 15) command rest))).
Proof.
  intros Hun. unfold decode. cbn [app].
  rewrite decide_True by done.
  rewrite last_snoc_eq, decide_True by done.
  rewrite removelast_last, Hun.
  destruct body; [discriminate Hun | done].
Qed.

Lemma decode_loop_one fuel garbage body :
  FEND ∉ garbage -> FEND ∉ body ->
  decode_loop (S fuel) (garbage ++ [FEND] ++ body ++ [FEND]) [] =
    match decode ([FEND] ++ body ++ [FEND]) with
    | Raise e => Some ([], Raise e)
    | Ok frame =>
        Some ([], Ok match frame with
                     | Some f => if decide (command f = DATA_FRAME) then [f] else []
                     | None => []
                     end)
    end.
Proof.
  intros Hg Hb.
  set (frame := [FEND] ++ body ++ [FEND]).
  assert (Hfind : find_byte FEND (garbage ++ frame) = Some (length garbage))
    by (by apply find_byte_app_here).
  assert (Hnext : find_byte_from FEND (garbage ++ frame) (length garbage + 1)
                  = Some (length garbage + 1 + length body)%nat).
  { unfold find_byte_from, frame.
    rewrite (app_assoc garbage [FEND]), drop_app_length'
      by (rewrite length_app; simpl; lia).
    by rewrite (find_byte_app_here FEND body []). }
  assert (Hslice : slice (garbage ++ frame) (length garbage)
                     (length garbage + 1 + length body + 1) = frame).
  { unfold slice. rewrite drop_app_length.
    apply take_ge. unfold frame. rewrite !length_app. simpl. lia. }
  assert (Hrest : drop (length garbage + 1 + length body + 1) (garbage ++ frame) = []).
  { apply drop_ge. unfold frame. rewrite !length_app. simpl. lia. }
  cbn [decode_loop]. rewrite Hfind, Hnext, Hslice, Hrest.
  destruct (decode frame) as [fr|e]; [|done].
  by destruct fuel.
Qed.

(** C7.  A data frame produced by [encode_data] on any port 0..15, fed to a
    decoder whose buffer holds no frame delimiter, decodes to exactly one
    frame whose payload is the original byte string, and leaves the buffer
    empty; the one-shot [KISSFrame.decode] gives the same frame. *)
Theorem kiss_roundtrip (p : Z) (pending b : list byte) :
  0 <= p <= 15 ->
  FEND ∉ pending ->
  exists enc,
    encode_data (new p) b = Ok enc
    /\ decode enc = Ok (Some (mkKISSFrame p DATA_FRAME b))
    /\ decode_frames (mkKISSProtocol p pending) enc
       = Some (new p, Ok [mkKISSFrame p DATA_FRAME b]).
Proof.
  intros Hp Hpend.
  destruct (cmd_byte_data p Hp) as (c & Hc & Hport & Hcmd).
  exists ([FEND] ++ escape (c :: b) ++ [FEND]).
  assert (Hdec : decode ([FEND] ++ escape (c :: b) ++ [FEND])
                 = Ok (Some (mkKISSFrame p DATA_FRAME b))).
  { rewrite (decode_delimited _ c b (unescape_escape (c :: b))), Hcmd, Hport. done. }
  split; [|split].
  - unfold encode_data, encode. simpl port. simpl command. simpl data.
    by rewrite Hc.
  - exact Hdec.
  - unfold decode_frames. simpl buffer. simpl kp_port.
    destruct (length (pending ++ [FEND] ++ escape (c :: b) ++ [FEND])) as [|n] eqn:Hlen.
    { rewrite !length_app in Hlen. change (length [FEND]) with 1%nat in Hlen. lia. }
    rewrite decode_loop_one by (done || apply escape_no_FEND).
    rewrite Hdec. done.
Qed.

Lemma kiss_roundtrip_witness :
  exists enc,
    encode_data (new 12) [FEND; FESC; Byte.x41] = Ok enc
    /\ decode enc = Ok (Some (mkKISSFrame 12 DATA_FRAME [FEND; FESC; Byte.x41]))
    /\ decode_frames (mkKISSProtocol 12 [Byte.x01]) enc
       = Some (new 12, Ok [mkKISSFrame 12 DATA_FRAME [FEND; FESC; Byte.x41]]).
Proof.
  apply (kiss_roundtrip 12 [Byte.x01] [FEND; FESC; Byte.x41]).
  - lia.
  - by intros [Hx|Hx%elem_of_nil]%elem_of_cons.
Defined.

(** The length of the buffer is enough fuel: the loop always terminates
    with an outcome. *)
Lemma decode_loop_fuel fuel buf frames :
  (length buf <= fuel)%nat -> is_Some (decode_loop fuel buf frames).
Proof.
  revert buf frames. induction fuel as [|fuel IH]; intros buf frames Hlen.
  - destruct buf; [|simpl in Hlen; lia]. by eexists.
  - cbn [decode_loop].
    destruct (find_byte FEND buf) as [start_idx|] eqn:Hs; [|by eexists].
    destruct (find_byte_from FEND buf (start_idx + 1)) as [end_idx|]; [|by eexists].
    destruct (decode _); [|by eexists].
    apply IH. rewrite length_drop.
    destruct buf; [discriminate Hs|]. simpl in Hlen. simpl. lia.
Qed.

Lemma decode_frames_terminates self data : is_Some (decode_frames self data).
Proof.
  unfold decode_frames.
  destruct (decode_loop_fuel (length (buffer self ++ data)) (buffer self ++ data) [])
    as [[buf r] Hr]; [lia|].
  rewrite Hr. by eexists.
Qed.

(** C8.  A delimited frame whose command nibble is 7 is not dropped:
    [KISSCommand(7)] raises [ValueError] inside [KISSFrame.decode], nothing
    in [decode_frames] catches it, and the call ends with that exception
    (after the frame has been removed from the buffer). *)
Theorem decode_frames_raises_on_unknown_command :
  decode [FEND; Byte.x07; FEND] = Raise ValueError
  /\ decode_frames (new 0) [FEND; Byte.x07; FEND] = Some (new 0, Raise ValueError).
Proof. split; reflexivity. Qed.

End KISSFacts.
(** ** Text *)

Module TextFacts.
Import Text.

Lemma split_no_sep c s : c ∉ s -> split c s = [s].
Proof.
  induction s as [|b r IH]; simpl; [done|].
  intros [Hne Hr]%not_elem_of_cons.
  rewrite decide_False by done. by rewrite IH.
Qed.

Lemma split_app_sep c p rest :
  c ∉ p -> split c (p ++ c :: rest) = p :: split c rest.
Proof.
  induction p as [|b r IH]; simpl.
  - intros _. by rewrite decide_True.
  - intros [Hne Hr]%not_elem_of_cons.
    rewrite decide_False by done. by rewrite IH.
Qed.

Lemma split_join c parts :
  parts <> [] -> Forall (fun p => c ∉ p) parts ->
  split c (join [c] parts) = parts.
Proof.
  induction parts as [|p rest IH]; [done|].
  intros _ Hall. apply Forall_cons in Hall as [Hp Hrest].
  destruct rest as [|q rest].
  - simpl. by apply split_no_sep.
  - change (join [c] (p :: q :: rest)) with (p ++ c :: join [c] (q :: rest)).
    rewrite split_app_sep by done. by rewrite IH.
Qed.

Lemma split1_app c k v : c ∉ k -> split1 c (k ++ c :: v) = (k, v).
Proof.
  induction k as [|b r IH]; simpl.
  - intros _. by rewrite decide_True.
  - intros [Hne Hr]%not_elem_of_cons.
    rewrite decide_False by done. by rewrite IH.
Qed.

Lemma contains_app c k v : contains c (k ++ c :: v) = true.
Proof.
  unfold contains. apply bool_decide_eq_true.
  apply elem_of_app. right. left.
Qed.

(** *** UTF-8 *)

Lemma utf8_valid_app a b :
  utf8_valid a = true -> utf8_valid b = true -> utf8_valid (a ++ b) = true.
Proof.
  intros Ha Hb. remember (length a) as n eqn:Hn.
  revert a Hn Ha. induction n as [n IH] using lt_wf_ind.
  intros a Hn Ha.
  destruct a as [|b0 r0]; [done|].
  cbn [utf8_valid app] in *.
  destruct (ord b0 <? 128).
  { apply (IH (length r0)); [simpl in Hn; lia|done|done]. }
  destruct r0 as [|b1 r1]; [done|]. cbn [app] in *.
  destruct (in_range 194 223 b0).
  { apply andb_true_iff in Ha as [H1 H2]. rewrite H1. cbn.
    apply (IH (length r1)); [simpl in Hn; lia|done|done]. }
  destruct r1 as [|b2 r2]; [done|]. cbn [app] in *.
  destruct (in_range 224 239 b0).
  { apply andb_true_iff in Ha as [H1 H2]. rewrite H1. cbn.
    apply (IH (length r2)); [simpl in Hn; lia|done|done]. }
  destruct r2 as [|b3 r3]; [done|]. cbn [app] in *.
  destruct (in_range 240 244 b0); [|done].
  apply andb_true_iff in Ha as [H1 H2]. rewrite H1. cbn.
  apply (IH (length r3)); [simpl in Hn; lia|done|done].
Qed.

Lemma utf8_valid_ascii s : isascii s = true -> utf8_valid s = true.
Proof.
  induction s as [|b r IH]; [done|]. cbn [isascii forallb utf8_valid].
  intros [Hb Hr]%andb_true_iff. rewrite Hb. by apply IH.
Qed.

Lemma isascii_app a b : isascii (a ++ b) = isascii a && isascii b.
Proof. unfold isascii. apply forallb_app. Qed.

Lemma utf8_valid_join sep parts :
  utf8_valid sep = true -> Forall (fun p => utf8_valid p = true) parts ->
  utf8_valid (join sep parts) = true.
Proof.
  intros Hsep. induction parts as [|p rest IH]; [done|].
  intros [Hp Hrest]%Forall_cons. destruct rest as [|q rest]; [done|].
  change (join sep (p :: q :: rest)) with (p ++ sep ++ join sep (q :: rest)).
  apply utf8_valid_app; [done|]. apply utf8_valid_app; [done|]. by apply IH.
Qed.

(** *** Decimal numerals *)

Definition is_digit (b : byte) : Prop := in_range 48 57 b = true.

Lemma digit_val_char d : 0 <= d <= 9 -> digit_val (digit_char d) = Some d.
Proof.
  intros Hd.
  assert (Hc : d = 0 \/ d = 1 \/ d = 2 \/ d = 3 \/ d = 4 \/ d = 5 \/ d = 6
               \/ d = 7 \/ d = 8 \/ d = 9) by lia.
  repeat (destruct Hc as [->|Hc]; [reflexivity|]). by subst.
Qed.

Lemma digit_char_is_digit d : is_digit (digit_char d).
Proof.
  unfold is_digit, digit_char.
  repeat (match goal with |- context [match ?x with _ => _ end] => destruct x end;
          try reflexivity).
Qed.

Lemma digits_range fuel n : 0 <= n -> Forall (fun d => 0 <= d <= 9) (digits fuel n).
Proof.
  revert n. induction fuel as [|fuel IH]; intros n Hn; simpl; [constructor|].
  destruct (Z.ltb_spec n 10).
  - repeat constructor; lia.
  - apply Forall_app. split.
    + apply IH. apply Z.div_pos; lia.
    + repeat constructor; pose proof (Z.mod_pos_bound n 10); lia.
Qed.

Lemma digits_nonempty fuel n : digits (S fuel) n <> [].
Proof.
  simpl. destruct (n <? 10); [done|]. by destruct (digits fuel (n / 10)).
Qed.

Definition value_of (ds : list Z) (acc : Z) : Z :=
  fold_left (fun a d => a * 10 + d) ds acc.

Lemma digits_value fuel n :
  0 <= n < 2 ^ Z.of_nat fuel -> value_of (digits fuel n) 0 = n.
Proof.
  revert n. induction fuel as [|fuel IH]; intros n Hn.
  - simpl in *. lia.
  - cbn [digits]. destruct (Z.ltb_spec n 10).
    + simpl. lia.
    + unfold value_of. rewrite fold_left_app. fold (value_of (digits fuel (n / 10)) 0).
      rewrite IH.
      * simpl. pose proof (Z.div_mod n 10). lia.
      * rewrite Nat2Z.inj_succ, Z.pow_succ_r in Hn by lia.
        split; [apply Z.div_pos; lia|].
        apply Z.div_lt_upper_bound; lia.
Qed.

Lemma digits_fuel_enough n : 0 <= n -> n < 2 ^ Z.of_nat (digits_fuel n).
Proof.
  intros Hn. unfold digits_fuel.
  rewrite Nat2Z.inj_succ, Z2Nat.id by apply Z.log2_nonneg.
  destruct (Z.eq_dec n 0) as [->|Hne]; [done|].
  apply Z.log2_spec. lia.
Qed.

Lemma parse_digits_chars ds acc prev :
  Forall (fun d => 0 <= d <= 9) ds -> (ds <> [] \/ prev = true) ->
  parse_digits (map digit_char ds) acc prev = Some (value_of ds acc).
Proof.
  revert acc prev. induction ds as [|d ds IH]; intros acc prev Hall Hne.
  - destruct Hne as [?| ->]; done.
  - apply Forall_cons in Hall as [Hd Hall]. cbn [map parse_digits].
    rewrite digit_val_char by done. apply IH; auto.
Qed.

Lemma digit_not_space b : is_digit b -> is_space b = false.
Proof.
  unfold is_digit, is_space, in_range. pose proof (ord_range b). lia.
Qed.

Lemma lstrip_id b r : is_space b = false -> lstrip (b :: r) = b :: r.
Proof. intros H. simpl. by rewrite H. Qed.

Lemma strip_id s b e :
  head s = Some b -> last s = Some e ->
  is_space b = false -> is_space e = false -> strip s = s.
Proof.
  intros Hh Hl Hb He. unfold strip.
  destruct s as [|b' r]; [done|]. simpl in Hh. injection Hh as ->.
  rewrite lstrip_id by done.
  destruct (reverse (b :: r)) as [|e' r'] eqn:Hrev.
  { apply (f_equal length) in Hrev. rewrite length_reverse in Hrev. done. }
  assert (e' = e) as ->.
  { apply (f_equal head) in Hrev. rewrite head_reverse, Hl in Hrev. simpl in Hrev. congruence. }
  rewrite lstrip_id by done. rewrite <- Hrev. apply reverse_involutive.
Qed.

Lemma last_map_digit ds e : last (map digit_char ds) = Some e -> is_digit e.
Proof.
  induction ds as [|d [|d' ds] IH]; [done| |].
  - intros [= <-]. apply digit_char_is_digit.
  - intros H. apply IH. exact H.
Qed.

Lemma digits_str_strip ds :
  ds <> [] -> strip (map digit_char ds) = map digit_char ds.
Proof.
  intros Hne.
  destruct ds as [|d ds]; [done|].
  destruct (last (map digit_char (d :: ds))) as [e|] eqn:Hl.
  2:{ apply last_None in Hl. done. }
  apply (strip_id _ (digit_char d) e); [done|done| |].
  - apply digit_not_space, digit_char_is_digit.
  - eapply digit_not_space, last_map_digit, Hl.
Qed.

Lemma int_of_ascii_decimal n :
  count_digits (decimal n) <= MAX_STR_DIGITS -> int_of_ascii (decimal n) = Ok n.
Proof.
  unfold decimal. destruct (Z.ltb_spec n 0) as [Hneg|Hpos]; intros Hcount.
  - unfold int_of_ascii.
    pose proof (digits_nonempty (Z.to_nat (Z.log2 (- n))) (- n)) as Hne.
    fold (digits_fuel (- n)) in Hne.
    assert (Hs : strip ("-"%byte :: map digit_char (digits (digits_fuel (- n)) (- n)))
                 = "-"%byte :: map digit_char (digits (digits_fuel (- n)) (- n))).
    { destruct (last (map digit_char (digits (digits_fuel (- n)) (- n)))) as [e|] eqn:Hl.
      2:{ apply last_None in Hl. by destruct (digits (digits_fuel (- n)) (- n)). }
      apply (strip_id _ "-"%byte e); [done| |done|].
      - destruct (map digit_char (digits (digits_fuel (- n)) (- n))); [done|]. exact Hl.
      - eapply digit_not_space, last_map_digit, Hl. }
    rewrite Hs. rewrite decide_True by done.
    rewrite parse_digits_chars; [|apply digits_range; lia|by left].
    rewrite digits_value by (split; [lia|apply digits_fuel_enough; lia]).
    unfold count_digits in *. rewrite filter_cons_False in Hcount by done.
    destruct (Z.ltb_spec MAX_STR_DIGITS
                (Z.of_nat (length (filter (fun b => in_range 48 57 b = true)
                   (map digit_char (digits (digits_fuel (- n)) (- n))))))); [lia|].
    f_equal. lia.
  - unfold int_of_ascii.
    pose proof (digits_nonempty (Z.to_nat (Z.log2 n)) n) as Hne.
    fold (digits_fuel n) in Hne.
    rewrite digits_str_strip by done.
    destruct (map digit_char (digits (digits_fuel n) n)) as [|b r] eqn:Hd.
    { by destruct (digits (digits_fuel n) n). }
    assert (Hb : is_digit b).
    { destruct (digits (digits_fuel n) n) as [|d ds]; [done|].
      injection Hd as <- _. apply digit_char_is_digit. }
    rewrite decide_False by (intros ->; done).
    rewrite decide_False by (intros ->; done).
    destruct (Z.ltb_spec MAX_STR_DIGITS (count_digits (b :: r))); [lia|].
    rewrite <- Hd.
    rewrite parse_digits_chars; [|apply digits_range; lia|by left].
    by rewrite digits_value by (split; [lia|apply digits_fuel_enough; lia]).
Qed.

(** The characters of the numeral: a minus sign or digits. *)
Lemma decimal_chars n :
  Forall (fun b => b = "-"%byte \/ is_digit b) (decimal n).
Proof.
  unfold decimal. destruct (n <? 0).
  - constructor; [by left|]. apply Forall_fmap, Forall_forall. intros d _. right.
    apply digit_char_is_digit.
  - apply Forall_fmap, Forall_forall. intros d _. right. apply digit_char_is_digit.
Qed.

Lemma decimal_nonempty n : decimal n <> [].
Proof.
  unfold decimal. destruct (n <? 0); [done|].
  pose proof (digits_nonempty (Z.to_nat (Z.log2 n)) n) as Hne.
  fold (digits_fuel n) in Hne. by destruct (digits (digits_fuel n) n).
Qed.

Lemma decimal_not_in n c :
  c <> "-"%byte -> in_range 48 57 c = false -> c ∉ decimal n.
Proof.
  intros Hc Hr Hin.
  pose proof (decimal_chars n) as Hall.
  rewrite Forall_forall in Hall. destruct (Hall c Hin) as [?|Hd]; [done|].
  unfold is_digit in Hd. congruence.
Qed.

Lemma decimal_ascii n : isascii (decimal n) = true.
Proof.
  unfold isascii. apply forallb_forall. intros b Hb%list_elem_of_In.
  pose proof (decimal_chars n) as Hall.
  rewrite Forall_forall in Hall. destruct (Hall b Hb) as [->|Hd]; [done|].
  unfold is_digit, in_range in Hd. lia.
Qed.

(** *** The limit on the number of digits *)

Lemma count_digits_map ds : count_digits (map digit_char ds) = Z.of_nat (length ds).
Proof.
  unfold count_digits. f_equal.
  induction ds as [|d ds IH]; [done|]. cbn [map].
  rewrite filter_cons_True by apply digit_char_is_digit. cbn [length]. by rewrite IH.
Qed.

Lemma count_digits_decimal n :
  count_digits (decimal n)
  = Z.of_nat (length (digits (digits_fuel (Z.abs n)) (Z.abs n))).
Proof.
  unfold decimal. destruct (Z.ltb_spec n 0).
  - unfold count_digits. rewrite filter_cons_False by done.
    fold (count_digits (map digit_char (digits (digits_fuel (- n)) (- n)))).
    rewrite count_digits_map. by rewrite Z.abs_neq by lia.
  - rewrite count_digits_map. by rewrite Z.abs_eq by lia.
Qed.

Lemma digits_length fuel : forall n k,
  0 <= n < 2 ^ Z.of_nat fuel -> (1 <= k)%nat ->
  (length (digits fuel n) <= k)%nat <-> n < 10 ^ Z.of_nat k.
Proof.
  induction fuel as [|fuel IH]; intros n k Hn Hk.
  - cbn in Hn. assert (n = 0) as -> by lia. cbn [digits length].
    split; [intros _; apply Z.pow_pos_nonneg; lia|lia].
  - cbn [digits]. destruct (Z.ltb_spec n 10) as [Hlt|Hge].
    + cbn [length]. split; [intros _|lia].
      apply Z.lt_le_trans with (10 ^ 1); [lia|].
      apply Z.pow_le_mono_r; lia.
    + rewrite length_app. cbn [length].
      rewrite Nat2Z.inj_succ, Z.pow_succ_r in Hn by lia.
      destruct k as [|[|k]]; [lia| |].
      * split; [|cbn; lia].
        assert (digits fuel (n / 10) <> []).
        { destruct fuel; [cbn in Hn; lia|apply digits_nonempty]. }
        destruct (digits fuel (n / 10)); [done|cbn [length]; lia].
      * specialize (IH (n / 10) (S k)).
        assert (Hn' : 0 <= n / 10 < 2 ^ Z.of_nat fuel).
        { split; [apply Z.div_pos; lia|apply Z.div_lt_upper_bound; lia]. }
        specialize (IH Hn' ltac:(lia)).
        replace (Z.of_nat (S (S k))) with (Z.succ (Z.of_nat (S k))) by lia.
        rewrite Z.pow_succ_r by lia.
        split.
        -- intros Hlen. assert (Hq : n / 10 < 10 ^ Z.of_nat (S k)) by (apply IH; lia).
           pose proof (Z.div_mod n 10 ltac:(lia)). pose proof (Z.mod_pos_bound n 10 ltac:(lia)).
           lia.
        -- intros Hlt. assert (Hq : n / 10 < 10 ^ Z.of_nat (S k)).
           { apply Z.div_lt_upper_bound; lia. }
           apply IH in Hq. lia.
Qed.

(** [str(n)] returns the numeral exactly when it has at most 4300 digits. *)
Lemma str_of_int_Ok n :
  Z.abs n < 10 ^ MAX_STR_DIGITS -> str_of_int n = Ok (decimal n).
Proof.
  intros Hn. unfold str_of_int. rewrite count_digits_decimal.
  destruct (Z.ltb_spec MAX_STR_DIGITS
              (Z.of_nat (length (digits (digits_fuel (Z.abs n)) (Z.abs n))))) as [Hlt|]; [|done].
  exfalso.
  assert (Hlen : (length (digits (digits_fuel (Z.abs n)) (Z.abs n)) <= 4300)%nat).
  { apply digits_length; [|lia|exact Hn].
    split; [lia|apply digits_fuel_enough; lia]. }
  unfold MAX_STR_DIGITS in Hlt. lia.
Qed.

Lemma str_of_int_Raise n :
  10 ^ MAX_STR_DIGITS <= Z.abs n -> str_of_int n = Raise ValueError.
Proof.
  intros Hn. unfold str_of_int. rewrite count_digits_decimal.
  destruct (Z.ltb_spec MAX_STR_DIGITS
              (Z.of_nat (length (digits (digits_fuel (Z.abs n)) (Z.abs n))))) as [|Hle]; [done|].
  exfalso.
  assert (Hlt : Z.abs n < 10 ^ Z.of_nat 4300).
  { apply (digits_length (digits_fuel (Z.abs n))); [|lia|unfold MAX_STR_DIGITS in Hle; lia].
    split; [lia|apply digits_fuel_enough; lia]. }
  unfold MAX_STR_DIGITS in Hn. lia.
Qed.

Lemma str_of_int_inv n s : str_of_int n = Ok s -> s = decimal n /\ Z.abs n < 10 ^ MAX_STR_DIGITS.
Proof.
  intros Hs. destruct (Z.lt_ge_cases (Z.abs n) (10 ^ MAX_STR_DIGITS)) as [Hlt|Hge].
  - rewrite str_of_int_Ok in Hs by done. by injection Hs as <-.
  - rewrite str_of_int_Raise in Hs by done. done.
Qed.

Lemma small_fits n : -1000000 < n < 1000000 -> Z.abs n < 10 ^ MAX_STR_DIGITS.
Proof.
  intros Hn. apply Z.lt_le_trans with (10 ^ 6); [lia|].
  apply Z.pow_le_mono_r; [lia|]. unfold MAX_STR_DIGITS. lia.
Qed.

Lemma str_of_int_small n : -1000000 < n < 1000000 -> str_of_int n = Ok (decimal n).
Proof. intros Hn. by apply str_of_int_Ok, small_fits. Qed.

Section Unicode.

Context {ucd : UnicodeData}.

(** [int(str(n)) == n] *)
Lemma int_of_str_of_int n s : str_of_int n = Ok s -> int_of_str s = Ok n.
Proof.
  unfold str_of_int.
  destruct (Z.ltb_spec MAX_STR_DIGITS (count_digits (decimal n))); [done|].
  intros [= <-]. unfold int_of_str. rewrite decimal_ascii.
  by apply int_of_ascii_decimal.
Qed.

Lemma int_of_str_decimal n :
  Z.abs n < 10 ^ MAX_STR_DIGITS -> int_of_str (decimal n) = Ok n.
Proof. intros Hn. apply int_of_str_of_int. by apply str_of_int_Ok. Qed.

(** [int(s)] only ever raises [ValueError]. *)
Lemma int_of_str_Raise s e : int_of_str s = Raise e -> e = ValueError.
Proof.
  unfold int_of_str, int_of_ascii.
  destruct (strip _) as [|b r]; [by intros [= <-]|].
  destruct (decide (b = "-"%byte)); [|destruct (decide (b = "+"%byte))];
    (destruct (parse_digits _ _ _); [destruct (_ <? _)|]); by intros [= <-].
Qed.

End Unicode.

End TextFacts.

(** ** Base64 *)

Module Base64Facts.
Import Text Base64.

Definition all_bytes : list byte := omap Byte.of_nat (seq 0 256).

Lemma elem_of_all_bytes b : b ∈ all_bytes.
Proof.
  apply list_elem_of_omap. exists (Byte.to_nat b). split.
  - apply elem_of_seq. pose proof (Byte.to_nat_bounded b). lia.
  - apply Byte.of_to_nat.
Qed.

Lemma forall_bytes (P : byte -> bool) :
  forallb P all_bytes = true -> forall b, P b = true.
Proof.
  intros H b. rewrite forallb_forall in H. apply H, list_elem_of_In, elem_of_all_bytes.
Qed.

Lemma forall_bytes2 (P : byte -> byte -> bool) :
  forallb (fun a => forallb (P a) all_bytes) all_bytes = true ->
  forall a b, P a b = true.
Proof.
  intros H a b. apply forall_bytes. by apply (forall_bytes (fun a => forallb (P a) all_bytes)).
Qed.

Lemma decide_bytes (P : byte -> Prop) `{!forall a, Decision (P a)} :
  forallb (fun a => bool_decide (P a)) all_bytes = true -> forall a, P a.
Proof.
  intros Hall a. apply (bool_decide_eq_true_1 (P a)).
  exact (forall_bytes (fun a => bool_decide (P a)) Hall a).
Qed.

Lemma decide_bytes2 (P : byte -> byte -> Prop) `{!forall a b, Decision (P a b)} :
  forallb (fun a => forallb (fun b => bool_decide (P a b)) all_bytes) all_bytes = true ->
  forall a b, P a b.
Proof.
  intros Hall a b. apply (bool_decide_eq_true_1 (P a b)).
  exact (forall_bytes2 (fun a b => bool_decide (P a b)) Hall a b).
Qed.

Ltac by_bytes :=
  match goal with
  | |- forall a : byte, @?P a => unshelve eapply (decide_bytes P);
      first [solve [intros; cbv beta; apply _] | (vm_compute; reflexivity)]
  end.
Ltac by_bytes2 :=
  match goal with
  | |- forall a b : byte, @?P a b => unshelve eapply (decide_bytes2 P);
      first [solve [intros; cbv beta; apply _] | (vm_compute; reflexivity)]
  end.

(** The sextets of a group of three bytes, and of a final group of one or
    two. *)
Definition s1 (a : byte) : Z := Z.shiftr (ord a) 2.
Definition s2 (a b : byte) : Z := Z.lor (Z.shiftl (Z.land (ord a) 3) 4) (Z.shiftr (ord b) 4).
Definition s3 (b c : byte) : Z := Z.lor (Z.shiftl (Z.land (ord b) 15) 2) (Z.shiftr (ord c) 6).
Definition s4 (c : byte) : Z := Z.land (ord c) 63.
Definition s2' (a : byte) : Z := Z.shiftl (Z.land (ord a) 3) 4.
Definition s3' (b : byte) : Z := Z.shiftl (Z.land (ord b) 15) 2.

(** What the proofs need of the character of a sextet. *)
Definition sextet_ok (v : Z) : bool :=
  bool_decide (a2b (b2a v) = Some v) && bool_decide (b2a v <> PAD)
  && (ord (b2a v) <? 128) && bool_decide (b2a v <> "|"%byte).

Lemma s1_ok : forall a, sextet_ok (s1 a) = true.
Proof. by_bytes. Qed.
Lemma s2_ok : forall a b, sextet_ok (s2 a b) = true.
Proof. by_bytes2. Qed.
Lemma s3_ok : forall b c, sextet_ok (s3 b c) = true.
Proof. by_bytes2. Qed.
Lemma s4_ok : forall c, sextet_ok (s4 c) = true.
Proof. by_bytes. Qed.
Lemma s2'_ok : forall a, sextet_ok (s2' a) = true.
Proof. by_bytes. Qed.
Lemma s3'_ok : forall b, sextet_ok (s3' b) = true.
Proof. by_bytes. Qed.

Lemma byte1 a b : to_byte (Z.lor (Z.shiftl (s1 a) 2) (Z.shiftr (s2 a b) 4)) = a.
Proof. revert a b. by_bytes2. Qed.
Lemma byte1' a : to_byte (Z.lor (Z.shiftl (s1 a) 2) (Z.shiftr (s2' a) 4)) = a.
Proof. revert a. by_bytes. Qed.
Lemma byte2 a b c :
  to_byte (Z.lor (Z.shiftl (Z.land (s2 a b) 15) 4) (Z.shiftr (s3 b c) 2)) = b.
Proof.
  assert (H1 : Z.land (s2 a b) 15 = Z.shiftr (ord b) 4).
  { revert a b. by_bytes2. }
  rewrite H1. clear H1. revert b c. by_bytes2.
Qed.
Lemma byte2' a b :
  to_byte (Z.lor (Z.shiftl (Z.land (s2 a b) 15) 4) (Z.shiftr (s3' b) 2)) = b.
Proof. revert a b. by_bytes2. Qed.
Lemma byte3 b c :
  to_byte (Z.lor (Z.shiftl (Z.land (s3 b c) 3) 6) (s4 c)) = c.
Proof. revert b c. by_bytes2. Qed.

(** One decoding step on the character of a sextet. *)
Lemma a2b_loop_sextet v rest quad_pos leftchar pads :
  sextet_ok v = true ->
  a2b_loop (b2a v :: rest) quad_pos leftchar pads =
    if quad_pos =? 0 then a2b_loop rest 1 v 0
    else if quad_pos =? 1 then
      out <-! a2b_loop rest 2 (Z.land v 15) 0;
      Ok (to_byte (Z.lor (Z.shiftl leftchar 2) (Z.shiftr v 4)) :: out)
    else if quad_pos =? 2 then
      out <-! a2b_loop rest 3 (Z.land v 3) 0;
      Ok (to_byte (Z.lor (Z.shiftl leftchar 4) (Z.shiftr v 2)) :: out)
    else
      out <-! a2b_loop rest 0 0 0;
      Ok (to_byte (Z.lor (Z.shiftl leftchar 6) v) :: out).
Proof.
  unfold sextet_ok. rewrite !andb_true_iff, !bool_decide_eq_true.
  intros [[[Ha Hp] _] _]. cbn [a2b_loop].
  rewrite decide_False by done. by rewrite Ha.
Qed.

Lemma a2b_loop_encode data leftchar pads :
  a2b_loop (b64encode data) 0 leftchar pads = Ok data.
Proof.
  remember (length data) as n eqn:Hn. revert data leftchar pads Hn.
  induction n as [n IH] using lt_wf_ind. intros data leftchar pads Hn.
  destruct data as [|a [|b [|c rest]]].
  - done.
  - cbn [b64encode]. fold (s1 a). fold (s2' a).
    rewrite (a2b_loop_sextet (s1 a)) by apply s1_ok. cbn [Z.eqb].
    rewrite (a2b_loop_sextet (s2' a)) by apply s2'_ok. cbn [Z.eqb Pos.eqb].
    cbn [a2b_loop]. rewrite !decide_True by done. cbn. by rewrite byte1'.
  - cbn [b64encode]. fold (s1 a). fold (s2 a b). fold (s3' b).
    rewrite (a2b_loop_sextet (s1 a)) by apply s1_ok. cbn [Z.eqb].
    rewrite (a2b_loop_sextet (s2 a b)) by apply s2_ok. cbn [Z.eqb Pos.eqb].
    rewrite (a2b_loop_sextet (s3' b)) by apply s3'_ok. cbn [Z.eqb Pos.eqb].
    cbn [a2b_loop]. rewrite !decide_True by done. cbn. by rewrite byte1, byte2'.
  - cbn [b64encode]. fold (s1 a). fold (s2 a b). fold (s3 b c). fold (s4 c).
    cbn [app].
    rewrite (a2b_loop_sextet (s1 a)) by apply s1_ok. cbn [Z.eqb].
    rewrite (a2b_loop_sextet (s2 a b)) by apply s2_ok. cbn [Z.eqb Pos.eqb].
    rewrite (a2b_loop_sextet (s3 b c)) by apply s3_ok. cbn [Z.eqb Pos.eqb].
    rewrite (a2b_loop_sextet (s4 c)) by apply s4_ok. cbn [Z.eqb Pos.eqb].
    rewrite (IH (length rest)) by (simpl in Hn; lia || done).
    cbn. by rewrite byte1, byte2, byte3.
Qed.

(** The characters of an encoding: ASCII, and never the field separator. *)
Lemma b64encode_chars data :
  Forall (fun ch => ord ch < 128 /\ ch <> "|"%byte) (b64encode data).
Proof.
  assert (Hs : forall v, sextet_ok v = true -> ord (b2a v) < 128 /\ b2a v <> "|"%byte).
  { intros v. unfold sextet_ok. rewrite !andb_true_iff, !bool_decide_eq_true, Z.ltb_lt. tauto. }
  remember (length data) as n eqn:Hn. revert data Hn.
  induction n as [n IH] using lt_wf_ind. intros data Hn.
  destruct data as [|a [|b [|c rest]]].
  - constructor.
  - cbn [b64encode]. repeat constructor; try done.
    + apply (Hs (s1 a)), s1_ok. + apply (Hs (s1 a)), s1_ok.
    + apply (Hs (s2' a)), s2'_ok. + apply (Hs (s2' a)), s2'_ok.
  - cbn [b64encode]. repeat constructor; try done.
    + apply (Hs (s1 a)), s1_ok. + apply (Hs (s1 a)), s1_ok.
    + apply (Hs (s2 a b)), s2_ok. + apply (Hs (s2 a b)), s2_ok.
    + apply (Hs (s3' b)), s3'_ok. + apply (Hs (s3' b)), s3'_ok.
  - cbn [b64encode app]. repeat apply Forall_cons_2.
    + apply (Hs (s1 a)), s1_ok.
    + apply (Hs (s2 a b)), s2_ok.
    + apply (Hs (s3 b c)), s3_ok.
    + apply (Hs (s4 c)), s4_ok.
    + apply (IH (length rest)); [simpl in Hn; lia|done].
Qed.

Lemma b64encode_ascii data : isascii (b64encode data) = true.
Proof.
  unfold isascii. apply forallb_forall. intros ch Hin%list_elem_of_In.
  pose proof (b64encode_chars data) as Hall. rewrite Forall_forall in Hall.
  apply Z.ltb_lt, Hall, Hin.
Qed.

Lemma b64encode_no_pipe data : "|"%byte ∉ b64encode data.
Proof.
  intros Hin. pose proof (b64encode_chars data) as Hall.
  rewrite Forall_forall in Hall. by destruct (Hall _ Hin).
Qed.

Lemma b64decode_encode data : b64decode (b64encode data) = Ok data.
Proof.
  unfold b64decode. rewrite b64encode_ascii. apply a2b_loop_encode.
Qed.

End Base64Facts.

(** ** The wire codec *)

Module CodecFacts.
Import Text Base64 Frames FrameParser Codec TextFacts Base64Facts.

Ltac decide_closed :=
  match goal with
  | |- ?P => apply (bool_decide_eq_true_1 P); vm_compute; reflexivity
  end.

Lemma wire_ok_app a b : wire_ok a -> wire_ok b -> wire_ok (a ++ b).
Proof.
  intros [Ha Hna] [Hb Hnb]. split; [by apply utf8_valid_app|].
  rewrite elem_of_app. tauto.
Qed.

Lemma wire_ok_ascii s : isascii s = true -> PIPE ∉ s -> wire_ok s.
Proof. intros Ha Hn. split; [by apply utf8_valid_ascii|done]. Qed.

Lemma wire_ok_int n : wire_ok (decimal n).
Proof.
  apply wire_ok_ascii; [apply decimal_ascii|].
  by apply decimal_not_in.
Qed.

Lemma wire_ok_b64 data : wire_ok (b64encode data).
Proof. apply wire_ok_ascii; [apply b64encode_ascii|apply b64encode_no_pipe]. Qed.

Lemma wire_ok_ints l : wire_ok (join (u ",") (map decimal l)).
Proof.
  induction l as [|i [|j l] IH].
  - split; [done|apply not_elem_of_nil].
  - apply wire_ok_int.
  - change (wire_ok (decimal i ++ u "," ++ join (u ",") (map decimal (j :: l)))).
    apply wire_ok_app; [apply wire_ok_int|]. apply wire_ok_app; [|exact IH].
    split; [done|]. by intros [?|?%elem_of_nil]%elem_of_cons.
Qed.

(** *** Dictionaries built from ordered fields *)

Lemma fold_insert_lookup_notin (fields : list (str * str)) (m0 : gmap str str) k :
  k ∉ fields.*1 ->
  fold_left (fun d kv => <[kv.1 := kv.2]> d) fields m0 !! k = m0 !! k.
Proof.
  revert m0. induction fields as [|[k' v'] rest IH]; intros m0 Hnin; [done|].
  simpl in *. apply not_elem_of_cons in Hnin as [Hne Hnin].
  rewrite IH by done. by rewrite lookup_insert_ne.
Qed.

Lemma fold_insert_lookup (fields : list (str * str)) (m0 : gmap str str) i k v :
  NoDup (fields.*1) -> fields !! i = Some (k, v) ->
  fold_left (fun d kv => <[kv.1 := kv.2]> d) fields m0 !! k = Some v.
Proof.
  revert m0 i. induction fields as [|[k' v'] rest IH]; intros m0 i Hnd Hi; [done|].
  simpl in *. apply NoDup_cons in Hnd as [Hnin Hnd].
  destruct i as [|i]; simpl in Hi.
  - injection Hi as -> ->. rewrite fold_insert_lookup_notin by done.
    apply lookup_insert_eq.
  - by apply (IH _ i).
Qed.

Lemma dict_of_lookup fields i k v :
  NoDup (fields.*1) -> fields !! i = Some (k, v) -> dict_of fields !! k = Some v.
Proof. apply fold_insert_lookup. Qed.

Lemma dict_of_lookup_None fields k : k ∉ fields.*1 -> dict_of fields !! k = None.
Proof. intros H. unfold dict_of. by rewrite fold_insert_lookup_notin. Qed.

Lemma parse_step (m0 : gmap str str) k v :
  EQUALS ∉ k ->
  (if contains EQUALS (field_str (k, v))
   then let '(key, value) := split1 EQUALS (field_str (k, v)) in <[key := value]> m0
   else m0) = <[k := v]> m0.
Proof.
  intros Hk. unfold field_str. cbn [fst snd app].
  by rewrite contains_app, split1_app.
Qed.

Lemma parse_fields_field_str fields :
  Forall (fun kv => EQUALS ∉ kv.1) fields ->
  parse_fields (map field_str fields) = dict_of fields.
Proof.
  unfold parse_fields, dict_of. generalize (∅ : gmap str str).
  induction fields as [|[k v] rest IH]; intros m0 Hall; [done|].
  apply Forall_cons in Hall as [Hk Hall]. cbn [map fold_left].
  rewrite parse_step by done. by apply IH.
Qed.

(** *** Decoding an encoding: the framing is recovered *)

Lemma FrameType_roundtrip t : FrameType_of_value (FrameType_value t) = Some t.
Proof. by destruct t. Qed.

Lemma FrameType_wire_ok t : wire_ok (FrameType_value t).
Proof.
  destruct t; split; first [reflexivity | decide_closed].
Qed.

Lemma field_str_wire_ok kv : field_ok kv -> wire_ok (field_str kv).
Proof.
  intros (Hk & _ & Hv). unfold field_str.
  apply wire_ok_app; [done|]. apply wire_ok_app; [|done].
  split; [done|]. by intros [?|?%elem_of_nil]%elem_of_cons.
Qed.

Section Unicode.

Context {ucd : UnicodeData}.

Lemma decode_encode_fields t fields :
  fields <> [] -> Forall field_ok fields ->
  decode (encode_fields t fields) = catch_none (dispatch t (dict_of fields)).
Proof.
  intros Hne Hall. unfold decode, encode_fields.
  assert (Hparts : Forall wire_ok (FrameType_value t :: map field_str fields)).
  { constructor; [apply FrameType_wire_ok|].
    apply Forall_fmap. eapply Forall_impl; [exact Hall|]. apply field_str_wire_ok. }
  unfold decode_utf8.
  rewrite utf8_valid_join; [|done|eapply Forall_impl; [exact Hparts|by intros ? [? ?]]].
  cbn [bind].
  rewrite split_join; [|done|eapply Forall_impl; [exact Hparts|by intros ? [? ?]]].
  destruct fields as [|kv fields]; [done|]. cbn [map].
  rewrite FrameType_roundtrip.
  change (field_str kv :: map field_str fields) with (map field_str (kv :: fields)).
  rewrite parse_fields_field_str.
  2:{ eapply Forall_impl; [exact Hall|]. by intros ? (_ & ? & _). }
  by destruct t.
Qed.

Lemma key_ok (k : str) :
  isascii k = true -> bool_decide (PIPE ∉ k) = true -> bool_decide (EQUALS ∉ k) = true ->
  forall v, wire_ok v -> field_ok (k, v).
Proof.
  intros Ha Hp%bool_decide_eq_true_1 He%bool_decide_eq_true_1 v Hv.
  split; [by apply wire_ok_ascii|by split].
Qed.

(** *** Integers and lists of integers *)

Lemma strs_of_ints_Ok l : Forall int_ok l -> strs_of_ints l = Ok (map decimal l).
Proof.
  induction 1 as [|i l Hi _ IH]; [done|]. cbn [strs_of_ints map].
  rewrite str_of_int_Ok by exact Hi. cbn [bind]. by rewrite IH.
Qed.

Lemma strs_of_ints_Raise l :
  Exists (fun n => ~ int_ok n) l -> strs_of_ints l = Raise ValueError.
Proof.
  induction l as [|i l IH]; intros Hex; [by apply Exists_nil in Hex|].
  cbn [strs_of_ints].
  destruct (Z.lt_ge_cases (Z.abs i) (10 ^ MAX_STR_DIGITS)) as [Hlt|Hge].
  - rewrite str_of_int_Ok by done. cbn [bind].
    apply Exists_cons in Hex as [Hi|Hl]; [done|]. by rewrite IH.
  - by rewrite str_of_int_Raise.
Qed.

Lemma ints_of_strs_roundtrip l :
  Forall int_ok l -> ints_of_strs (map decimal l) = Ok l.
Proof.
  induction 1 as [|i l Hi _ IH]; [done|]. cbn [map ints_of_strs].
  rewrite int_of_str_decimal by exact Hi. cbn [bind]. by rewrite IH.
Qed.

Lemma split_ints i l :
  split ","%byte (join (u ",") (map decimal (i :: l))) = map decimal (i :: l).
Proof.
  apply (split_join ","%byte); [done|].
  apply Forall_fmap, Forall_forall. intros n _. by apply decimal_not_in.
Qed.

(** *** The four record types *)

Lemma MSG_valid_priority m : MSG_valid m -> 0 <= priority m <= 3.
Proof.
  unfold MSG_valid, MSG_new. destruct (negb _); [done|].
  destruct (Z.leb_spec 0 (priority m)), (Z.leb_spec (priority m) 3); first [done | intros; lia].
Qed.

Lemma MSG_to_dict_valid m : MSG_valid m -> MSG_to_dict m = Ok (MSG_fields m).
Proof.
  intros Hvalid%MSG_valid_priority. unfold MSG_to_dict.
  rewrite str_of_int_small by lia. done.
Qed.

Lemma MSG_to_dict_inv m d : MSG_to_dict m = Ok d -> d = MSG_fields m.
Proof.
  unfold MSG_to_dict. destruct (str_of_int (priority m)) as [s|] eqn:Hs; [|done].
  apply str_of_int_inv in Hs as [-> _]. by intros [= <-].
Qed.

Lemma encode_MSG_valid m :
  MSG_valid m -> encode (FrameMSG m) = Ok (encode_fields T_MSG (MSG_fields m)).
Proof. intros Hvalid. unfold encode. cbn [to_dict]. by rewrite MSG_to_dict_valid. Qed.

Lemma encode_MSG_inv m encoded :
  encode (FrameMSG m) = Ok encoded -> encoded = encode_fields T_MSG (MSG_fields m).
Proof.
  unfold encode. cbn [to_dict frame_type].
  destruct (MSG_to_dict m) as [d|] eqn:Hd; [|done].
  apply MSG_to_dict_inv in Hd as ->. by intros [= <-].
Qed.

Lemma MSG_roundtrip m encoded :
  MSG_valid m -> Forall wire_ok (text_fields (FrameMSG m)) ->
  encode (FrameMSG m) = Ok encoded ->
  decode encoded = Some (normalize (FrameMSG m)).
Proof.
  intros Hvalid Htext ->%encode_MSG_inv.
  cbn [text_fields] in Htext.
  apply Forall_app in Htext as [Htext Hreply].
  apply Forall_cons in Htext as [Hid Htext].
  apply Forall_cons in Htext as [Hfrom Htext].
  apply Forall_cons in Htext as [Htime Htext].
  apply Forall_cons in Htext as [Hchan Htext].
  apply Forall_cons in Htext as [Hbody _].
  set (reply := match reply_to m with
                | Some r => if decide (r = []) then u "-" else r
                | None => u "-"
                end).
  assert (Hr : wire_ok reply).
  { unfold reply. destruct (reply_to m) as [r|].
    - apply Forall_cons in Hreply as [Hr _]. case_decide; [|done].
      apply wire_ok_ascii; [done|decide_closed].
    - apply wire_ok_ascii; [done|decide_closed]. }
  rewrite decode_encode_fields; [|done|].
  2:{ unfold MSG_fields. fold reply.
      repeat (apply Forall_cons_2 || apply Forall_nil_2);
        (apply key_ok; [done|done|done|]); try done. apply wire_ok_int. }
  cbn [dispatch]. unfold MSG_from_dict, getitem.
  assert (Hnd : NoDup ((MSG_fields m).*1)).
  { decide_closed. }
  rewrite (dict_of_lookup _ 0 _ (id m) Hnd eq_refl). cbn [bind].
  rewrite (dict_of_lookup _ 1 _ (from_node m) Hnd eq_refl). cbn [bind].
  rewrite (dict_of_lookup _ 2 _ (timestamp m) Hnd eq_refl). cbn [bind].
  rewrite (dict_of_lookup _ 3 _ (channel m) Hnd eq_refl). cbn [bind].
  rewrite (dict_of_lookup _ 4 _ (decimal (priority m)) Hnd eq_refl). cbn [bind].
  rewrite int_of_str_decimal
    by (apply small_fits; pose proof (MSG_valid_priority m Hvalid); lia).
  cbn [bind].
  rewrite (dict_of_lookup _ 5 _ reply Hnd eq_refl). cbn [bind].
  rewrite (dict_of_lookup _ 6 _ (body m) Hnd eq_refl). cbn [bind].
  unfold MSG_valid, MSG_new in Hvalid. unfold MSG_new.
  repeat match type of Hvalid with
         | (if ?c then _ else _) = _ => destruct c; [discriminate Hvalid|]
         end.
  cbn [catch_none normalize]. do 3 f_equal.
  unfold reply, normalize_reply. destruct (reply_to m) as [r|]; [|done].
  destruct (decide (r = [])) as [->|Hne]; [done|].
  destruct (decide (r = u "-")) as [->|Hnd'].
  - rewrite decide_True by (by right). done.
  - rewrite decide_False by (intros [?|?]; done). done.
Qed.

Lemma FRAG_roundtrip f :
  FRAG_valid f -> Forall wire_ok (text_fields (FrameFRAG f)) ->
  Forall int_ok (int_fields (FrameFRAG f)) ->
  exists data, encode (FrameFRAG f) = Ok data /\ decode data = Some (FrameFRAG f).
Proof.
  intros Hvalid [Hid _]%Forall_cons [Hidx [Htotal _]%Forall_cons]%Forall_cons.
  unfold encode. cbn [to_dict frame_type]. unfold FRAG_to_dict.
  rewrite !str_of_int_Ok by done. cbn [bind].
  eexists. split; [reflexivity|].
  set (fields := [(u "msgid", message_id f); (u "idx", decimal (idx f));
                  (u "total", decimal (total f)); (u "data", b64encode (data f))]).
  rewrite decode_encode_fields; [|done|].
  2:{ unfold fields.
      repeat (apply Forall_cons_2 || apply Forall_nil_2);
        (apply key_ok; [done|done|done|]);
        first [done | apply wire_ok_int | apply wire_ok_b64]. }
  cbn [dispatch]. unfold FRAG_from_dict, getitem.
  assert (Hnd : NoDup (fields.*1)) by decide_closed.
  rewrite (dict_of_lookup _ 0 _ (message_id f) Hnd eq_refl). cbn [bind].
  rewrite (dict_of_lookup _ 1 _ (decimal (idx f)) Hnd eq_refl). cbn [bind].
  rewrite int_of_str_decimal by done. cbn [bind].
  rewrite (dict_of_lookup _ 2 _ (decimal (total f)) Hnd eq_refl). cbn [bind].
  rewrite int_of_str_decimal by done. cbn [bind].
  rewrite (dict_of_lookup _ 3 _ (b64encode (data f)) Hnd eq_refl). cbn [bind].
  rewrite b64decode_encode. cbn [bind].
  unfold FRAG_valid in Hvalid. by rewrite Hvalid.
Qed.

Lemma SYNC_valid_inv s :
  SYNC_valid s ->
  (exists bf0 bf1 bf2, bloom_filters s = [bf0; bf1; bf2]) /\ 0 <= window_index s <= 2.
Proof.
  unfold SYNC_valid, SYNC_new. intros Hvalid. split.
  - destruct (bloom_filters s) as [|bf0 [|bf1 [|bf2 [|bf3 l]]]]; try discriminate Hvalid.
    by exists bf0, bf1, bf2.
  - destruct (negb _); [done|].
    destruct (Z.leb_spec 0 (window_index s)), (Z.leb_spec (window_index s) 2);
      first [done | lia].
Qed.

Lemma SYNC_roundtrip s :
  SYNC_valid s -> Forall wire_ok (text_fields (FrameSYNC s)) ->
  exists data, encode (FrameSYNC s) = Ok data /\ decode data = Some (FrameSYNC s).
Proof.
  intros Hvalid [Hfrom _]%Forall_cons.
  destruct (SYNC_valid_inv s Hvalid) as [(bf0 & bf1 & bf2 & Hbf) Hwin].
  unfold encode. cbn [to_dict frame_type]. unfold SYNC_to_dict, list_getitem.
  rewrite Hbf. cbn [lookup list_lookup bind].
  rewrite str_of_int_small by lia. cbn [bind].
  eexists. split; [reflexivity|].
  set (fields := [(u "from", sync_from_node s); (u "bf0", b64encode bf0);
                  (u "bf1", b64encode bf1); (u "bf2", b64encode bf2);
                  (u "win", decimal (window_index s))]).
  rewrite decode_encode_fields; [|done|].
  2:{ unfold fields.
      repeat (apply Forall_cons_2 || apply Forall_nil_2);
        (apply key_ok; [done|done|done|]);
        first [done | apply wire_ok_int | apply wire_ok_b64]. }
  cbn [dispatch]. unfold SYNC_from_dict, getitem.
  assert (Hnd : NoDup (fields.*1)) by decide_closed.
  rewrite (dict_of_lookup _ 0 _ (sync_from_node s) Hnd eq_refl). cbn [bind].
  rewrite (dict_of_lookup _ 1 _ (b64encode bf0) Hnd eq_refl). cbn [bind].
  rewrite b64decode_encode. cbn [bind].
  rewrite (dict_of_lookup _ 2 _ (b64encode bf1) Hnd eq_refl). cbn [bind].
  rewrite b64decode_encode. cbn [bind].
  rewrite (dict_of_lookup _ 3 _ (b64encode bf2) Hnd eq_refl). cbn [bind].
  rewrite b64decode_encode. cbn [bind].
  rewrite (dict_of_lookup _ 4 _ (decimal (window_index s)) Hnd eq_refl). cbn [bind].
  rewrite int_of_str_decimal by (apply small_fits; lia). cbn [bind].
  unfold SYNC_valid in Hvalid. rewrite <- Hbf. by rewrite Hvalid.
Qed.

Lemma REQ_roundtrip r :
  Forall wire_ok (text_fields (FrameREQ r)) ->
  Forall int_ok (int_fields (FrameREQ r)) ->
  exists data, encode (FrameREQ r) = Ok data /\ decode data = Some (normalize (FrameREQ r)).
Proof.
  intros [Hfrom [Hid _]%Forall_cons]%Forall_cons Hints.
  unfold encode. cbn [to_dict frame_type int_fields] in *. unfold REQ_to_dict.
  destruct (missing_fragments r) as [[|i l]|] eqn:Hm; cbn [bind app].
  - eexists. split; [reflexivity|].
    rewrite decode_encode_fields; [|done|].
    2:{ repeat (apply Forall_cons_2 || apply Forall_nil_2);
          (apply key_ok; [done|done|done|]); done. }
    cbn [dispatch normalize]. unfold REQ_from_dict, getitem. rewrite Hm.
    rewrite dict_of_lookup_None by decide_closed. cbn [bind].
    assert (Hnd : NoDup ([(u "from", req_from_node r); (u "msgid", req_message_id r)].*1))
      by decide_closed.
    rewrite (dict_of_lookup _ 0 _ (req_from_node r) Hnd eq_refl). cbn [bind].
    by rewrite (dict_of_lookup _ 1 _ (req_message_id r) Hnd eq_refl).
  - rewrite strs_of_ints_Ok by done. cbn [bind app].
    eexists. split; [reflexivity|].
    set (fields := [(u "from", req_from_node r); (u "msgid", req_message_id r);
                    (u "missing", join (u ",") (map decimal (i :: l)))]).
    rewrite decode_encode_fields; [|done|].
    2:{ unfold fields.
        repeat (apply Forall_cons_2 || apply Forall_nil_2);
          (apply key_ok; [done|done|done|]); first [done | apply wire_ok_ints]. }
    cbn [dispatch normalize]. unfold REQ_from_dict, getitem. rewrite Hm.
    assert (Hnd : NoDup (fields.*1)) by decide_closed.
    rewrite (dict_of_lookup _ 2 _ (join (u ",") (map decimal (i :: l))) Hnd eq_refl).
    rewrite split_ints, ints_of_strs_roundtrip by done. cbn [bind].
    rewrite (dict_of_lookup _ 0 _ (req_from_node r) Hnd eq_refl). cbn [bind].
    by rewrite (dict_of_lookup _ 1 _ (req_message_id r) Hnd eq_refl).
  - eexists. split; [reflexivity|].
    rewrite decode_encode_fields; [|done|].
    2:{ repeat (apply Forall_cons_2 || apply Forall_nil_2);
          (apply key_ok; [done|done|done|]); done. }
    cbn [dispatch normalize]. unfold REQ_from_dict, getitem. rewrite Hm.
    rewrite dict_of_lookup_None by decide_closed. cbn [bind].
    assert (Hnd : NoDup ([(u "from", req_from_node r); (u "msgid", req_message_id r)].*1))
      by decide_closed.
    rewrite (dict_of_lookup _ 0 _ (req_from_node r) Hnd eq_refl). cbn [bind].
    by rewrite (dict_of_lookup _ 1 _ (req_message_id r) Hnd eq_refl).
Qed.

(** [encode] raises when [str] refuses one of the integers. *)
Lemma encode_too_long f :
  Frame_valid f -> Exists (fun n => ~ int_ok n) (int_fields f) ->
  encode f = Raise ValueError.
Proof.
  destruct f as [m|f|s|r]; cbn [Frame_valid int_fields]; intros Hvalid Hex.
  - apply Exists_cons in Hex as [Hp|Hnil%Exists_nil]; [|done].
    exfalso. apply Hp. apply small_fits. pose proof (MSG_valid_priority m Hvalid). lia.
  - unfold encode. cbn [to_dict]. unfold FRAG_to_dict.
    destruct (Z.lt_ge_cases (Z.abs (idx f)) (10 ^ MAX_STR_DIGITS)) as [Hlt|Hge].
    + rewrite (str_of_int_Ok (idx f)) by done. cbn [bind].
      apply Exists_cons in Hex as [Hi|Hex]; [done|].
      apply Exists_cons in Hex as [Ht|Hnil%Exists_nil]; [|done].
      rewrite str_of_int_Raise; [done|]. unfold int_ok in Ht. lia.
    + by rewrite str_of_int_Raise.
  - apply Exists_cons in Hex as [Hp|Hnil%Exists_nil]; [|done].
    exfalso. apply Hp. apply small_fits.
    destruct (SYNC_valid_inv s Hvalid) as [_ ?]. lia.
  - unfold encode. cbn [to_dict]. unfold REQ_to_dict.
    destruct (missing_fragments r) as [[|i l]|]; [by apply Exists_nil in Hex| |by apply Exists_nil in Hex].
    by rewrite strs_of_ints_Raise.
Qed.

(** C3, as the code has it.  Take a valid MSG, FRAG, SYNC or REQ record
    whose text fields are well-formed UTF-8 and contain no [|].  When each
    of its integers has at most 4300 decimal digits, it is encoded without
    error, and decoding the encoding gives the record back in normal form
    (a missing, empty or [-] reply is [None]; an empty list of missing
    fragments is [None]), whatever the interpreter's Unicode tables are.
    When one of its integers has more digits, [encode] raises
    [ValueError]. *)
Theorem codec_roundtrip (f : Frame) :
  Frame_valid f ->
  Forall wire_ok (text_fields f) ->
  (Forall int_ok (int_fields f) ->
   exists data, encode f = Ok data /\ decode data = Some (normalize f))
  /\ (Exists (fun n => ~ int_ok n) (int_fields f) -> encode f = Raise ValueError).
Proof.
  intros Hvalid Htext. split; [|by apply encode_too_long].
  destruct f as [m|f|s|r]; intros Hints.
  - exists (encode_fields T_MSG (MSG_fields m)).
    split; [by apply encode_MSG_valid|].
    apply MSG_roundtrip; [done|done|by apply encode_MSG_valid].
  - by apply FRAG_roundtrip.
  - by apply SYNC_roundtrip.
  - by apply REQ_roundtrip.
Qed.

End Unicode.

Lemma frag_huge_valid : FRAG_valid frag_huge.
Proof.
  unfold FRAG_valid, FRAG_new, frag_huge. cbn [idx total message_id data].
  pose proof (Z.pow_pos_nonneg 10 4300 ltac:(lia) ltac:(lia)) as Hpos.
  set (p := 10 ^ 4300) in *.
  destruct (Z.ltb_spec p 0); [lia|]. destruct (Z.leb_spec (p + 1) p); [lia|]. done.
Qed.

Lemma frag_huge_too_long : ~ int_ok (idx frag_huge).
Proof.
  unfold int_ok, frag_huge, MAX_STR_DIGITS. cbn [idx].
  pose proof (Z.pow_pos_nonneg 10 4300 ltac:(lia) ltac:(lia)) as Hpos.
  set (p := 10 ^ 4300) in *. lia.
Qed.

Lemma codec_roundtrip_witness :
  (exists data, encode (FrameMSG msg_hello) = Ok data
     /\ decode (ucd := unicode_excerpt) data = Some (normalize (FrameMSG msg_hello)))
  /\ encode (FrameFRAG frag_huge) = Raise ValueError.
Proof.
  split.
  - apply (codec_roundtrip (ucd := unicode_excerpt) (FrameMSG msg_hello)).
    + reflexivity.
    + repeat (apply Forall_cons_2 || apply Forall_nil_2); (split; [reflexivity|decide_closed]).
    + apply Forall_cons_2; [apply small_fits; cbn; lia|apply Forall_nil_2].
  - apply (codec_roundtrip (ucd := unicode_excerpt) (FrameFRAG frag_huge)).
    + exact frag_huge_valid.
    + repeat (apply Forall_cons_2 || apply Forall_nil_2); (split; [reflexivity|decide_closed]).
    + apply Exists_cons. left. exact frag_huge_too_long.
Defined.

(** C3, as stated, fails: a body within the documented range that contains
    the field separator comes back cut at the separator. *)
Lemma codec_roundtrip_fails_on_pipe :
  MSG_valid msg_pipe
  /\ len (body msg_pipe) = 3
  /\ utf8_valid (body msg_pipe) = true
  /\ forall ucd : UnicodeData,
     exists data m', encode (FrameMSG msg_pipe) = Ok data
       /\ decode data = Some (FrameMSG m')
       /\ body m' = u "a"
       /\ FrameMSG m' <> normalize (FrameMSG msg_pipe).
Proof.
  split; [reflexivity|]. split; [reflexivity|]. split; [reflexivity|].
  intros ucd.
  eexists. eexists. split; [vm_compute; reflexivity|]. split; [vm_compute; reflexivity|].
  split; [reflexivity|]. intros H. discriminate H.
Qed.

End CodecFacts.

(** ** AX.25 addresses *)

Module AX25Facts.
Import Text AX25.

Lemma AX25Address_new_Ok upper cs s a :
  AX25Address_new upper cs s = Ok a ->
  callsign a = upper cs /\ ssid a = s /\ enforced_invariant a.
Proof.
  unfold AX25Address_new, enforced_invariant.
  destruct (Z.ltb_spec 6 (len (upper cs))); [done|].
  destruct (Z.leb_spec 0 s); destruct (Z.leb_spec s 15); try done.
  intros [= <-]. simpl. repeat split; (reflexivity || lia).
Qed.

Lemma AX25Address_new_Raise upper cs s :
  AX25Address_new upper cs s = Raise ValueError <->
  (6 < len (upper cs) \/ s < 0 \/ 15 < s).
Proof.
  unfold AX25Address_new.
  destruct (Z.ltb_spec 6 (len (upper cs))); [split; [lia|done]|].
  destruct (Z.leb_spec 0 s); destruct (Z.leb_spec s 15); simpl; split; (done || lia).
Qed.

Lemma decode_Ok upper data a :
  decode upper data = Ok (Some a) -> enforced_invariant a.
Proof.
  unfold decode. destruct (negb _); [done|].
  destruct (AX25Address_new _ _ _) as [a'|] eqn:Hnew; [|done].
  intros [= <-]. by apply AX25Address_new_Ok in Hnew as (_ & _ & ?).
Qed.

Section Unicode.

Context {ucd : UnicodeData}.

Lemma parse_Ok upper s a :
  parse upper s = Ok a -> enforced_invariant a.
Proof.
  unfold parse. destruct (contains HYPHEN s).
  - destruct (split1 HYPHEN s) as [cs ssid_str].
    destruct (int_of_str ssid_str) as [n|]; [|done]. cbn [bind].
    by intros (_ & _ & ?)%AX25Address_new_Ok.
  - by intros (_ & _ & ?)%AX25Address_new_Ok.
Qed.

(** C10, as the code has it.  Whatever [str.upper] does, an address the
    constructor accepts has an upper-cased callsign of at most 6 characters
    (possibly none, and of any kind) and an SSID in 0..15, and so has every
    address returned by [decode] or [parse]; the constructor raises
    [ValueError] exactly when the upper-cased callsign is longer than 6
    characters or the SSID is outside 0..15. *)
Theorem address_invariant (upper : str -> str) (cs : str) (s : Z) :
  (forall a, AX25Address_new upper cs s = Ok a ->
             callsign a = upper cs /\ ssid a = s /\ enforced_invariant a)
  /\ (AX25Address_new upper cs s = Raise ValueError <->
      (6 < len (upper cs) \/ s < 0 \/ 15 < s))
  /\ (forall data a, decode upper data = Ok (Some a) -> enforced_invariant a)
  /\ (forall text a, parse upper text = Ok a -> enforced_invariant a).
Proof.
  split; [|split; [|split]].
  - intros a. apply AX25Address_new_Ok.
  - apply AX25Address_new_Raise.
  - intros data a. apply decode_Ok.
  - intros text a. apply parse_Ok.
Qed.

End Unicode.

Lemma address_invariant_witness :
  AX25Address_new ascii_upper (u "n0call") 7 = Ok (mkAX25Address (u "N0CALL") 7)
  /\ enforced_invariant (mkAX25Address (u "N0CALL") 7)
  /\ AX25Address_new ascii_upper (u "toolong") 0 = Raise ValueError
  /\ AX25Address_new ascii_upper (u "n0call") 16 = Raise ValueError.
Proof.
  destruct (address_invariant (ucd := unicode_excerpt) ascii_upper (u "n0call") 7)
    as (Hok & _ & _ & _).
  destruct (Hok (mkAX25Address (u "N0CALL") 7) eq_refl) as (_ & _ & Hinv).
  split; [reflexivity|]. split; [exact Hinv|].
  split.
  - apply (address_invariant (ucd := unicode_excerpt) ascii_upper (u "toolong") 0).
    left. by vm_compute.
  - apply (address_invariant (ucd := unicode_excerpt) ascii_upper (u "n0call") 16).
    right. right. lia.
Defined.

(** C10, as stated, fails: the constructor accepts an empty callsign and a
    callsign with a hyphen and a bang, and [decode] returns the empty
    callsign for six shifted spaces. *)
Lemma address_invariant_not_enforced :
  AX25Address_new ascii_upper (u "") 0 = Ok (mkAX25Address (u "") 0)
  /\ ~ stated_invariant (mkAX25Address (u "") 0)
  /\ AX25Address_new ascii_upper (u "n0-c!l") 3 = Ok (mkAX25Address (u "N0-C!L") 3)
  /\ ~ stated_invariant (mkAX25Address (u "N0-C!L") 3)
  /\ decode ascii_upper [Byte.x40; Byte.x40; Byte.x40; Byte.x40; Byte.x40; Byte.x40; Byte.x60]
     = Ok (Some (mkAX25Address (u "") 0)).
Proof.
  split; [reflexivity|]. split.
  { intros [[H _] _]. vm_compute in H. by apply H. }
  split; [reflexivity|]. split.
  { intros (_ & H & _). vm_compute in H. discriminate H. }
  reflexivity.
Qed.

End AX25Facts.

(** ** Fragmentation *)

Module FragmentationFacts.
Import Text Frames FrameParser Codec Fragmentation CodecFacts.

Lemma ceil_div_pos a b :
  0 < b -> exists t, ceil_div a b = Ok t /\ (t - 1) * b < a <= t * b.
Proof.
  intros Hb. unfold ceil_div. destruct (Z.eqb_spec b 0); [lia|].
  eexists. split; [reflexivity|].
  pose proof (Z.div_mod (- a) b). pose proof (Z.mod_pos_bound (- a) b). nia.
Qed.

Lemma mapM_Ok {A B} (f : A -> result B) (g : A -> B) l :
  (forall x, x ∈ l -> f x = Ok (g x)) -> mapM f l = Ok (map g l).
Proof.
  induction l as [|x l IH]; intros H; [done|]. cbn [mapM map].
  rewrite H by left. cbn [bind]. rewrite IH; [done|].
  intros y Hy. apply H. by right.
Qed.

Lemma chunks_take (l : list byte) (s : Z) (n : nat) :
  0 < s ->
  concat (map (fun i => zslice l (i * s) (Z.min (i * s + s) (Z.of_nat (length l))))
              (seqZ 0 (Z.of_nat n)))
  = take (n * Z.to_nat s) l.
Proof.
  intros Hs. induction n as [|n IH]; [done|].
  rewrite Nat2Z.inj_succ, <- Z.add_1_r, seqZ_app by lia.
  rewrite map_app, concat_app, IH.
  rewrite seqZ_cons, seqZ_nil by lia. cbn [map concat]. rewrite app_nil_r.
  rewrite Z.add_0_l. unfold zslice, slice.
  assert (Ha : Z.to_nat (Z.of_nat n * s) = (n * Z.to_nat s)%nat).
  { rewrite Z2Nat.inj_mul, Nat2Z.id by lia. done. }
  rewrite Ha.
  replace (S n * Z.to_nat s)%nat with (n * Z.to_nat s + Z.to_nat s)%nat by lia.
  destruct (Z.le_gt_cases (Z.of_nat n * s + s) (Z.of_nat (length l))) as [Hle|Hgt].
  - rewrite Z.min_l by done.
    replace (Z.to_nat (Z.of_nat n * s + s) - n * Z.to_nat s)%nat with (Z.to_nat s) by lia.
    apply take_take_drop.
  - rewrite Z.min_r by lia. rewrite Nat2Z.id.
    rewrite (take_ge (drop _ _)) by (rewrite length_drop; lia).
    rewrite take_drop. symmetry. apply take_ge. lia.
Qed.

Section Unicode.

Context {ucd : UnicodeData}.

(** C9, as the code has it.  With a threshold above 50 and a MSG whose
    encoding is longer than the threshold, [fragment_message] returns
    [ceil(L / (threshold - 50))] fragments, the fragment at position [i]
    has index [i], that total and the id of the MSG, and the payloads
    concatenated in index order are the encoded MSG; they decode back to
    the MSG (in normal form) when its text fields are free of [|]. *)
Theorem fragmentation_complete (threshold : Z) (msg : MSG) (encoded : list byte) :
  50 < threshold ->
  encode (FrameMSG msg) = Ok encoded ->
  threshold < Z.of_nat (length encoded) ->
  exists frags total,
    fragment_message (Fragmenter_new threshold) msg = Ok frags
    /\ ceil_div (Z.of_nat (length encoded)) (threshold - 50) = Ok total
    /\ (total - 1) * (threshold - 50) < Z.of_nat (length encoded)
         <= total * (threshold - 50)
    /\ Z.of_nat (length frags) = total
    /\ (forall i f, frags !! i = Some f ->
          idx f = Z.of_nat i /\ Frames.total f = total /\ message_id f = id msg)
    /\ concat (map data frags) = encoded
    /\ (MSG_valid msg -> Forall wire_ok (text_fields (FrameMSG msg)) ->
        decode (concat (map data frags)) = Some (normalize (FrameMSG msg))).
Proof.
  intros Hthr Henc HL.
  set (L := Z.of_nat (length encoded)) in *.
  destruct (ceil_div_pos L (threshold - 50)) as (total & Hceil & Hlo & Hhi); [lia|].
  assert (Htot : 0 < total) by nia.
  set (mk := fun i => mkFRAG (id msg) i total
                        (zslice encoded (i * (threshold - 50))
                           (Z.min (i * (threshold - 50) + (threshold - 50)) L))).
  assert (Hdata : concat (map data (map mk (seqZ 0 total))) = encoded).
  { rewrite map_map. unfold mk. cbn [data].
    replace total with (Z.of_nat (Z.to_nat total)) at 1 by lia.
    unfold L. rewrite chunks_take by lia.
    apply take_ge. nia. }
  exists (map mk (seqZ 0 total)), total.
  split; [|split; [done|split; [done|split; [|split; [|split]]]]].
  - unfold fragment_message, Fragmenter_new. cbn [fragment_threshold].
    rewrite Henc. cbn [bind]. fold L.
    destruct (Z.leb_spec L threshold); [lia|].
    rewrite Hceil. cbn [bind]. apply mapM_Ok.
    intros i Hi. apply elem_of_seqZ in Hi. unfold FRAG_new, mk.
    destruct (Z.ltb_spec i 0); [lia|]. destruct (Z.leb_spec total i); [lia|]. done.
  - rewrite length_map, length_seqZ. lia.
  - intros i f Hf. rewrite list_lookup_fmap in Hf.
    destruct (seqZ 0 total !! i) as [j|] eqn:Hj; [|done].
    apply lookup_seqZ in Hj as [-> _]. injection Hf as <-. unfold mk. simpl.
    repeat split; lia || done.
  - exact Hdata.
  - intros Hvalid Htext. rewrite Hdata. by apply MSG_roundtrip.
Qed.

End Unicode.

Lemma fragmentation_complete_witness :
  exists frags encoded,
    encode (FrameMSG msg_long) = Ok encoded
    /\ fragment_message (Fragmenter_new 200) msg_long = Ok frags
    /\ length frags = 3%nat
    /\ concat (map data frags) = encoded
    /\ decode (ucd := unicode_excerpt) (concat (map data frags)) = Some (FrameMSG msg_long).
Proof.
  destruct (encode (FrameMSG msg_long)) as [encoded|] eqn:Henc; [|by vm_compute in Henc].
  destruct (fragmentation_complete (ucd := unicode_excerpt) 200 msg_long encoded) as
    (frags & total & Hfrag & Hceil & _ & Hlen & _ & Hcat & Hdec).
  - lia.
  - exact Henc.
  - vm_compute in Henc. injection Henc as <-. vm_compute. reflexivity.
  - exists frags, encoded. split; [done|]. split; [exact Hfrag|]. split.
    + vm_compute in Henc. injection Henc as <-.
      vm_compute in Hceil. injection Hceil as <-. lia.
    + split; [exact Hcat|]. apply Hdec.
      * reflexivity.
      * repeat (apply Forall_cons_2 || apply Forall_nil_2);
          (split; [vm_compute; reflexivity|decide_closed]).
Defined.

(** C9, as stated, fails twice.  At the default threshold a long MSG whose
    body contains [|] is split into fragments whose concatenation does not
    decode back to it, whatever the interpreter's Unicode tables; and at
    threshold 50, which the configuration accepts, the fragment size is 0
    and the division raises. *)
Lemma fragmentation_not_complete :
  (exists frags encoded,
      MSG_valid msg_long_pipe
      /\ encode (FrameMSG msg_long_pipe) = Ok encoded
      /\ 200 < Z.of_nat (length encoded)
      /\ fragment_message (Fragmenter_new 200) msg_long_pipe = Ok frags
      /\ forall ucd : UnicodeData, exists m',
           decode (concat (map data frags)) = Some (FrameMSG m')
           /\ body m' = long_text
           /\ m' <> msg_long_pipe)
  /\ (exists encoded, encode (FrameMSG msg_long) = Ok encoded
                      /\ 50 < Z.of_nat (length encoded))
  /\ fragment_message (Fragmenter_new 50) msg_long = Raise ZeroDivisionError.
Proof.
  split; [|split; [eexists; split; vm_compute; reflexivity|vm_compute; reflexivity]].
  eexists. eexists. split; [reflexivity|]. split; [vm_compute; reflexivity|].
  split; [vm_compute; reflexivity|]. split; [vm_compute; reflexivity|].
  intros ucd. eexists.
  split; [vm_compute; reflexivity|]. split; [vm_compute; reflexivity|].
  intros H. vm_compute in H. discriminate H.
Qed.

End FragmentationFacts.

(** ** Bloom filters *)

Module BloomFacts.
Import Bloom.

Section Hash.

Variable mmh3_hash : str -> Z -> Z.

Abbreviation test_bit := (test_bit mmh3_hash).
Abbreviation set_bit := (set_bit mmh3_hash).
Abbreviation add := (add mmh3_hash).
Abbreviation contains := (contains mmh3_hash).

Lemma land_lor_same old m : Z.land (Z.lor old m) m = m.
Proof.
  apply Z.bits_inj'. intros n Hn. rewrite Z.land_spec, Z.lor_spec.
  by destruct (Z.testbit old n), (Z.testbit m n).
Qed.

Lemma land_lor_keeps old m m' : Z.land old m' <> 0 -> Z.land (Z.lor old m) m' <> 0.
Proof.
  intros H. rewrite Z.land_lor_distr_l. intros [H0 _]%Z.lor_eq_0_iff. done.
Qed.

Lemma shiftl_1_nonzero b : 0 <= b -> Z.shiftl 1 b <> 0.
Proof.
  intros Hb. rewrite Z.shiftl_mul_pow2 by done.
  pose proof (Z.pow_pos_nonneg 2 b). lia.
Qed.

(** On a well-formed filter the position of a bit is in range. *)
Lemma bit_position_wf bf item seed :
  BloomFilter_wf bf ->
  exists byte_idx bit_idx,
    bit_position mmh3_hash bf item seed = Ok (byte_idx, bit_idx)
    /\ index_of (bits bf) byte_idx = Ok (Z.to_nat byte_idx)
    /\ 0 <= byte_idx < Z.of_nat (length (bits bf))
    /\ 0 <= bit_idx < 8.
Proof.
  intros (Hpos & Hmod & Hlen). unfold bit_position.
  destruct (Z.eqb_spec (num_bits bf) 0); [lia|].
  set (p := mmh3_hash item seed mod num_bits bf).
  assert (Hp : 0 <= p < num_bits bf) by (apply Z.mod_pos_bound; lia).
  assert (Hb : 0 <= p / 8 < Z.of_nat (length (bits bf))).
  { rewrite Hlen. split; [apply Z.div_pos; lia|].
    apply Z.div_lt_upper_bound; [lia|].
    pose proof (Z.div_mod (num_bits bf) 8). lia. }
  exists (p / 8), (p mod 8). split; [done|]. split; [|split; [done|]].
  - unfold index_of.
    destruct (Z.leb_spec 0 (p / 8)); [|lia].
    destruct (Z.ltb_spec (p / 8) (Z.of_nat (length (bits bf)))); [done|lia].
  - apply Z.mod_pos_bound. lia.
Qed.

Lemma test_bit_total bf item seed :
  BloomFilter_wf bf -> exists b, test_bit bf item seed = Ok b.
Proof.
  intros Hwf. destruct (bit_position_wf bf item seed Hwf) as (by_ & bi & Hp & Hi & _).
  unfold Bloom.test_bit. rewrite Hp. cbn [bind]. rewrite Hi. cbn [bind]. by eexists.
Qed.

Lemma set_bit_wf bf item seed :
  BloomFilter_wf bf ->
  exists bf',
    set_bit bf item seed = Ok bf'
    /\ BloomFilter_wf bf'
    /\ num_bits bf' = num_bits bf /\ num_hashes bf' = num_hashes bf
    /\ test_bit bf' item seed = Ok true
    /\ (forall item' seed', test_bit bf item' seed' = Ok true ->
                            test_bit bf' item' seed' = Ok true).
Proof.
  intros Hwf.
  destruct (bit_position_wf bf item seed Hwf) as (by_ & bi & Hp & Hi & Hby & Hbi).
  unfold Bloom.set_bit. rewrite Hp. cbn [bind]. rewrite Hi. cbn [bind].
  set (old := default 0 (bits bf !! Z.to_nat by_)).
  set (bf' := mkBloomFilter _ _ _ _).
  assert (Hwf' : BloomFilter_wf bf').
  { destruct Hwf as (H1 & H2 & H3). unfold BloomFilter_wf, bf'. cbn.
    rewrite length_insert. done. }
  exists bf'. split; [done|]. split; [done|]. split; [done|]. split; [done|].
  split.
  - unfold Bloom.test_bit.
    change (bit_position mmh3_hash bf' item seed) with (bit_position mmh3_hash bf item seed).
    rewrite Hp. cbn [bind].
    assert (Hi' : index_of (bits bf') by_ = Ok (Z.to_nat by_)).
    { unfold index_of in *. unfold bf'. cbn [bits]. by rewrite length_insert. }
    rewrite Hi'. cbn [bind]. unfold bf'. cbn [bits].
    rewrite list_lookup_insert_eq by lia. cbn [default from_option id].
    rewrite land_lor_same.
    destruct (Z.eqb_spec (Z.shiftl 1 bi) 0) as [H0|]; [|done].
    exfalso. apply (shiftl_1_nonzero bi); [lia|done].
  - intros item' seed'. unfold Bloom.test_bit.
    change (bit_position mmh3_hash bf' item' seed')
      with (bit_position mmh3_hash bf item' seed').
    destruct (bit_position_wf bf item' seed' Hwf) as (by2 & bi2 & Hp2 & Hi2 & Hby2 & Hbi2).
    rewrite Hp2. cbn [bind]. rewrite Hi2.
    assert (Hi2' : index_of (bits bf') by2 = Ok (Z.to_nat by2)).
    { unfold index_of in *. unfold bf'. cbn [bits]. by rewrite length_insert. }
    rewrite Hi2'. cbn [bind]. unfold bf'. cbn [bits].
    destruct (decide (Z.to_nat by_ = Z.to_nat by2)) as [Heq|Hne].
    + rewrite <- Heq. rewrite list_lookup_insert_eq by lia. cbn [default from_option id].
      fold old. intros [= Hold]. f_equal.
      apply negb_true_iff, Z.eqb_neq in Hold.
      apply negb_true_iff, Z.eqb_neq. by apply land_lor_keeps.
    + by rewrite list_lookup_insert_ne.
Qed.

Lemma add_seeds_wf bf item seeds :
  BloomFilter_wf bf ->
  exists bf',
    add_seeds mmh3_hash bf item seeds = Ok bf'
    /\ BloomFilter_wf bf'
    /\ num_bits bf' = num_bits bf /\ num_hashes bf' = num_hashes bf
    /\ Forall (fun seed => test_bit bf' item seed = Ok true) seeds
    /\ (forall item' seed', test_bit bf item' seed' = Ok true ->
                            test_bit bf' item' seed' = Ok true).
Proof.
  revert bf. induction seeds as [|seed rest IH]; intros bf Hwf.
  - exists bf. split; [done|]. split; [done|]. split; [done|]. split; [done|].
    split; [constructor|auto].
  - destruct (set_bit_wf bf item seed Hwf) as (bf1 & Hset & Hwf1 & Hn1 & Hh1 & Ht1 & Hmono1).
    destruct (IH bf1 Hwf1) as (bf2 & Hadd & Hwf2 & Hn2 & Hh2 & Hall & Hmono2).
    exists bf2. cbn [add_seeds]. rewrite Hset. cbn [bind].
    split; [done|]. split; [done|]. split; [congruence|]. split; [congruence|].
    split; [|by auto]. constructor; [by apply Hmono2|done].
Qed.

Lemma contains_seeds_true bf item seeds :
  Forall (fun seed => test_bit bf item seed = Ok true) seeds ->
  contains_seeds mmh3_hash bf item seeds = Ok true.
Proof.
  induction seeds as [|seed rest IH]; [done|].
  intros [Hs Hrest]%Forall_cons. cbn [contains_seeds]. rewrite Hs. cbn [bind]. by apply IH.
Qed.

Lemma contains_seeds_total bf item seeds :
  BloomFilter_wf bf -> exists b, contains_seeds mmh3_hash bf item seeds = Ok b.
Proof.
  intros Hwf. induction seeds as [|seed rest [b IH]]; [by eexists|].
  destruct (test_bit_total bf item seed Hwf) as [[|] Hb].
  - exists b. cbn [contains_seeds]. by rewrite Hb.
  - exists false. cbn [contains_seeds]. by rewrite Hb.
Qed.

Lemma contains_seeds_mono bf bf' item seeds :
  BloomFilter_wf bf ->
  (forall seed, test_bit bf item seed = Ok true -> test_bit bf' item seed = Ok true) ->
  contains_seeds mmh3_hash bf item seeds = Ok true ->
  contains_seeds mmh3_hash bf' item seeds = Ok true.
Proof.
  intros Hwf Hmono. induction seeds as [|seed rest IH]; [done|].
  cbn [contains_seeds].
  destruct (test_bit_total bf item seed Hwf) as [[|] Hb]; rewrite Hb; cbn [bind]; [|done].
  rewrite (Hmono seed Hb). cbn [bind]. exact IH.
Qed.

(** [add] never raises on a well-formed filter, the item is contained
    afterwards, and whatever was contained still is. *)
Lemma add_wf bf item :
  BloomFilter_wf bf ->
  exists bf',
    add bf item = Ok bf'
    /\ BloomFilter_wf bf'
    /\ contains bf' item = Ok true
    /\ (forall item', contains bf item' = Ok true -> contains bf' item' = Ok true).
Proof.
  intros Hwf. unfold Bloom.add, Bloom.contains.
  destruct (add_seeds_wf bf item (seqZ 0 (num_hashes bf)) Hwf)
    as (bf' & Hadd & Hwf' & Hn & Hh & Hall & Hmono).
  exists bf'. split; [done|]. split; [done|]. rewrite Hh. split.
  - by apply contains_seeds_true.
  - intros item'. apply contains_seeds_mono; [done|]. intros seed. apply Hmono.
Qed.

Lemma BloomFilter_new_wf nb nh :
  0 < nb -> nb mod 8 = 0 ->
  exists bf, BloomFilter_new nb nh = Ok bf /\ BloomFilter_wf bf.
Proof.
  intros Hpos Hmod. unfold BloomFilter_new.
  destruct (Z.eqb_spec (nb mod 8) 0); [|done]. cbn [negb].
  assert (0 <= nb / 8) by (apply Z.div_pos; lia).
  destruct (Z.ltb_spec (nb / 8) 0); [lia|].
  eexists. split; [reflexivity|]. unfold BloomFilter_wf. cbn.
  rewrite length_replicate. lia.
Qed.

(** *** Rotation *)

Abbreviation holds := (holds mmh3_hash).

Lemma elem_of_removelast {A} (l : list A) x y :
  x ∈ l -> last l = Some y -> x <> y -> x ∈ removelast l.
Proof.
  intros Hin Hlast Hne.
  destruct (exists_last (l := l)) as (l' & z & ->).
  { intros ->. done. }
  rewrite last_snoc in Hlast. injection Hlast as ->.
  rewrite removelast_last. apply elem_of_app in Hin as [?|Hin]; [done|].
  apply list_elem_of_singleton in Hin. done.
Qed.

Lemma rotate_wf now rb :
  Rotating_wf rb ->
  exists rb',
    _rotate_if_needed now rb = Ok rb'
    /\ Rotating_wf rb' /\ same_config rb rb'
    /\ (forall item s, holds rb item s -> now <= deadline rb s -> holds rb' item s).
Proof.
  intros (Hbits & Hmod & Hcount & Hne & Hall). unfold _rotate_if_needed.
  destruct (last (windows rb)) as [[oldest_start oldest]|] eqn:Hlast.
  2:{ apply last_None in Hlast. done. }
  destruct (Z.ltb_spec (seconds (window_duration rb * window_count rb)) (now - oldest_start))
    as [Hold|Hyoung].
  - destruct (BloomFilter_new_wf (bloom_bits rb) (bloom_hashes rb) Hbits Hmod)
      as (nb & Hnew & Hnbwf).
    rewrite Hnew. cbn [bind].
    destruct (Z.eqb_spec (window_count rb) 0); [lia|].
    eexists. split; [reflexivity|]. split; [|split; [done|]].
    + unfold Rotating_wf. cbn. repeat split; try done.
      constructor; [done|].
      apply Forall_forall. intros w Hw. rewrite Forall_forall in Hall. apply Hall.
      destruct (exists_last Hne) as (l' & z & Heq). rewrite Heq in *.
      rewrite removelast_last in Hw. apply elem_of_app. by left.
    + intros item s (bf & Hin & Hc) Hdl. exists bf. split; [|done]. cbn [windows].
      right. apply (elem_of_removelast _ _ (oldest_start, oldest)); [done|done|].
      intros [= -> _]. unfold deadline in Hdl. lia.
  - exists rb. by repeat split.
Qed.

Lemma rotating_add_wf now rb item :
  Rotating_wf rb ->
  exists rb' s bf rest,
    rotating_add mmh3_hash now rb item = Ok rb'
    /\ Rotating_wf rb' /\ same_config rb rb'
    /\ windows rb' = (s, bf) :: rest
    /\ holds rb' item s
    /\ (forall item' s', holds rb item' s' -> now <= deadline rb s' -> holds rb' item' s').
Proof.
  intros Hwf. unfold rotating_add.
  destruct (rotate_wf now rb Hwf) as (rb1 & Hrot & Hwf1 & Hcfg1 & Hkeep1).
  rewrite Hrot. cbn [bind].
  destruct Hwf1 as (Hbits & Hmod & Hcount & Hne & Hall).
  destruct (windows rb1) as [|[start bloom] rest] eqn:Hws; [done|].
  apply Forall_cons in Hall as [Hb Hrest].
  destruct (add_wf bloom item Hb) as (bloom' & Hadd & Hwf' & Hcont & Hmono).
  rewrite Hadd. cbn [bind].
  eexists. exists start, bloom', rest. split; [reflexivity|].
  split; [|split; [exact Hcfg1|split; [done|split]]].
  - unfold Rotating_wf. cbn. repeat split; try done. by constructor.
  - exists bloom'. split; [left|done].
  - intros item' s' Hh Hdl. destruct (Hkeep1 item' s' Hh Hdl) as (bf & Hin & Hc).
    rewrite Hws in Hin. cbn [windows].
    apply elem_of_cons in Hin as [[= -> ->]|Hin].
    + exists bloom'. split; [left|by apply Hmono].
    + exists bf. split; [by right|done].
Qed.

Lemma contains_any_total ws item :
  Forall (fun w => BloomFilter_wf (w.2)) ws ->
  exists b, contains_any mmh3_hash ws item = Ok b.
Proof.
  induction ws as [|[s bf] rest IH]; [by eexists|].
  intros [Hb Hrest]%Forall_cons. destruct (IH Hrest) as [b Hb'].
  destruct (contains_seeds_total bf item (seqZ 0 (num_hashes bf)) Hb) as [[|] Hc];
    cbn [contains_any]; unfold Bloom.contains; rewrite Hc; cbn [bind]; by eexists.
Qed.

Lemma contains_any_true ws item s bf :
  Forall (fun w => BloomFilter_wf (w.2)) ws ->
  (s, bf) ∈ ws -> contains bf item = Ok true ->
  contains_any mmh3_hash ws item = Ok true.
Proof.
  induction ws as [|[s' bf'] rest IH]; intros Hall Hin Hc.
  - by apply elem_of_nil in Hin.
  - apply Forall_cons in Hall as [Hb Hrest]. cbn [contains_any].
    apply elem_of_cons in Hin as [[= -> ->]|Hin].
    + by rewrite Hc.
    + destruct (contains_seeds_total bf' item (seqZ 0 (num_hashes bf')) Hb) as [[|] Hc'];
        unfold Bloom.contains; rewrite Hc'; cbn [bind]; [done|]. by apply IH.
Qed.

Lemma rotating_contains_wf now rb item :
  Rotating_wf rb ->
  exists rb' b,
    rotating_contains mmh3_hash now rb item = Ok (rb', b)
    /\ Rotating_wf rb' /\ same_config rb rb'
    /\ (forall item' s', holds rb item' s' -> now <= deadline rb s' -> holds rb' item' s')
    /\ (forall s, holds rb item s -> now <= deadline rb s -> b = true).
Proof.
  intros Hwf. unfold rotating_contains.
  destruct (rotate_wf now rb Hwf) as (rb1 & Hrot & Hwf1 & Hcfg1 & Hkeep1).
  rewrite Hrot. cbn [bind].
  pose proof Hwf1 as (_ & _ & _ & _ & Hall).
  destruct (contains_any_total (windows rb1) item Hall) as [b Hb].
  rewrite Hb. cbn [bind]. exists rb1, b. split; [done|]. split; [done|].
  split; [done|]. split; [done|].
  intros s Hh Hdl. destruct (Hkeep1 item s Hh Hdl) as (bf & Hin & Hc).
  rewrite (contains_any_true _ _ _ _ Hall Hin Hc) in Hb. congruence.
Qed.

Lemma deadline_same_config rb rb' s : same_config rb rb' -> deadline rb' s = deadline rb s.
Proof. intros (H1 & H2 & _). unfold deadline. by rewrite H1, H2. Qed.

Lemma run_calls_wf rb cs item s :
  Rotating_wf rb -> holds rb item s ->
  Forall (fun c => call_time c <= deadline rb s) cs ->
  exists rb',
    run_calls mmh3_hash rb cs = Ok rb'
    /\ Rotating_wf rb' /\ same_config rb rb' /\ holds rb' item s.
Proof.
  revert rb. induction cs as [|c rest IH]; intros rb Hwf Hh Hall.
  - exists rb. split; [done|]. split; [done|]. split; [by repeat split|done].
  - apply Forall_cons in Hall as [Hc Hrest]. cbn [run_calls].
    assert (Hstep : exists rb1, run_call mmh3_hash rb c = Ok rb1
                     /\ Rotating_wf rb1 /\ same_config rb rb1 /\ holds rb1 item s).
    { destruct c as [now y|now y]; cbn [run_call call_time] in *.
      - destruct (rotating_add_wf now rb y Hwf)
          as (rb1 & s1 & bf1 & r1 & Hadd & Hwf1 & Hcfg & _ & _ & Hkeep).
        exists rb1. split; [done|]. split; [done|]. split; [done|]. by apply Hkeep.
      - destruct (rotating_contains_wf now rb y Hwf)
          as (rb1 & b & Hcont & Hwf1 & Hcfg & Hkeep & _).
        exists rb1. rewrite Hcont. cbn [bind]. split; [done|]. split; [done|].
        split; [done|]. by apply Hkeep. }
    destruct Hstep as (rb1 & Hrun & Hwf1 & Hcfg1 & Hh1). rewrite Hrun. cbn [bind].
    destruct (IH rb1 Hwf1 Hh1) as (rb2 & Hrun2 & Hwf2 & Hcfg2 & Hh2).
    { eapply Forall_impl; [exact Hrest|]. intros c' Hc'. cbn beta in *.
      by rewrite (deadline_same_config rb rb1). }
    exists rb2. split; [done|]. split; [done|]. split; [|done].
    destruct Hcfg1 as (?&?&?&?), Hcfg2 as (?&?&?&?). unfold same_config. repeat split; congruence.
Qed.

Lemma add_window_start now rb item rb' s bf rest :
  rotating_add mmh3_hash now rb item = Ok rb' ->
  windows rb' = (s, bf) :: rest ->
  receiving_window_start now rb = Some s.
Proof.
  unfold rotating_add, _rotate_if_needed, receiving_window_start.
  destruct (last (windows rb)) as [[oldest_start oldest]|]; [|done].
  destruct (_ <? _).
  - destruct (BloomFilter_new _ _); [|done]. cbn [bind].
    destruct (_ =? _); [done|]. cbn [bind windows].
    destruct (Bloom.add _ _ _); [|done]. cbn [bind].
    intros [= <-]. cbn [windows]. by intros [= -> _ _].
  - cbn [bind]. destruct (windows rb) as [|[s' bf'] rest']; [done|].
    destruct (Bloom.add _ _ _); [|done]. cbn [bind].
    intros [= <-]. cbn [windows]. by intros [= -> _ _].
Qed.

(** C5, as the code has it.  On a well-formed rotating filter [add] does
    not raise, and the item goes into the newest window, which started at
    [s0]: at the time of the call if the call rotated, earlier otherwise.
    Whatever is called afterwards, [contains] keeps answering true for the
    item as long as the clock has not passed
    [s0 + window_count * window_duration]. *)
Theorem rotating_expiry_bound (rb : RotatingBloomFilter) (t0 : Z) (x : str)
    (cs : list call) (t : Z) :
  Rotating_wf rb ->
  exists rb1 s0 bf0 rest,
    rotating_add mmh3_hash t0 rb x = Ok rb1
    /\ windows rb1 = (s0, bf0) :: rest
    /\ receiving_window_start t0 rb = Some s0
    /\ (Forall (fun c => call_time c <= deadline rb s0) cs ->
        t <= deadline rb s0 ->
        exists rb2 rb3,
          run_calls mmh3_hash rb1 cs = Ok rb2
          /\ rotating_contains mmh3_hash t rb2 x = Ok (rb3, true)).
Proof.
  intros Hwf.
  destruct (rotating_add_wf t0 rb x Hwf)
    as (rb1 & s0 & bf0 & rest & Hadd & Hwf1 & Hcfg1 & Hws & Hh & _).
  exists rb1, s0, bf0, rest. split; [done|]. split; [done|].
  split; [by eapply add_window_start|].
  intros Hcs Ht.
  destruct (run_calls_wf rb1 cs x s0 Hwf1 Hh) as (rb2 & Hrun & Hwf2 & Hcfg2 & Hh2).
  { eapply Forall_impl; [exact Hcs|]. intros c Hc. cbn beta in *.
    by rewrite (deadline_same_config rb rb1). }
  destruct (rotating_contains_wf t rb2 x Hwf2) as (rb3 & b & Hcont & _ & _ & _ & Htrue).
  exists rb2, rb3. split; [done|].
  rewrite (Htrue s0 Hh2) in Hcont; [done|].
  rewrite (deadline_same_config rb1 rb2), (deadline_same_config rb rb1) by done. done.
Qed.

End Hash.

Lemma fresh_filter_wf : Rotating_wf fresh_filter.
Proof.
  unfold Rotating_wf. split; [done|]. split; [done|]. split; [done|]. split; [done|].
  repeat constructor.
Qed.

Lemma rotating_expiry_bound_witness :
  exists rb1 rb2 rb3,
    rotating_add toy_hash (seconds 12) fresh_filter (u "deadbeef0123") = Ok rb1
    /\ receiving_window_start (seconds 12) fresh_filter = Some (seconds 12)
    /\ run_calls toy_hash rb1
         [Contains (seconds 20) (u "deadbeef0123"); Add (seconds 40) (u "cafe")] = Ok rb2
    /\ rotating_contains toy_hash (seconds 42) rb2 (u "deadbeef0123") = Ok (rb3, true).
Proof.
  destruct (rotating_expiry_bound toy_hash fresh_filter (seconds 12) (u "deadbeef0123")
              [Contains (seconds 20) (u "deadbeef0123"); Add (seconds 40) (u "cafe")]
              (seconds 42) fresh_filter_wf)
    as (rb1 & s0 & bf0 & rest & Hadd & _ & Hstart & Hkeep).
  vm_compute in Hstart. injection Hstart as <-.
  destruct Hkeep as (rb2 & rb3 & Hrun & Hcont).
  - repeat constructor; vm_compute; discriminate.
  - vm_compute. discriminate.
  - exists rb1, rb2, rb3. split; [exact Hadd|]. split; [reflexivity|].
    split; [exact Hrun|exact Hcont].
Defined.

(** C5, as stated, fails.  With three windows of 10 seconds created at
    time 0, an item added at 10 s goes into the window that started at 0;
    calls at 11 s and 21 s rotate the two older windows out, the call at
    31 s rotates that window out, and [contains] answers false 21 seconds
    after the add, before 30 seconds have passed. *)
Lemma expiry_sooner_than_stated :
  RotatingBloomFilter_new 0 10 3 256 3 = Ok fresh_filter
  /\ exists rb1 rb2 rb3,
      rotating_add toy_hash (seconds 10) fresh_filter (u "deadbeef0123") = Ok rb1
      /\ rotating_contains toy_hash (seconds 10) rb1 (u "deadbeef0123") = Ok (rb1, true)
      /\ run_calls toy_hash rb1
           [Contains (seconds 11) (u "deadbeef0123");
            Contains (seconds 21) (u "deadbeef0123")] = Ok rb2
      /\ rotating_contains toy_hash (seconds 31) rb2 (u "deadbeef0123") = Ok (rb3, false)
      /\ seconds 31 - seconds 10
         < seconds (window_count fresh_filter * window_duration fresh_filter).
Proof.
  split; [reflexivity|].
  eexists. eexists. eexists.
  split; [vm_compute; reflexivity|].
  split; [vm_compute; reflexivity|].
  split; [vm_compute; reflexivity|].
  split; [vm_compute; reflexivity|].
  reflexivity.
Qed.

End BloomFacts.

(** ** REQ rate limiting *)

Module RateLimitFacts.
Import RateLimit.

Lemma filter_filter_implied (P Q : Z -> Prop) `{!forall x, Decision (P x)}
    `{!forall x, Decision (Q x)} (l : list Z) :
  (forall x, P x -> Q x) -> filter P (filter Q l) = filter P l.
Proof.
  intros HPQ. induction l as [|x l IH]; [done|].
  rewrite (filter_cons Q). destruct (decide (Q x)) as [HQ|HQ].
  - rewrite !filter_cons. destruct (decide (P x)); by rewrite IH.
  - rewrite filter_cons. destruct (decide (P x)) as [HP|HP]; [by apply HPQ in HP|done].
Qed.

Lemma length_filter_implied (P Q : Z -> Prop) `{!forall x, Decision (P x)}
    `{!forall x, Decision (Q x)} (l : list Z) :
  (forall x, x ∈ l -> P x -> Q x) -> (length (filter P l) <= length (filter Q l))%nat.
Proof.
  induction l as [|x l IH]; intros HPQ; [done|].
  rewrite !filter_cons.
  assert (IH' : (length (filter P l) <= length (filter Q l))%nat).
  { apply IH. intros y Hy. apply HPQ. by right. }
  destruct (decide (P x)) as [HP|HP], (decide (Q x)) as [HQ|HQ]; simpl; try lia.
  exfalso. apply HQ, HPQ; [left|done].
Qed.

Lemma admissions_of_app id adm adm' :
  admissions_of id (adm ++ adm') = admissions_of id adm ++ admissions_of id adm'.
Proof. unfold admissions_of. by rewrite filter_app, fmap_app. Qed.

Lemma in_window_snoc t adm now id :
  in_window t (adm ++ [(now, id)]) =
  in_window t adm ++ (if decide (t - seconds 60 < now /\ now <= t) then [now] else []).
Proof.
  unfold in_window. rewrite fmap_app, filter_app. reflexivity.
Qed.

(** *** The history and the admissions *)

Lemma history_inv_fresh cfg T :
  0 <= max_req_per_min cfg -> history_inv cfg T (RateLimiter_new cfg) [].
Proof.
  intros Hmax. split; [done|]. split; [constructor|]. split; [done|].
  intros t; cbn; lia.
Qed.

(** The clock moves on. *)
Lemma history_inv_later cfg T T' st adm :
  history_inv cfg T st adm -> T <= T' -> history_inv cfg T' st adm.
Proof.
  intros (Hcfg & Hle & HG & HP) HT. split; [done|]. split; [|split; [|done]].
  - eapply Forall_impl; [exact Hle|]. intros a Ha. cbn in *. lia.
  - intros c Hc. apply HG. lia.
Qed.

(** Pruning the history keeps the invariant. *)
Lemma history_inv_prune cfg T st adm now :
  history_inv cfg T st adm -> T <= now ->
  history_inv cfg now (_check_global_limit now st).1 adm
  /\ request_history (_check_global_limit now st).1
     = filter (fun ts => now - seconds 60 < ts) (adm.*1).
Proof.
  intros (Hcfg & Hle & HG & HP) HT. cbn. split.
  - split; [done|]. split; [|split; [|done]].
    + eapply Forall_impl; [exact Hle|]. intros a Ha. cbn in *. lia.
    + intros c Hc. cbn. rewrite filter_filter_implied by (intros; lia).
      apply HG. lia.
  - apply HG. lia.
Qed.

Lemma history_inv_record cfg st adm now id' :
  history_inv cfg now st adm ->
  request_history st = filter (fun ts => now - seconds 60 < ts) (adm.*1) ->
  Z.of_nat (length (request_history st)) < max_req_per_min cfg ->
  history_inv cfg now (record_req now st id') (adm ++ [(now, id')]).
Proof.
  intros (Hcfg & Hle & HG & HP) Hhist Hroom.
  split; [done|]. split; [|split].
  - apply Forall_app. split; [done|]. by repeat constructor.
  - intros c Hc. cbn [record_req request_history].
    rewrite fmap_app, !filter_app. f_equal. by apply HG.
  - intros t. rewrite in_window_snoc, length_app.
    destruct (decide (t - seconds 60 < now /\ now <= t)) as [[H1 H2]|Hout].
    + cbn [length]. rewrite Hhist in Hroom.
      assert (Hmono : (length (in_window t adm)
                       <= length (filter (fun ts => (now - seconds 60 < ts)%Z) (adm.*1)))%nat).
      { unfold in_window. apply length_filter_implied. intros x Hx [Hx1 Hx2]. lia. }
      lia.
    + cbn [length]. specialize (HP t). lia.
Qed.

Lemma step_config now c st : config (step now c st).1 = config st.
Proof.
  destruct c as [id|id|h]; [|done|done].
  unfold step, try_send, can_send_req, _check_global_limit.
  destruct (bool_decide _); cbn [negb]; [|done].
  destruct id as [|b id]; [done|].
  by destruct (_check_message_limit _ _ _).
Qed.

(** Every call keeps the history in step with the admissions. *)
Lemma step_history cfg T st adm now c :
  history_inv cfg T st adm -> T <= now ->
  history_inv cfg now (step now c st).1 (adm ++ (step now c st).2).
Proof.
  intros HInv HT. destruct c as [id'|id'|h].
  - destruct (history_inv_prune cfg T st adm now HInv HT) as [HInv1 Hhist].
    unfold step, try_send, can_send_req.
    destruct (_check_global_limit now st) as [st1 okg] eqn:Hglob.
    assert (Hokg : okg = bool_decide (Z.of_nat (length (request_history st1))
                                      < max_req_per_min cfg)).
    { unfold _check_global_limit in Hglob. injection Hglob as <- <-. cbn.
      by destruct HInv as [-> _]. }
    cbn [fst] in *.
    destruct okg; cbn [negb fst snd]; [|by rewrite app_nil_r].
    symmetry in Hokg. apply bool_decide_eq_true_1 in Hokg.
    destruct id' as [|b id'].
    + cbn [fst snd]. by apply history_inv_record.
    + destruct (_check_message_limit now st1 (b :: id')) eqn:Hmsg; cbn [negb fst snd];
        [|by rewrite app_nil_r].
      by apply history_inv_record.
  - cbn [step fst snd]. rewrite app_nil_r.
    destruct (history_inv_later cfg T now st adm HInv HT) as (Hcfg & Hle & HG & HP).
    by repeat split.
  - cbn [step fst snd]. rewrite app_nil_r.
    destruct (history_inv_later cfg T now st adm HInv HT) as (Hcfg & Hle & HG & HP).
    by repeat split.
Qed.

Lemma run_split trace : forall st adm,
  (run st adm trace).1 = (run st [] trace).1
  /\ (run st adm trace).2 = adm ++ (run st [] trace).2.
Proof.
  induction trace as [|[now c] rest IH]; intros st adm.
  - cbn. by rewrite app_nil_r.
  - cbn [run]. destruct (step now c st) as [st' adm1].
    destruct (IH st' (adm ++ adm1)) as [-> ->].
    destruct (IH st' ([] ++ adm1)) as [-> ->].
    split; [done|]. cbn [app]. by rewrite app_assoc.
Qed.

Lemma run_app trace1 trace2 : forall st adm,
  run st adm (trace1 ++ trace2)
  = run (run st adm trace1).1 (run st adm trace1).2 trace2.
Proof.
  induction trace1 as [|[now c] rest IH]; intros st adm; [done|].
  cbn [app run]. destruct (step now c st) as [st' adm1]. apply IH.
Qed.

Lemma run_history cfg trace : forall T st adm,
  history_inv cfg T st adm -> ordered_from T trace ->
  exists T', history_inv cfg T' (run st adm trace).1 (run st adm trace).2.
Proof.
  induction trace as [|[now c] rest IH]; intros T st adm HInv Hord.
  - by exists T.
  - destruct Hord as [HT Hord]. cbn [run].
    pose proof (step_history cfg T st adm now c HInv HT) as Hstep.
    destruct (step now c st) as [st' adm1]. by apply (IH now).
Qed.

(** *** The record of one id *)

Lemma cap_step cfg k b :
  0 <= max_backoff cfg -> cap cfg k <= b ->
  cap cfg (S k) <= Z.min (max_backoff cfg) (b * 2).
Proof.
  unfold cap. intros Hmax Hb.
  rewrite Nat2Z.inj_succ, Z.pow_succ_r by lia. lia.
Qed.

(** An admission of [id] itself. *)
Lemma rec_inv_record cfg id st times now :
  0 <= max_backoff cfg -> config st = cfg ->
  rec_inv cfg (message_requests st !! id) times ->
  _check_message_limit now st id = true ->
  rec_inv cfg (message_requests (record_req now st id) !! id) (times ++ [now]).
Proof.
  intros Hmaxb Hcfg HR Hcheck. cbn [record_req message_requests].
  rewrite lookup_insert_eq.
  unfold _check_message_limit in Hcheck. rewrite Hcfg in *.
  destruct (message_requests st !! id) as [r|] eqn:Hr; cbn [rec_inv] in *.
  - destruct HR as (H0 & Hlast & Hcount & Hcap & Hnth & Hlen).
    case_bool_decide as Hretry; [done|].
    apply bool_decide_eq_true_1 in Hcheck.
    assert (Hpos : (0 < length times)%nat).
    { destruct times; [done|simpl; lia]. }
    cbn. split; [by rewrite lookup_app_l|].
    split; [by rewrite last_snoc|]. split; [rewrite length_app; simpl; lia|].
    split.
    { rewrite length_app. simpl.
      replace (length times + 1 - 1)%nat with (S (length times - 1)) by lia.
      by apply cap_step. }
    split.
    { intros n an Hn. apply lookup_app_Some in Hn as [Hn|[Hge Hn]]; [by apply Hnth|].
      destruct (n - length times)%nat eqn:Hk; [|done]. injection Hn as <-.
      assert (n = length times) as -> by lia.
      rewrite last_lookup in Hlast.
      pose proof (Hnth _ _ Hlast) as Hprev.
      replace (length times) with (S (pred (length times))) at 1 by lia.
      cbn [backoff_sum]. fold (cap cfg (pred (length times))).
      replace (pred (length times)) with (length times - 1)%nat in * by lia.
      unfold seconds in *. lia. }
    rewrite length_app. simpl. lia.
  - rewrite HR. cbn. split; [done|]. split; [done|]. split; [done|].
    split; [unfold cap; cbn; lia|]. split; [|lia].
    intros [|n] an Hn; [|done]. injection Hn as <-. cbn. unfold seconds. lia.
Qed.

Lemma admissions_of_one id now id' :
  admissions_of id [(now, id')] = if decide (id' = id) then [now] else [].
Proof.
  unfold admissions_of. rewrite filter_cons. cbn [snd].
  by destruct (decide (id' = id)).
Qed.

(** A call that does not remove the record of [id] keeps what the record
    says of the admissions of [id]. *)
Lemma step_record cfg id st times now c :
  0 <= max_backoff cfg -> id <> [] -> config st = cfg ->
  rec_inv cfg (message_requests st !! id) times ->
  (is_Some (message_requests st !! id)
   -> is_Some (message_requests (step now c st).1 !! id)) ->
  rec_inv cfg (message_requests (step now c st).1 !! id)
    (times ++ admissions_of id (step now c st).2).
Proof.
  intros Hmaxb Hid Hcfg HR Hkeep. destruct c as [id'|id'|h].
  - clear Hkeep. unfold step, try_send, can_send_req, _check_global_limit.
    set (st1 := mkRateLimiter _ _ _).
    assert (Hreq : message_requests st1 = message_requests st) by done.
    assert (Hcfg1 : config st1 = cfg) by done.
    destruct (bool_decide _); cbn [negb fst snd];
      [|cbn [admissions_of]; by rewrite app_nil_r, Hreq].
    destruct id' as [|b id'].
    + cbn [fst snd]. rewrite admissions_of_one, decide_False by congruence.
      rewrite app_nil_r. cbn [record_req message_requests].
      rewrite lookup_insert_ne by congruence. done.
    + destruct (_check_message_limit now st1 (b :: id')) eqn:Hmsg; cbn [negb fst snd];
        [|cbn [admissions_of]; by rewrite app_nil_r, Hreq].
      rewrite admissions_of_one.
      destruct (decide (b :: id' = id)) as [<-|Hne].
      * apply rec_inv_record; [done|done|by rewrite Hreq|done].
      * rewrite app_nil_r. cbn [record_req message_requests].
        by rewrite lookup_insert_ne.
  - cbn [step fst snd] in *. cbn [admissions_of]. rewrite app_nil_r.
    cbn [mark_success message_requests] in *.
    destruct (decide (id' = id)) as [->|Hne].
    + rewrite lookup_delete_eq in *.
      destruct (message_requests st !! id) as [r|]; [|done].
      exfalso. by destruct Hkeep as [? ?].
    + by rewrite lookup_delete_ne.
  - cbn [step fst snd] in *. cbn [admissions_of]. rewrite app_nil_r.
    cbn [cleanup_old_records message_requests] in *.
    destruct (message_requests st !! id) as [r|] eqn:Hr.
    + destruct Hkeep as [r' Hr']; [by eexists|]. rewrite Hr'.
      apply map_lookup_filter_Some in Hr' as [Hr' _]. by rewrite Hr in Hr'; injection Hr' as <-.
    + assert (filter (fun kv => now - seconds (h * 3600) < last_attempt (kv.2))
                (message_requests st) !! id = None) as ->; [|done].
      apply map_lookup_filter_None. by left.
Qed.

Lemma run_record cfg id trace : forall st times,
  0 <= max_backoff cfg -> id <> [] -> config st = cfg ->
  rec_inv cfg (message_requests st !! id) times ->
  keeps_record id st trace ->
  rec_inv cfg (message_requests (run st [] trace).1 !! id)
    (times ++ admissions_of id (run st [] trace).2).
Proof.
  induction trace as [|[now c] rest IH]; intros st times Hmaxb Hid Hcfg HR Hkeep.
  - cbn. by rewrite app_nil_r.
  - destruct Hkeep as [Hkeep Hrest]. cbn [run].
    pose proof (step_record cfg id st times now c Hmaxb Hid Hcfg HR Hkeep) as Hstep.
    pose proof (step_config now c st) as Hc.
    destruct (step now c st) as [st' adm1]. cbn [fst snd app] in *.
    destruct (run_split rest st' adm1) as [-> ->].
    rewrite admissions_of_app, app_assoc.
    apply IH; [done|done|congruence|done|done].
Qed.

(** Once the record of an id has reached [max_retries], nothing admits
    that id as long as the record stays. *)
Lemma run_blocked id trace : forall st r,
  id <> [] ->
  message_requests st !! id = Some r ->
  max_retries (config st) <= attempt_count r ->
  keeps_record id st trace ->
  admissions_of id (run st [] trace).2 = [].
Proof.
  induction trace as [|[now c] rest IH]; intros st r Hid Hr Hmax Hkeep; [done|].
  destruct Hkeep as [Hkeep Hrest]. cbn [run].
  assert (Hstep : message_requests (step now c st).1 !! id = Some r
                  /\ admissions_of id (step now c st).2 = []).
  { destruct c as [id'|id'|h].
    - clear Hkeep. unfold step, try_send, can_send_req, _check_global_limit.
      set (st1 := mkRateLimiter _ _ _).
      destruct (bool_decide _); cbn [negb fst snd]; [|done].
      destruct id' as [|b id'].
      + cbn [fst snd]. rewrite admissions_of_one, decide_False by congruence.
        cbn [record_req message_requests]. by rewrite lookup_insert_ne by congruence.
      + destruct (_check_message_limit now st1 (b :: id')) eqn:Hmsg; cbn [negb fst snd];
          [|done].
        assert (Hne : b :: id' <> id).
        { intros <-. unfold _check_message_limit, st1 in Hmsg.
          cbn [message_requests config] in Hmsg. rewrite Hr in Hmsg.
          by rewrite bool_decide_eq_true_2 in Hmsg. }
        rewrite admissions_of_one, decide_False by done.
        cbn [record_req message_requests]. by rewrite lookup_insert_ne.
    - cbn [step fst snd mark_success message_requests] in *. split; [|done].
      destruct Hkeep as [r' Hr']; [by eexists|].
      destruct (decide (id' = id)) as [->|Hne].
      + by rewrite lookup_delete_eq in Hr'.
      + by rewrite lookup_delete_ne.
    - cbn [step fst snd cleanup_old_records message_requests] in *. split; [|done].
      destruct Hkeep as [r' Hr']; [by eexists|]. rewrite Hr'.
      apply map_lookup_filter_Some in Hr' as [Hr' _]. congruence. }
  destruct Hstep as [Hr' Hadm].
  pose proof (step_config now c st) as Hc.
  destruct (step now c st) as [st' adm1]. cbn [fst snd app] in *.
  destruct (run_split rest st' adm1) as [_ ->].
  rewrite admissions_of_app, Hadm. cbn [app].
  apply (IH st' r); [done|done|by rewrite Hc|done].
Qed.

Lemma run_config trace : forall st adm, config (run st adm trace).1 = config st.
Proof.
  induction trace as [|[now c] rest IH]; intros st adm; [done|].
  cbn [run]. pose proof (step_config now c st) as Hc.
  destruct (step now c st) as [st' adm1]. rewrite IH. exact Hc.
Qed.

(** A REQ never removes a record. *)
Lemma keeps_record_Req id trace : forall st,
  Forall (fun e => exists id', e.2 = Req id') trace -> keeps_record id st trace.
Proof.
  induction trace as [|[now c] rest IH]; intros st Hall; [done|].
  apply Forall_cons in Hall as [[id' Hc] Hall]. cbn [snd] in Hc. subst c.
  split; [|by apply IH].
  unfold step, try_send, can_send_req, _check_global_limit.
  set (st1 := mkRateLimiter _ _ _).
  assert (Hrec : forall id'', is_Some (message_requests st !! id) ->
                   is_Some (message_requests (record_req now st1 id'') !! id)).
  { intros id'' Hs. cbn [record_req message_requests].
    destruct (decide (id'' = id)) as [->|Hne];
      [rewrite lookup_insert_eq; by eexists|by rewrite lookup_insert_ne]. }
  destruct (bool_decide _); cbn [negb fst snd]; [|done].
  destruct id' as [|b id']; [by apply Hrec|].
  destruct (_check_message_limit now st1 (b :: id')); cbn [negb fst snd]; [|done].
  by apply Hrec.
Qed.

(** C6, as the code has it.  Take any sequence of calls on a limiter that
    starts empty, in the order of the clock: a REQ that comes up and is
    sent when [can_send_req] admits it, [mark_success], or
    [cleanup_old_records].  The 60 seconds that end at any instant hold at
    most [max_req_per_min] admissions.  For a message id, look at a
    stretch [post] of the calls during which no call removes the record of
    the id.  If the id has no record when the stretch begins, the [n]-th
    admission of the stretch after its first comes no sooner than the sum
    over [i < n] of [min(max_backoff, initial_backoff * 2^i)] seconds after
    the first, and the stretch admits the id at most [max_retries] times
    (once, if that is less).  If the id has a record whose attempt count
    has reached [max_retries], the stretch does not admit it. *)
Theorem rate_limit_bounds (cfg : RateLimitConfig) (id : str) (T0 : Z)
    (pre post : list (Z * call)) :
  0 <= max_req_per_min cfg -> 0 <= max_backoff cfg -> id <> [] ->
  ordered_from T0 (pre ++ post) ->
  let start := (run (RateLimiter_new cfg) [] pre).1 in
  let admitted := (run (RateLimiter_new cfg) [] (pre ++ post)).2 in
  let times := admissions_of id (run start [] post).2 in
  (forall t, Z.of_nat (length (in_window t admitted)) <= max_req_per_min cfg)
  /\ admitted = (run (RateLimiter_new cfg) [] pre).2 ++ (run start [] post).2
  /\ (keeps_record id start post ->
      match message_requests start !! id with
      | None =>
          (forall n a0 an,
              times !! 0%nat = Some a0 -> times !! n = Some an ->
              a0 + seconds (backoff_sum cfg n) <= an)
          /\ Z.of_nat (length times) <= Z.max 1 (max_retries cfg)
      | Some r => max_retries cfg <= attempt_count r -> times = []
      end).
Proof.
  intros Hmax Hmaxb Hid Hord start admitted times.
  split; [|split].
  - destruct (run_history cfg (pre ++ post) T0 (RateLimiter_new cfg) []
                (history_inv_fresh cfg T0 Hmax) Hord) as (T' & _ & _ & _ & HP).
    exact HP.
  - unfold admitted. rewrite run_app.
    by destruct (run_split post (run (RateLimiter_new cfg) [] pre).1
                   (run (RateLimiter_new cfg) [] pre).2) as [_ ->].
  - intros Hkeep.
    assert (Hcfg : config start = cfg) by (unfold start; by rewrite run_config).
    destruct (message_requests start !! id) as [r|] eqn:Hr.
    + intros Hblocked. apply (run_blocked id post start r); [done|done| |done].
      by rewrite Hcfg.
    + pose proof (run_record cfg id post start [] Hmaxb Hid Hcfg) as HR.
      rewrite Hr in HR. specialize (HR eq_refl Hkeep). cbn [app] in HR.
      fold times in HR.
      destruct (message_requests (run start [] post).1 !! id) as [r'|];
        cbn [rec_inv] in HR.
      * destruct HR as (Hfirst & _ & _ & _ & Hnth & Hlen). split; [|done].
        intros n a0 an H0 Hn. rewrite H0 in Hfirst. injection Hfirst as ->.
        by apply Hnth.
      * rewrite HR. split; [done|cbn; lia].
Qed.

Lemma rate_limit_bounds_witness :
  admissions_of demo_id (run (RateLimiter_new default_config) [] demo_trace).2
    = map seconds [0; 30; 90; 210]
  /\ (forall t,
        Z.of_nat (length (in_window t (run (RateLimiter_new default_config) []
                                          demo_trace).2)) <= 6)
  /\ Z.of_nat (length (admissions_of demo_id
                         (run (RateLimiter_new default_config) [] demo_trace).2)) <= 4.
Proof.
  destruct (rate_limit_bounds default_config demo_id 0 [] demo_trace)
    as (Hglobal & _ & Hrec).
  - cbn. lia.
  - cbn. lia.
  - discriminate.
  - cbn. unfold seconds. lia.
  - split; [vm_compute; reflexivity|]. split; [exact Hglobal|].
    destruct Hrec as [_ Hcount]; [|exact Hcount].
    apply keeps_record_Req. unfold demo_trace.
    apply Forall_fmap, Forall_forall. intros t _. by exists demo_id.
Defined.

(** C6, as stated, fails.  With the default configuration an id is
    admitted four times, which brings its attempt count to [max_retries],
    and a later REQ for it is refused.  Then the message arrives and
    [mark_success] removes the record, or a day passes and
    [cleanup_old_records] removes it: the next REQ for the id is admitted,
    a fifth time, and its backoff starts again at [initial_backoff]. *)
Lemma admitted_again_after_removal :
  admissions_of demo_id (run (RateLimiter_new default_config) [] demo_trace).2
    = map seconds [0; 30; 90; 210]
  /\ attempt_count
       <$> message_requests (run (RateLimiter_new default_config) [] demo_trace).1
           !! demo_id = Some (max_retries default_config)
  /\ admissions_of demo_id
       (run (RateLimiter_new default_config) [] (demo_trace ++ demo_success)).2
     = map seconds [0; 30; 90; 210; 1002]
  /\ admissions_of demo_id
       (run (RateLimiter_new default_config) [] (demo_trace ++ demo_cleanup)).2
     = map seconds [0; 30; 90; 210; 90001]
  /\ get_backoff (run (RateLimiter_new default_config) []
                    (demo_trace ++ demo_success)).1 demo_id
     = Some (initial_backoff default_config).
Proof.
  split; [vm_compute; reflexivity|]. split; [vm_compute; reflexivity|].
  split; [vm_compute; reflexivity|]. split; [vm_compute; reflexivity|].
  vm_compute. reflexivity.
Qed.

End RateLimitFacts.

(** ** The orchestrator *)

Module DaemonFacts.
Import Text Frames Codec Fragmentation Database Daemon Bloom BloomFacts CodecFacts.

Section Hash.

Variable mmh3_hash : str -> Z -> Z.

Context {ucd : UnicodeData}.

Abbreviation handle_msg_frame := (handle_msg_frame mmh3_hash).
Abbreviation handle_frag_frame := (handle_frag_frame mmh3_hash).
Abbreviation handle_frame := (handle_frame mmh3_hash).
Abbreviation ingest := (ingest mmh3_hash).

Lemma sqlite_int_small n : - 2 ^ 63 <= n < 2 ^ 63 -> sqlite_int n = Ok n.
Proof.
  intros Hn. unfold sqlite_int.
  destruct (Z.leb_spec (- 2 ^ 63) n); [|lia]. destruct (Z.ltb_spec n (2 ^ 63)); [|lia]. done.
Qed.

Lemma sqlite_int_big n : ~ (- 2 ^ 63 <= n < 2 ^ 63) -> sqlite_int n = Raise OverflowError.
Proof.
  intros Hn. unfold sqlite_int.
  destruct (Z.leb_spec (- 2 ^ 63) n); destruct (Z.ltb_spec n (2 ^ 63)); first [done | lia].
Qed.



(** A MSG whose id is in the seen cache changes nothing. *)
Lemma handle_msg_frame_dup now delay st m :
  is_Some (seen_cache (database st) !! id m) ->
  handle_msg_frame now delay st m = (st, Ok tt).
Proof.
  intros [row Hrow]. unfold Daemon.handle_msg_frame, mark_seen_if_new.
  cbn [sqlite_opt_int bind]. by rewrite Hrow.
Qed.

(** No handler removes an id from the seen cache, and [handle_msg_frame]
    leaves the id of its frame there, however it ends. *)
Lemma handle_msg_frame_seen now delay st m k :
  is_Some (seen_cache (database st) !! k) \/ k = id m ->
  is_Some (seen_cache (database (handle_msg_frame now delay st m).1) !! k).
Proof.
  intros Hk.
  destruct (seen_cache (database st) !! id m) as [row|] eqn:Hrow.
  { rewrite handle_msg_frame_dup by (by eexists). cbn [fst].
    destruct Hk as [?| ->]; [done|by eexists]. }
  assert (Hins : forall (db : gmap str seen_row) row',
            is_Some (seen_cache (database st) !! k) \/ k = id m ->
            (forall k', is_Some (seen_cache (database st) !! k') \/ k' = id m ->
                        is_Some (db !! k')) ->
            is_Some (<[id m := row']> db !! k)).
  { intros db row' _ Hdb. destruct (decide (k = id m)) as [->|Hne].
    - rewrite lookup_insert_eq. by eexists.
    - rewrite lookup_insert_ne by done. by apply Hdb. }
  assert (H1 : forall k', is_Some (seen_cache (database st) !! k') \/ k' = id m ->
             is_Some (<[id m := mkSeenRow None (unix now) false]>
                        (seen_cache (database st)) !! k')).
  { intros k' Hk'. destruct (decide (k' = id m)) as [->|Hne].
    - rewrite lookup_insert_eq. by eexists.
    - rewrite lookup_insert_ne by done. by destruct Hk'. }
  unfold Daemon.handle_msg_frame, mark_seen_if_new. cbn [sqlite_opt_int bind].
  rewrite Hrow. cbn [negb with_database database].
  destruct (MSG_to_dict m) as [raw|e]; [|cbn; by apply H1].
  unfold save_message. cbn [m_priority m_id].
  destruct (sqlite_int (priority m)) as [p|e]; cbn [bind]; [|cbn; by apply H1].
  destruct (insert_allowed _ _); cbn [negb with_database database fragmenter bloom_filter
                                        notifications]; [|cbn; by apply H1].
  destruct (rotating_add _ _ _ _) as [bloom|e]; [|cbn; by apply H1].
  unfold is_seen. cbn [sqlite_opt_int bind seen_cache].
  rewrite lookup_insert_eq. cbn [fragment_idx rebroadcast].
  rewrite bool_decide_eq_true_2 by done. cbn [andb].
  destruct (calculate_rebroadcast_delay _ _) as [d|e]; [|cbn; by apply H1].
  unfold queue_transmission. cbn zeta.
  destruct (sqlite_int (priority m)) as [p'|e]; cbn [bind]; [|cbn; by apply H1].
  destruct (sqlite_int (unix now + d)) as [s|e]; cbn [bind]; [|cbn; by apply H1].
  unfold mark_seen. cbn [sqlite_opt_int bind]. cbn.
  by apply Hins.
Qed.

Lemma handle_frag_frame_seen now delay st f k :
  is_Some (seen_cache (database st) !! k) ->
  is_Some (seen_cache (database (handle_frag_frame now delay st f).1) !! k).
Proof.
  intros Hk. unfold Daemon.handle_frag_frame.
  destruct (is_seen _ _ _ _) as [[|]|e]; [done| |done].
  unfold mark_seen. cbn [sqlite_opt_int].
  destruct (sqlite_int (idx f)) as [i|e]; cbn [bind]; [|done].
  assert (H1 : is_Some (<[message_id f := mkSeenRow (Some i) (unix now) false]>
                          (seen_cache (database st)) !! k)).
  { destruct (decide (k = message_id f)) as [->|Hne].
    - rewrite lookup_insert_eq. by eexists.
    - by rewrite lookup_insert_ne. }
  unfold save_fragment.
  destruct (sqlite_int (idx f)) as [i'|e]; cbn [bind]; [|done].
  destruct (sqlite_int (total f)) as [t|e]; cbn [bind]; [|done].
  cbn [fragments with_database database fragmenter bloom_filter notifications].
  destruct (fragments (database st) !! _);
    (destruct (add_fragment now (fragmenter st) f) as [fr [[is_new [msg|]]|e]];
     [apply handle_msg_frame_seen; left; exact H1|exact H1|exact H1]).
Qed.

Lemma handle_frame_seen now delay st frame k :
  is_Some (seen_cache (database st) !! k) ->
  is_Some (seen_cache (database (handle_frame now delay st frame)) !! k).
Proof.
  intros Hk. destruct frame as [m|f|s|r]; cbn [Daemon.handle_frame]; [| |done|done].
  - apply handle_msg_frame_seen. by left.
  - by apply handle_frag_frame_seen.
Qed.

Lemma ingest_seen events : forall st k,
  is_Some (seen_cache (database st) !! k) ->
  is_Some (seen_cache (database (ingest st events)) !! k).
Proof.
  induction events as [|[[now delay] frame] rest IH]; intros st k Hk; [done|].
  cbn [Daemon.ingest fold_left]. apply IH. by apply handle_frame_seen.
Qed.

Lemma ingest_msgs_seen events : forall st m,
  m ∈ map (fun e : Z * Z * MSG => e.2) events ->
  is_Some (seen_cache (database (ingest st (msg_events events))) !! id m).
Proof.
  induction events as [|[[now delay] m'] rest IH]; intros st m Hin.
  - by apply elem_of_nil in Hin.
  - cbn [msg_events map Daemon.ingest fold_left Daemon.handle_frame snd] in *.
    apply elem_of_cons in Hin as [->|Hin].
    + apply ingest_seen. apply handle_msg_frame_seen. by right.
    + by apply IH.
Qed.

(** C1.  A MSG that replies to a message which is not stored yet is lost:
    [mark_seen_if_new] records its id, [save_message] then returns [False]
    for the foreign key on [reply_to] (a row that is no duplicate), and
    the handler returns without a row, a notification or a queued
    rebroadcast.  Whatever is ingested afterwards, the parent included, a
    later copy of the reply finds its id in the seen cache and is dropped
    as a duplicate. *)
Theorem reply_before_parent_is_lost (st : RFMPDaemon) (now delay : Z) (m : MSG) (r : str) :
  MSG_valid m ->
  reply_to m = Some r -> r <> id m ->
  messages (database st) !! r = None ->
  seen_cache (database st) !! id m = None ->
  let st1 := (handle_msg_frame now delay st m).1 in
  (handle_msg_frame now delay st m).2 = Ok tt
  /\ seen_cache (database st1)
     = <[id m := mkSeenRow None (unix now) false]> (seen_cache (database st))
  /\ messages (database st1) = messages (database st)
  /\ notifications st1 = notifications st
  /\ transmission_queue (database st1) = transmission_queue (database st)
  /\ bloom_filter st1 = bloom_filter st
  /\ forall events now' delay',
       handle_msg_frame now' delay' (ingest st1 events) m = (ingest st1 events, Ok tt).
Proof.
  intros Hvalid Hreply Hself Hparent Hnew st1.
  assert (Hrun : handle_msg_frame now delay st m
                 = (with_database st
                      (mkDatabase (messages (database st)) (fragments (database st))
                         (<[id m := mkSeenRow None (unix now) false]>
                            (seen_cache (database st)))
                         (transmission_queue (database st)) (next_tx_id (database st))),
                    Ok tt)).
  { unfold Daemon.handle_msg_frame, mark_seen_if_new. cbn [sqlite_opt_int bind].
    rewrite Hnew. cbn [negb with_database database].
    rewrite MSG_to_dict_valid by done.
    unfold save_message. cbn [m_priority].
    rewrite sqlite_int_small by (pose proof (MSG_valid_priority m Hvalid); lia).
    cbn [bind]. unfold insert_allowed. cbn [m_id m_reply_to messages].
    rewrite Hreply, Hparent.
    rewrite (bool_decide_eq_false_2 (is_Some None \/ r = id m))
      by (intros [[? ?]|?]; done).
    rewrite andb_false_r. done. }
  subst st1. rewrite Hrun. cbn [fst snd with_database database seen_cache messages
                                  notifications transmission_queue bloom_filter].
  do 6 (split; [done|]).
  intros events now' delay'. apply handle_msg_frame_dup. apply ingest_seen.
  cbn [database with_database seen_cache]. rewrite lookup_insert_eq. by eexists.
Qed.

(** A fragment whose reassembled MSG carries the id of the fragments is
    never notified nor stored: marking the fragment has put that id in the
    seen cache, and the MSG handler takes it for a duplicate. *)
Lemma handle_frag_frame_drops now delay st (f : FRAG) :
  (forall is_new m, (add_fragment now (fragmenter st) f).2 = Ok (is_new, Some m) ->
                    id m = message_id f) ->
  let st' := (handle_frag_frame now delay st f).1 in
  notifications st' = notifications st
  /\ messages (database st') = messages (database st).
Proof.
  intros Hid st'. subst st'. unfold Daemon.handle_frag_frame.
  destruct (is_seen _ _ _ _) as [[|]|e]; [done| |done].
  unfold mark_seen. cbn [sqlite_opt_int].
  destruct (sqlite_int (idx f)) as [i|e]; cbn [bind]; [|done].
  unfold save_fragment.
  destruct (sqlite_int (idx f)) as [i'|e]; cbn [bind]; [|done].
  destruct (sqlite_int (total f)) as [t|e]; cbn [bind]; [|done].
  cbn [fragments with_database database fragmenter bloom_filter notifications].
  destruct (add_fragment now (fragmenter st) f) as [fr r] eqn:Hadd.
  cbn [snd] in Hid.
  destruct (fragments (database st) !! _);
    (destruct r as [[is_new [m|]]|e]; [|done|done]);
    specialize (Hid is_new m eq_refl);
    (rewrite handle_msg_frame_dup;
     [done|cbn [database seen_cache]; rewrite Hid, lookup_insert_eq; by eexists]).
Qed.

End Hash.

(** C2.  The three fragments of a long MSG, received in the order 2, 0, 1
    by a fresh daemon, whatever the hash function, the Bloom filter and
    the interpreter's Unicode tables: the last one completes the
    reassembly, the MSG comes back whole, and yet no notification is
    emitted and no row is stored in [messages]. *)
Theorem fragments_reassembled_but_dropped (mmh3_hash : str -> Z -> Z)
    (ucd : UnicodeData) (bloom : RotatingBloomFilter) :
  let st := ingest mmh3_hash (RFMPDaemon_new 200 bloom) (frag_events fragments_201) in
  (idx <$> long_fragments = [0; 1; 2]
   /\ FrameParser.encode (FrameMSG msg_long) = Ok (concat (data <$> long_fragments)))
  /\ (exists st2 f1,
        fragments_201 !! 2%nat = Some (seconds 3, 2, f1)
        /\ st2 = ingest mmh3_hash (RFMPDaemon_new 200 bloom)
                   (frag_events (take 2 fragments_201))
        /\ (add_fragment (seconds 3) (fragmenter st2) f1).2 = Ok (true, Some msg_long))
  /\ notifications st = []
  /\ messages (database st) = ∅
  /\ size (fragments (database st)) = 3%nat.
Proof.
  intros st. split; [split; vm_compute; reflexivity|]. split.
  - eexists. eexists. split; [vm_compute; reflexivity|]. split; [reflexivity|].
    vm_compute. reflexivity.
  - split; [vm_compute; reflexivity|]. split; [vm_compute; reflexivity|].
    vm_compute. reflexivity.
Qed.

Lemma reply_before_parent_is_lost_witness :
  let st := RFMPDaemon_new 200 fresh_filter in
  let st1 := (Daemon.handle_msg_frame toy_hash (seconds 1) 2 st msg_reply).1 in
  (Daemon.handle_msg_frame toy_hash (seconds 1) 2 st msg_reply).2 = Ok tt
  /\ seen_cache (database st1)
     = <[id msg_reply := mkSeenRow None (unix (seconds 1)) false]> (seen_cache (database st))
  /\ messages (database st1) = messages (database st)
  /\ notifications st1 = notifications st
  /\ transmission_queue (database st1) = transmission_queue (database st)
  /\ bloom_filter st1 = bloom_filter st
  /\ forall events now' delay',
       Daemon.handle_msg_frame toy_hash now' delay'
         (Daemon.ingest (ucd := unicode_excerpt) toy_hash st1 events) msg_reply
       = (Daemon.ingest (ucd := unicode_excerpt) toy_hash st1 events, Ok tt).
Proof.
  intros st.
  apply (reply_before_parent_is_lost toy_hash (ucd := unicode_excerpt) st (seconds 1) 2
           msg_reply (u "aaaaaaaaaaaa")).
  - reflexivity.
  - reflexivity.
  - discriminate.
  - apply lookup_empty.
  - apply lookup_empty.
Defined.

(** C1, as stated, fails.  A reply arrives before the message it replies
    to, then that message, then the reply again: of the two distinct ids
    only one is notified and stored.  The row of the reply was refused
    although no row had its id, and its id is in the seen cache. *)
Lemma dedup_exactness_fails_on_early_reply :
  let events := [(seconds 1, 2, msg_reply); (seconds 2, 2, msg_parent);
                 (seconds 3, 2, msg_reply)] in
  let st := Daemon.ingest (ucd := unicode_excerpt) toy_hash
              (RFMPDaemon_new 200 fresh_filter) (msg_events events) in
  MSG_valid msg_reply /\ MSG_valid msg_parent
  /\ size (list_to_set [id msg_reply; id msg_parent; id msg_reply] : gset str) = 2%nat
  /\ length (notifications st) = 1%nat
  /\ size (messages (database st)) = 1%nat
  /\ length (transmission_queue (database st)) = 1%nat
  /\ messages (database st) !! id msg_reply = None
  /\ is_Some (messages (database st) !! id msg_parent)
  /\ is_Some (seen_cache (database st) !! id msg_reply).
Proof.
  cbn zeta. split; [reflexivity|]. split; [reflexivity|].
  split; [vm_compute; reflexivity|]. split; [vm_compute; reflexivity|].
  split; [vm_compute; reflexivity|]. split; [vm_compute; reflexivity|].
  split; [vm_compute; reflexivity|]. split; vm_compute; by eexists.
Qed.

End DaemonFacts.
(** ** The transmission queue *)

Module DatabaseFacts.
Import Database.

Lemma before_irrefl a : before a a = false.
Proof. unfold before. apply orb_false_intro; [lia|]. apply andb_false_intro2; lia. Qed.

Lemma before_spec a b :
  before a b = true <->
  tx_priority b < tx_priority a
  \/ (tx_priority a = tx_priority b /\ scheduled_at a < scheduled_at b).
Proof.
  unfold before. rewrite orb_true_iff, andb_true_iff.
  rewrite !Z.ltb_lt, Z.eqb_eq. tauto.
Qed.

Lemma not_before_spec a b :
  before a b = false <->
  tx_priority a <= tx_priority b
  /\ (tx_priority a = tx_priority b -> scheduled_at b <= scheduled_at a).
Proof.
  rewrite <- not_true_iff_false, before_spec. lia.
Qed.

(** [LIMIT 1] of the ordered rows is a row that no other row precedes. *)
Lemma first_row_spec rows r :
  first_row rows = Some r ->
  r ∈ rows /\ forall r', r' ∈ rows -> before r' r = false.
Proof.
  revert r. induction rows as [|x rest IH]; intros r; [done|].
  cbn [first_row]. destruct (first_row rest) as [b|] eqn:Hb.
  - destruct (IH b eq_refl) as [Hin Hmin].
    destruct (before b x) eqn:Hbx; intros [= <-].
    + split; [by right|]. intros r' [->|Hr']%elem_of_cons; [|by apply Hmin].
      apply not_before_spec. apply before_spec in Hbx. lia.
    + split; [by left|]. intros r' [->|Hr']%elem_of_cons; [apply before_irrefl|].
      specialize (Hmin _ Hr').
      apply not_before_spec. apply not_before_spec in Hmin, Hbx. lia.
  - intros [= <-]. destruct rest as [|y rest'].
    + split; [by left|]. intros r' ->%list_elem_of_singleton. apply before_irrefl.
    + cbn [first_row] in Hb. destruct (first_row rest'); [destruct (before _ _)|]; done.
Qed.

Lemma first_row_None rows : first_row rows = None -> rows = [].
Proof.
  destruct rows as [|x rest]; [done|]. cbn [first_row].
  destruct (first_row rest); [destruct (before _ _)|]; done.
Qed.

(** The [SELECT]: a row is returned exactly when one is eligible, and it
    is first in [priority DESC, scheduled_at ASC]. *)
Lemma select_next_spec now db r0 :
  r0 ∈ transmission_queue db -> eligible now r0 = true ->
  exists row,
    select_next now db = Some row
    /\ row ∈ transmission_queue db
    /\ eligible now row = true
    /\ forall r', r' ∈ transmission_queue db -> eligible now r' = true ->
         tx_priority r' <= tx_priority row
         /\ (tx_priority r' = tx_priority row -> scheduled_at row <= scheduled_at r').
Proof.
  intros Hin Hel. unfold select_next.
  destruct (first_row _) as [row|] eqn:Hf.
  - exists row. split; [done|].
    apply first_row_spec in Hf as [[Hrow Hrel]%list_elem_of_filter Hmin].
    do 2 (split; [done|]). intros r' Hr' Hel'.
    assert (before r' row = false) as Hb
      by (apply Hmin, list_elem_of_filter; done).
    apply not_before_spec in Hb. lia.
  - apply first_row_None in Hf.
    assert (r0 ∈ filter (fun r => eligible now r = true) (transmission_queue db)) as H
      by (apply list_elem_of_filter; done).
    rewrite Hf in H. by apply elem_of_nil in H.
Qed.

Lemma select_next_eligible now db row :
  select_next now db = Some row ->
  row ∈ transmission_queue db /\ status row = pending.
Proof.
  unfold select_next. intros [[Hel Hin]%list_elem_of_filter _]%first_row_spec.
  split; [done|]. unfold eligible in Hel.
  apply andb_true_iff in Hel as [Hs _]. by apply bool_decide_eq_true_1 in Hs.
Qed.

Lemma tx_id_mark id r : tx_id (mark_transmitting id r) = tx_id r.
Proof. unfold mark_transmitting. by destruct (_ =? _). Qed.

Lemma status_mark id r :
  status r <> pending -> status (mark_transmitting id r) <> pending.
Proof. unfold mark_transmitting. by destruct (_ =? _). Qed.

Lemma status_mark_same r : status (mark_transmitting (tx_id r) r) = transmitting.
Proof. unfold mark_transmitting. by rewrite Z.eqb_refl. Qed.

Lemma mark_other id r : tx_id r <> id -> mark_transmitting id r = r.
Proof. unfold mark_transmitting. intros H. by destruct (Z.eqb_spec (tx_id r) id). Qed.

Lemma queue_wf_update db id : queue_wf db -> queue_wf (update_transmitting db id).
Proof.
  intros [Hnd Hlt]. unfold queue_wf, update_transmitting; cbn.
  split.
  - rewrite <- list_fmap_compose.
    erewrite list_fmap_ext; [exact Hnd|]. intros i x _. cbn. apply tx_id_mark.
  - apply Forall_fmap. eapply Forall_impl; [exact Hlt|].
    intros r Hr. cbn. by rewrite tx_id_mark.
Qed.

Lemma queue_transmission_Ok now db ft data priority delay db' :
  queue_transmission now db ft data priority delay = Ok db' ->
  db' = mkDatabase (messages db) (fragments db) (seen_cache db)
          (transmission_queue db
           ++ [mkTxRow (next_tx_id db) ft data priority (now + delay) now 0 pending])
          (next_tx_id db + 1).
Proof.
  unfold queue_transmission, sqlite_int. cbn zeta.
  destruct (_ && _); cbn [bind]; [|done].
  destruct (_ && _); cbn [bind]; [by intros [= <-]|done].
Qed.

Lemma queue_wf_queue now db ft data priority delay db' :
  queue_transmission now db ft data priority delay = Ok db' ->
  queue_wf db -> queue_wf db'.
Proof.
  intros ->%queue_transmission_Ok [Hnd Hlt]. unfold queue_wf; cbn.
  split.
  - rewrite fmap_app. apply NoDup_app. split; [done|]. split; [|apply NoDup_singleton].
    intros i Hi ->%list_elem_of_singleton.
    apply list_elem_of_fmap in Hi as (r & Hr & Hin).
    rewrite Forall_forall in Hlt. specialize (Hlt _ Hin). cbn in Hr. lia.
  - apply Forall_app. split.
    + eapply Forall_impl; [exact Hlt|]. intros r Hr. cbn in *. lia.
    + apply Forall_singleton. cbn. lia.
Qed.

Lemma queue_wf_empty : queue_wf empty.
Proof. split; cbn; [apply NoDup_nil_2 | apply Forall_nil_2]. Qed.

(** The primary key decides the row. *)
Lemma queue_wf_inj db r r' :
  queue_wf db -> r ∈ transmission_queue db -> r' ∈ transmission_queue db ->
  tx_id r = tx_id r' -> r = r'.
Proof.
  intros [Hnd _] Hr Hr' Heq. revert Hnd Hr Hr'.
  induction (transmission_queue db) as [|x l IH]; [by intros _ ?%elem_of_nil|].
  rewrite fmap_cons, NoDup_cons. intros [Hx Hnd].
  intros [->|Hr]%elem_of_cons [->|Hr']%elem_of_cons; [done| | |by apply IH].
  - exfalso. apply Hx. rewrite Heq. by apply list_elem_of_fmap_2.
  - exfalso. apply Hx. rewrite <- Heq. by apply list_elem_of_fmap_2.
Qed.

(** A row that is not pending is never returned by later calls, and the
    rows that a sequence of calls returns are distinct. *)
Lemma run_queue_distinct calls : forall db,
  queue_wf db ->
  NoDup (tx_id <$> (run_queue db calls).2)
  /\ forall r row, r ∈ (run_queue db calls).2 -> row ∈ transmission_queue db ->
       tx_id row = tx_id r -> status row = pending.
Proof.
  induction calls as [|c calls IH]; intros db Hwf.
  { cbn. split; [apply NoDup_nil_2|]. by intros r row ?%elem_of_nil. }
  destruct c as [now ft data priority delay|now]; cbn [run_queue].
  - destruct (queue_transmission now db ft data priority delay) as [db'|e] eqn:Hq;
      [|by apply IH].
    destruct (IH _ (queue_wf_queue now db ft data priority delay db' Hq Hwf)) as [Hnd Hp].
    split; [done|]. intros r row Hr Hrow. apply (Hp r row Hr).
    apply queue_transmission_Ok in Hq as ->. cbn. apply elem_of_app. by left.
  - unfold get_next_transmission.
    destruct (select_next now db) as [row0|] eqn:Hsel.
    + destruct (IH _ (queue_wf_update db (tx_id row0) Hwf)) as [Hnd Hp].
      destruct (run_queue (update_transmitting db (tx_id row0)) calls) as [db'' rows].
      cbn [snd] in *.
      apply select_next_eligible in Hsel as [Hin0 Hst0].
      assert (forall r, r ∈ rows -> tx_id r <> tx_id row0) as Hfresh.
      { intros r Hr Heq.
        specialize (Hp r (mark_transmitting (tx_id row0) row0) Hr).
        rewrite status_mark_same in Hp.
        assert (transmitting = pending) as Hc; [|done].
        apply Hp; [|by rewrite tx_id_mark].
        unfold update_transmitting; cbn. by apply list_elem_of_fmap_2. }
      split.
      * rewrite fmap_cons. apply NoDup_cons. split; [|done].
        intros (r & Heq & Hr)%list_elem_of_fmap. by apply (Hfresh r).
      * intros r row [->|Hr]%elem_of_cons Hrow Heq.
        { by rewrite (queue_wf_inj db row row0 Hwf Hrow Hin0 Heq). }
        destruct (decide (status row = pending)) as [|Hnp]; [done|].
        exfalso. apply (status_mark (tx_id row0)) in Hnp. apply Hnp.
        apply (Hp r _ Hr); [|by rewrite tx_id_mark].
        unfold update_transmitting; cbn. by apply list_elem_of_fmap_2.
    + destruct (IH _ Hwf) as [Hnd Hp].
      destruct (run_queue db calls) as [db'' rows]. done.
Qed.

(** The [UPDATE] marks the selected row and leaves the others. *)
Lemma update_transmitting_spec db row :
  row ∈ transmission_queue db ->
  mark_transmitting (tx_id row) row ∈ transmission_queue (update_transmitting db (tx_id row))
  /\ status (mark_transmitting (tx_id row) row) = transmitting
  /\ forall r, r ∈ transmission_queue db -> tx_id r <> tx_id row ->
       r ∈ transmission_queue (update_transmitting db (tx_id row)).
Proof.
  intros Hin. unfold update_transmitting; cbn.
  split; [by apply list_elem_of_fmap_2|]. split; [apply status_mark_same|].
  intros r Hr Hne. rewrite <- (mark_other (tx_id row) r Hne).
  by apply list_elem_of_fmap_2.
Qed.

(** C4, as amended.  When the queue holds a pending row with
    [scheduled_at <= now], [get_next_transmission] returns a pending row
    that is due, of the highest priority among those, and of the earliest
    [scheduled_at] among those of that priority.  The table it leaves
    holds the same ids in the same order; the returned row is in it with
    its status changed to [transmitting] and nothing else, every row with
    the returned id has status [transmitting], and every other row is
    unchanged.  The rows returned by this call and by any calls made after
    it, each one completing before the next begins and with any
    insertions between them, have distinct ids. *)
Theorem dequeue_order (db : Database) (now : Z) (r0 : tx_row) :
  queue_wf db ->
  r0 ∈ transmission_queue db ->
  eligible now r0 = true ->
  exists row,
    (get_next_transmission now db).2 = Some row
    /\ row ∈ transmission_queue db
    /\ status row = pending /\ scheduled_at row <= now
    /\ (forall r', r' ∈ transmission_queue db ->
          status r' = pending -> scheduled_at r' <= now ->
          tx_priority r' <= tx_priority row
          /\ (tx_priority r' = tx_priority row -> scheduled_at row <= scheduled_at r'))
    /\ (forall r', r' ∈ transmission_queue (get_next_transmission now db).1 ->
          tx_id r' = tx_id row -> status r' = transmitting)
    /\ (forall r', r' ∈ transmission_queue db -> tx_id r' <> tx_id row ->
          r' ∈ transmission_queue (get_next_transmission now db).1)
    /\ mkTxRow (tx_id row) (frame_type row) (frame_data row) (tx_priority row)
         (scheduled_at row) (created_at row) (attempts row) transmitting
       ∈ transmission_queue (get_next_transmission now db).1
    /\ tx_id <$> transmission_queue (get_next_transmission now db).1
       = tx_id <$> transmission_queue db
    /\ forall calls,
         NoDup (tx_id <$> (run_queue db (Next now :: calls)).2).
Proof.
  intros Hwf Hin Hel.
  destruct (select_next_spec now db r0 Hin Hel) as (row & Hsel & Hrow & Helr & Hmax).
  exists row. unfold get_next_transmission. rewrite Hsel. cbn [fst snd].
  split; [done|]. split; [done|].
  unfold eligible in Helr. apply andb_true_iff in Helr as [Hs Hd].
  apply bool_decide_eq_true_1 in Hs. apply Z.leb_le in Hd.
  do 2 (split; [done|]). split.
  { intros r' Hr' Hs' Hd'. apply Hmax; [done|].
    unfold eligible. apply andb_true_iff. split; [by apply bool_decide_eq_true_2|].
    by apply Z.leb_le. }
  split.
  { intros r' Hr' Heq. unfold update_transmitting in Hr'; cbn in Hr'.
    apply list_elem_of_fmap in Hr' as (x & -> & Hx).
    rewrite tx_id_mark in Heq.
    rewrite (queue_wf_inj db x row Hwf Hx Hrow Heq). apply status_mark_same. }
  split.
  { intros r' Hr' Hne. by apply update_transmitting_spec. }
  split.
  { destruct (update_transmitting_spec db row Hrow) as [Hmark _].
    unfold mark_transmitting in Hmark. by rewrite Z.eqb_refl in Hmark. }
  split.
  { unfold update_transmitting; cbn [transmission_queue].
    rewrite <- list_fmap_compose. apply list_fmap_ext. intros i x _. cbn.
    apply tx_id_mark. }
  intros calls. by apply run_queue_distinct.
Qed.

Lemma demo_queue_wf : queue_wf demo_queue.
Proof.
  split.
  - apply (bool_decide_eq_true_1 (NoDup (tx_id <$> transmission_queue demo_queue))).
    vm_compute. reflexivity.
  - repeat constructor.
Qed.

(** C4, witness: at time 200 the four rows of [demo_queue] are all due. *)
Lemma dequeue_order_witness :
  exists row,
    (get_next_transmission 200 demo_queue).2 = Some row
    /\ row ∈ transmission_queue demo_queue
    /\ status row = pending /\ scheduled_at row <= 200
    /\ (forall r', r' ∈ transmission_queue demo_queue ->
          status r' = pending -> scheduled_at r' <= 200 ->
          tx_priority r' <= tx_priority row
          /\ (tx_priority r' = tx_priority row -> scheduled_at row <= scheduled_at r'))
    /\ (forall r', r' ∈ transmission_queue (get_next_transmission 200 demo_queue).1 ->
          tx_id r' = tx_id row -> status r' = transmitting)
    /\ (forall r', r' ∈ transmission_queue demo_queue -> tx_id r' <> tx_id row ->
          r' ∈ transmission_queue (get_next_transmission 200 demo_queue).1)
    /\ mkTxRow (tx_id row) (frame_type row) (frame_data row) (tx_priority row)
         (scheduled_at row) (created_at row) (attempts row) transmitting
       ∈ transmission_queue (get_next_transmission 200 demo_queue).1
    /\ tx_id <$> transmission_queue (get_next_transmission 200 demo_queue).1
       = tx_id <$> transmission_queue demo_queue
    /\ forall calls,
         NoDup (tx_id <$> (run_queue demo_queue (Next 200 :: calls)).2).
Proof.
  apply (dequeue_order demo_queue 200
           (mkTxRow 1 Frames.T_MSG [] 1 105 100 0 pending)).
  - exact demo_queue_wf.
  - vm_compute. left.
  - reflexivity.
Defined.

(** C4, as stated, fails for two callers that run at the same time: both
    read the row of priority 3 before either marks it, and both return
    it. *)
Lemma same_row_to_two_callers :
  queue_wf demo_queue
  /\ exists row,
       tx_priority row = 3
       /\ get_next_transmission_interleaved 200 demo_queue
          = (update_transmitting demo_queue (tx_id row), Some row, Some row).
Proof.
  split; [exact demo_queue_wf|].
  exists (mkTxRow 4 Frames.T_REQ [] 3 160 100 0 pending).
  split; reflexivity.
Qed.

End DatabaseFacts.

(** ** Bytes *)

Lemma byte_of_int_range z : (exists b, byte_of_int z = Ok b) <-> 0 <= z < 256.
Proof.
  split.
  - intros [b Hb]. apply byte_of_int_Ok in Hb. pose proof (ord_range b). lia.
  - intros Hz. unfold byte_of_int. destruct (Z.leb_spec 0 z); [|lia].
    destruct (Byte.of_N (Z.to_N z)) as [b|] eqn:E; [by eexists|].
    apply Byte.of_N_None_iff in E. lia.
Qed.

Lemma byte_of_int_Raise z e : byte_of_int z = Raise e -> e = ValueError /\ ~ 0 <= z < 256.
Proof.
  intros H. split.
  - unfold byte_of_int in H. destruct (0 <=? z); [destruct (Byte.of_N _)|]; congruence.
  - intros Hz. apply byte_of_int_range in Hz as [b Hb]. congruence.
Qed.

(** ** KISS: framing, streams and command frames *)

Module KISSFraming.
Import KISS KISSFacts.

Lemma cmd_byte_any p c :
  0 <= p <= 15 ->
  exists b, byte_of_int (Z.lor (Z.shiftl p 4) (KISSCommand_value c)) = Ok b
    /\ Z.land (Z.shiftr (ord b) 4) 15 = p
    /\ KISSCommand_of_value (Z.land (ord b) 15) = Ok c.
Proof.
  intros Hp.
  assert (Hcases : p = 0 \/ p = 1 \/ p = 2 \/ p = 3 \/ p = 4 \/ p = 5 \/ p = 6
    \/ p = 7 \/ p = 8 \/ p = 9 \/ p = 10 \/ p = 11 \/ p = 12 \/ p = 13
    \/ p = 14 \/ p = 15) by lia.
  repeat (destruct Hcases as [->|Hcases];
          [destruct c; eexists; (split; [reflexivity|by vm_compute])|]).
  subst p. destruct c; eexists; (split; [reflexivity|by vm_compute]).
Qed.

Lemma KISSCommand_value_range c : 0 <= KISSCommand_value c <= 15.
Proof. destruct c; cbn; lia. Qed.

(** The command byte is [16 * port + command]. *)
Lemma cmd_byte_sum p c :
  Z.lor (Z.shiftl p 4) (KISSCommand_value c) = 16 * p + KISSCommand_value c.
Proof.
  pose proof (KISSCommand_value_range c) as Hv.
  rewrite Z.shiftl_mul_pow2 by lia. change (2 ^ 4) with 16.
  rewrite <- Z.add_nocarry_lor; [|]. lia.
  apply Z.bits_inj'. intros n Hn. rewrite Z.land_spec, Z.bits_0.
  destruct (Z.ltb_spec n 4).
  - replace (p * 16) with (p * 2 ^ 4) by lia.
    rewrite Z.mul_pow2_bits_low by lia. done.
  - rewrite (Z.bits_above_log2 (KISSCommand_value c) n); [apply andb_false_r|lia|].
    destruct (decide (KISSCommand_value c = 0)) as [->|Hne]; [cbn; lia|].
    assert (Z.log2 (KISSCommand_value c) < 4); [|lia].
    apply Z.log2_lt_pow2; lia.
Qed.

(** X1.  [KISSFrame.encode] succeeds exactly on the ports 0 to 15 and raises
    [ValueError] on every other port; what it returns is delimited by one
    [FEND] at each end, with a non-empty content between them that holds
    no [FEND]. *)
Theorem encode_framing (f : KISSFrame) :
  match encode f with
  | Ok enc =>
      0 <= port f <= 15
      /\ exists body, enc = [FEND] ++ body ++ [FEND] /\ body <> [] /\ FEND ∉ body
  | Raise e => e = ValueError /\ ~ 0 <= port f <= 15
  end.
Proof.
  unfold encode. pose proof (KISSCommand_value_range (command f)) as Hv.
  destruct (byte_of_int _) as [c|e] eqn:Hc; cbn [bind].
  - assert (0 <= Z.lor (Z.shiftl (port f) 4) (KISSCommand_value (command f)) < 256) as Hr
      by (apply byte_of_int_range; by eexists).
    rewrite cmd_byte_sum in Hr. split; [lia|].
    exists (escape (c :: data f)). split; [done|].
    split; [apply escape_nonempty|apply escape_no_FEND].
  - apply byte_of_int_Raise in Hc as [-> Hr]. split; [done|].
    rewrite cmd_byte_sum in Hr. lia.
Qed.

Lemma encode_decode_frame p c d :
  0 <= p <= 15 ->
  exists enc, encode (mkKISSFrame p c d) = Ok enc
              /\ decode enc = Ok (Some (mkKISSFrame p c d)).
Proof.
  intros Hp.
  destruct (cmd_byte_any p c Hp) as (b & Hb & Hport & Hcmd).
  exists ([FEND] ++ escape (b :: d) ++ [FEND]). split.
  - unfold encode. cbn [port command data]. by rewrite Hb.
  - rewrite (decode_delimited _ b d (unescape_escape (b :: d))), Hcmd, Hport. done.
Qed.

(** X2.  For every command and every port 0 to 15, [KISSFrame.decode] of
    the encoded frame gives the frame back, whatever bytes the payload
    holds. *)
Theorem frame_roundtrip (f : KISSFrame) :
  0 <= port f <= 15 ->
  exists enc, encode f = Ok enc /\ decode enc = Ok (Some f).
Proof.
  intros Hp. destruct f as [p c d]. by apply encode_decode_frame.
Qed.

Lemma frame_roundtrip_witness :
  exists enc,
    encode (mkKISSFrame 3 TX_DELAY [FESC; FEND; FESC]) = Ok enc
    /\ decode enc = Ok (Some (mkKISSFrame 3 TX_DELAY [FESC; FEND; FESC])).
Proof.
  apply (frame_roundtrip (mkKISSFrame 3 TX_DELAY [FESC; FEND; FESC])).
  cbn. lia.
Defined.

(** *** The receive loop *)

Lemma decode_loop_more_fuel fuel : forall fuel' buf acc r,
  decode_loop fuel buf acc = Some r -> (fuel <= fuel')%nat ->
  decode_loop fuel' buf acc = Some r.
Proof.
  induction fuel as [|fuel IH]; intros fuel' buf acc r Hr Hle.
  - destruct fuel'; [done|]. cbn [decode_loop] in *.
    destruct (find_byte FEND buf) as [s|]; [|done].
    destruct (find_byte_from FEND buf (s + 1)) as [e|]; done.
  - destruct fuel' as [|fuel']; [lia|]. cbn [decode_loop] in *.
    destruct (find_byte FEND buf) as [s|]; [|done].
    destruct (find_byte_from FEND buf (s + 1)) as [e|]; [|done].
    destruct (decode _) as [fr|ex]; [|done].
    apply IH; [done|lia].
Qed.

(** Any fuel that gives an outcome gives the outcome of [decode_frames]. *)
Lemma decode_loop_any_fuel fuel buf acc r :
  decode_loop fuel buf acc = Some r ->
  decode_loop (length buf) buf acc = Some r.
Proof.
  intros Hr.
  destruct (decode_loop_fuel (length buf) buf acc) as [r' Hr']; [lia|].
  rewrite Hr'. f_equal.
  pose proof (decode_loop_more_fuel _ (fuel `max` length buf) _ _ _ Hr ltac:(lia)) as H1.
  pose proof (decode_loop_more_fuel _ (fuel `max` length buf) _ _ _ Hr' ltac:(lia)) as H2.
  congruence.
Qed.

Lemma find_byte_lt x l i : find_byte x l = Some i -> (i < length l)%nat.
Proof.
  revert i. induction l as [|y l IH]; intros i; simpl; [done|].
  destruct (decide (y = x)); [intros [= <-]; lia|].
  destruct (find_byte x l) as [j|]; [|done]. intros [= <-].
  specialize (IH j eq_refl). lia.
Qed.

Lemma find_byte_app_l x l l' i :
  find_byte x l = Some i -> find_byte x (l ++ l') = Some i.
Proof.
  revert i. induction l as [|y l IH]; intros i; simpl; [done|].
  destruct (decide (y = x)); [done|].
  destruct (find_byte x l) as [j|]; [|done]. intros [= <-].
  by rewrite (IH j eq_refl).
Qed.

Lemma find_byte_from_lt x l s e :
  find_byte_from x l s = Some e -> (s <= e < length l)%nat.
Proof.
  unfold find_byte_from. destruct (find_byte x (drop s l)) as [i|] eqn:Hi; [|done].
  intros [= <-]. apply find_byte_lt in Hi. rewrite length_drop in Hi. lia.
Qed.

Lemma find_byte_from_app_l x l l' s e :
  find_byte_from x l s = Some e -> find_byte_from x (l ++ l') s = Some e.
Proof.
  intros H. pose proof (find_byte_from_lt _ _ _ _ H) as Hlt.
  unfold find_byte_from in *.
  rewrite drop_app_le by lia.
  destruct (find_byte x (drop s l)) as [i|] eqn:Hi; [|done].
  by rewrite (find_byte_app_l _ _ _ _ Hi).
Qed.

(** Frames found earlier are only carried along. *)
Lemma decode_loop_acc fuel : forall buf pre acc,
  decode_loop fuel buf (pre ++ acc) = shift_frames pre <$> decode_loop fuel buf acc.
Proof.
  induction fuel as [|fuel IH]; intros buf pre acc; cbn [decode_loop].
  - destruct (find_byte FEND buf) as [s|]; [|done].
    destruct (find_byte_from FEND buf (s + 1)) as [e|]; done.
  - destruct (find_byte FEND buf) as [s|]; [|done].
    destruct (find_byte_from FEND buf (s + 1)) as [e|]; [|done].
    destruct (decode _) as [[f|]|ex]; [| |done].
    + destruct (decide (command f = DATA_FRAME)); [|apply IH].
      rewrite <- app_assoc. apply IH.
    + apply IH.
Qed.

(** Bytes that arrive later do not change what the loop does with the
    bytes it has: it goes on from where it stopped. *)
Lemma decode_loop_app fuel : forall buf acc rest fs more,
  decode_loop fuel buf acc = Some (rest, Ok fs) ->
  exists fuel',
    decode_loop fuel' (buf ++ more) acc
    = shift_frames fs <$> decode_loop (length (rest ++ more)) (rest ++ more) [].
Proof.
  induction fuel as [|fuel IH]; intros buf acc rest fs more Hr.
  - exists (length (buf ++ more)). cbn [decode_loop] in Hr.
    assert (rest = buf /\ fs = acc) as [-> ->].
    { destruct (find_byte FEND buf) as [s|]; [|by injection Hr].
      destruct (find_byte_from FEND buf (s + 1)) as [e|]; [done|by injection Hr]. }
    rewrite <- decode_loop_acc. by rewrite app_nil_r.
  - cbn [decode_loop] in Hr.
    destruct (find_byte FEND buf) as [s|] eqn:Hs.
    2:{ injection Hr as <- <-. exists (length (buf ++ more)).
        rewrite <- decode_loop_acc. by rewrite app_nil_r. }
    destruct (find_byte_from FEND buf (s + 1)) as [e|] eqn:He.
    2:{ injection Hr as <- <-. exists (length (buf ++ more)).
        rewrite <- decode_loop_acc. by rewrite app_nil_r. }
    pose proof (find_byte_from_lt _ _ _ _ He) as Hlt.
    destruct (decode (slice buf s (e + 1))) as [fr|ex] eqn:Hd; [|done].
    destruct (IH _ _ _ _ more Hr) as [fuel' Hfuel'].
    exists (S fuel'). cbn [decode_loop].
    rewrite (find_byte_app_l _ _ more _ Hs), (find_byte_from_app_l _ _ more _ _ He).
    assert (slice (buf ++ more) s (e + 1) = slice buf s (e + 1)) as ->.
    { unfold slice. rewrite drop_app_le by lia.
      rewrite take_app_le; [done|]. rewrite length_drop. lia. }
    rewrite Hd. rewrite drop_app_le by lia. exact Hfuel'.
Qed.

(** X3.  Chunk boundaries do not matter to [decode_frames]: when two calls
    in a row both return, one call on the two inputs joined returns the
    frames of the first followed by the frames of the second, and leaves
    the same buffer. *)
Theorem decode_frames_chunked (self self1 self2 : KISSProtocol)
    (a b : list byte) (fs1 fs2 : list KISSFrame) :
  decode_frames self a = Some (self1, Ok fs1) ->
  decode_frames self1 b = Some (self2, Ok fs2) ->
  decode_frames self (a ++ b) = Some (self2, Ok (fs1 ++ fs2)).
Proof.
  unfold decode_frames. intros H1 H2.
  destruct (decode_loop _ (buffer self ++ a) []) as [[rest r]|] eqn:Ha; [|done].
  injection H1 as <- ->. cbn [buffer kp_port] in H2.
  destruct (decode_loop _ (rest ++ b) []) as [[rest2 r2]|] eqn:Hb; [|done].
  injection H2 as <- ->.
  destruct (decode_loop_app _ _ _ _ _ b Ha) as [fuel' Hfuel'].
  rewrite Hb in Hfuel'. cbn in Hfuel'.
  rewrite app_assoc. by rewrite (decode_loop_any_fuel _ _ _ _ Hfuel').
Qed.

Lemma decode_frames_chunked_witness :
  decode_frames (new 0) ([FEND; Byte.x00; Byte.x41; FESC] ++ [TFEND; FEND; FEND; Byte.x00])
  = Some (mkKISSProtocol 0 [FEND; Byte.x00],
          Ok ([] ++ [mkKISSFrame 0 DATA_FRAME [Byte.x41; FEND]])).
Proof.
  apply (decode_frames_chunked (new 0) (mkKISSProtocol 0 [FEND; Byte.x00; Byte.x41; FESC])).
  - reflexivity.
  - reflexivity.
Defined.

Lemma filter_FEND_notin l : FEND ∉ l -> filter (fun b => b = FEND) l = [].
Proof.
  induction l as [|y l IH]; [done|]. intros [Hne Hl]%not_elem_of_cons.
  rewrite filter_cons_False by done. by apply IH.
Qed.

Lemma count_FEND_le_1 buf :
  match find_byte FEND buf with
  | None => True
  | Some s => find_byte_from FEND buf (s + 1) = None
  end ->
  (length (filter (fun b => b = FEND) buf) <= 1)%nat.
Proof.
  induction buf as [|y l IH]; [cbn; lia|].
  cbn [find_byte]. destruct (decide (y = FEND)) as [->|Hne].
  - unfold find_byte_from. cbn [drop Nat.add]. rewrite drop_0.
    rewrite fmap_None, find_byte_None. intros Hnin.
    rewrite filter_cons_True by done.
    rewrite filter_FEND_notin by done. cbn. lia.
  - rewrite filter_cons_False by done. intros H. apply IH.
    destruct (find_byte FEND l) as [s|]; [|done]. cbn in H.
    unfold find_byte_from in *. cbn [Nat.add drop] in H.
    apply fmap_None. by apply fmap_None in H.
Qed.

Lemma decode_Raise data e : decode data = Raise e -> e = ValueError.
Proof.
  unfold decode. destruct data as [|d0 tl]; [done|].
  destruct (match last _ with Some _ => _ | None => _ end); [done|].
  destruct (unescape _) as [[|c fd]|]; [done| |done].
  destruct (KISSCommand_of_value _) eqn:E; [done|]. cbn [bind]. intros [= <-].
  unfold KISSCommand_of_value in E.
  repeat (match type of E with
          | match ?x with _ => _ end = _ => destruct x
          end; try congruence).
Qed.

Lemma decode_loop_post fuel : forall buf acc rest r,
  decode_loop fuel buf acc = Some (rest, r) ->
  Forall (fun f => command f = DATA_FRAME) acc ->
  match r with
  | Ok frames =>
      Forall (fun f => command f = DATA_FRAME) frames
      /\ (length (filter (fun b => b = FEND) rest) <= 1)%nat
  | Raise e => e = ValueError
  end.
Proof.
  induction fuel as [|fuel IH]; intros buf acc rest r Hr Hacc; cbn [decode_loop] in Hr.
  - destruct (find_byte FEND buf) as [s|] eqn:Hs.
    + destruct (find_byte_from FEND buf (s + 1)) as [e|] eqn:He; [done|].
      injection Hr as <- <-. split; [done|]. apply count_FEND_le_1. by rewrite Hs.
    + injection Hr as <- <-. split; [done|]. apply count_FEND_le_1. by rewrite Hs.
  - destruct (find_byte FEND buf) as [s|] eqn:Hs.
    + destruct (find_byte_from FEND buf (s + 1)) as [e|] eqn:He.
      * destruct (decode _) as [fr|ex] eqn:Hd.
        -- apply (IH _ _ _ _ Hr). destruct fr as [f|]; [|done].
           destruct (decide (command f = DATA_FRAME)); [|done].
           apply Forall_app. split; [done|]. by apply Forall_singleton.
        -- injection Hr as <- <-. by apply decode_Raise in Hd.
      * injection Hr as <- <-. split; [done|]. apply count_FEND_le_1. by rewrite Hs.
    + injection Hr as <- <-. split; [done|]. apply count_FEND_le_1. by rewrite Hs.
Qed.

(** X4.  [decode_frames] returns for every buffer and every input.  When it
    returns frames, each of them is a data frame and the buffer it keeps
    holds at most one [FEND], the start of a frame still to be completed;
    the only exception it ends with is the [ValueError] of an unknown
    command. *)
Theorem decode_frames_outcome (self : KISSProtocol) (data : list byte) :
  exists self' r,
    decode_frames self data = Some (self', r)
    /\ kp_port self' = kp_port self
    /\ match r with
       | Ok frames =>
           Forall (fun f => command f = DATA_FRAME) frames
           /\ (length (filter (fun b => b = FEND) (buffer self')) <= 1)%nat
       | Raise e => e = ValueError
       end.
Proof.
  unfold decode_frames.
  destruct (decode_loop_fuel (length (buffer self ++ data)) (buffer self ++ data) [])
    as [[rest r] Hr]; [lia|].
  rewrite Hr. eexists _, _. split; [done|]. split; [done|].
  cbn [buffer]. by apply (decode_loop_post _ _ _ _ _ Hr).
Qed.

(** One whole frame at the head of the buffer, after bytes that hold no
    [FEND], is taken off and the loop goes on with what follows. *)
Lemma decode_loop_head fuel garbage body rest acc :
  FEND ∉ garbage -> FEND ∉ body ->
  decode_loop (S fuel) (garbage ++ [FEND] ++ body ++ [FEND] ++ rest) acc =
    match decode ([FEND] ++ body ++ [FEND]) with
    | Raise e => Some (rest, Raise e)
    | Ok frame =>
        decode_loop fuel rest
          match frame with
          | Some f => if decide (command f = DATA_FRAME) then acc ++ [f] else acc
          | None => acc
          end
    end.
Proof.
  intros Hg Hb.
  set (frame := [FEND] ++ body ++ [FEND]).
  replace (garbage ++ [FEND] ++ body ++ [FEND] ++ rest) with (garbage ++ frame ++ rest)
    by (unfold frame; by rewrite <- !app_assoc).
  assert (Hfind : find_byte FEND (garbage ++ frame ++ rest) = Some (length garbage))
    by (by apply find_byte_app_here).
  assert (Hnext : find_byte_from FEND (garbage ++ frame ++ rest) (length garbage + 1)
                  = Some (length garbage + 1 + length body)%nat).
  { unfold find_byte_from, frame.
    replace (garbage ++ ([FEND] ++ body ++ [FEND]) ++ rest)
      with ((garbage ++ [FEND]) ++ body ++ FEND :: rest)
      by (rewrite <- !app_assoc; done).
    rewrite drop_app_length' by (rewrite length_app; simpl; lia).
    by rewrite (find_byte_app_here FEND body rest). }
  assert (Hslice : slice (garbage ++ frame ++ rest) (length garbage)
                     (length garbage + 1 + length body + 1) = frame).
  { unfold slice. rewrite drop_app_length.
    rewrite take_app_length'; [done|].
    unfold frame. rewrite !length_app. simpl. lia. }
  assert (Hrest : drop (length garbage + 1 + length body + 1) (garbage ++ frame ++ rest)
                  = rest).
  { rewrite app_assoc. apply drop_app_length'.
    unfold frame. rewrite !length_app. simpl. lia. }
  cbn [decode_loop]. rewrite Hfind, Hnext, Hslice, Hrest. done.
Qed.

Lemma decode_loop_frames p : forall payloads encs acc,
  0 <= p <= 15 ->
  Forall2 (fun b enc => encode_data (new p) b = Ok enc) payloads encs ->
  exists fuel,
    decode_loop fuel (concat encs) acc
    = Some ([], Ok (acc ++ (mkKISSFrame p DATA_FRAME <$> payloads))).
Proof.
  intros payloads encs acc Hp H. revert acc.
  induction H as [|b enc payloads encs Hb _ IH]; intros acc.
  - exists 0%nat. cbn. by rewrite app_nil_r.
  - destruct (IH (acc ++ [mkKISSFrame p DATA_FRAME b])) as [fuel Hfuel].
    exists (S fuel).
    destruct (cmd_byte_any p DATA_FRAME Hp) as (c & Hc & Hport & Hcmd).
    assert (Henc : enc = [FEND] ++ escape (c :: b) ++ [FEND]).
    { unfold encode_data, encode in Hb. cbn [new kp_port port command data] in Hb.
      rewrite Hc in Hb. by injection Hb. }
    pose proof (decode_loop_head fuel [] (escape (c :: b)) (concat encs) acc
                  (not_elem_of_nil _) (escape_no_FEND _)) as Hhead.
    rewrite app_nil_l in Hhead.
    cbn [concat]. rewrite Henc, <- !app_assoc, Hhead.
    rewrite (decode_delimited _ c b (unescape_escape (c :: b))), Hcmd, Hport.
    cbn [bind command]. rewrite decide_True by done.
    rewrite Hfuel, <- app_assoc. done.
Qed.

(** A decoder whose buffer and input together are whole data frames. *)
Lemma decode_frames_concat (p : Z) (self : KISSProtocol) (data : list byte)
    (payloads encs : list (list byte)) :
  0 <= p <= 15 -> kp_port self = p ->
  buffer self ++ data = concat encs ->
  Forall2 (fun b enc => encode_data (new p) b = Ok enc) payloads encs ->
  decode_frames self data
  = Some (new p, Ok (mkKISSFrame p DATA_FRAME <$> payloads)).
Proof.
  intros Hp Hport Hbuf H. unfold decode_frames. rewrite Hbuf, Hport.
  destruct (decode_loop_frames p payloads encs [] Hp H) as [fuel Hfuel].
  by rewrite (decode_loop_any_fuel _ _ _ _ Hfuel).
Qed.

(** X5.  Data frames sent back to back arrive as sent: [decode_frames] of a
    fresh decoder on the encodings of any payloads, joined in order,
    returns one data frame per payload, in the same order and with the same
    bytes, and keeps an empty buffer. *)
Theorem decode_frames_back_to_back (p : Z) (payloads encs : list (list byte)) :
  0 <= p <= 15 ->
  Forall2 (fun b enc => encode_data (new p) b = Ok enc) payloads encs ->
  decode_frames (new p) (concat encs)
  = Some (new p, Ok (mkKISSFrame p DATA_FRAME <$> payloads)).
Proof.
  intros Hp H. by apply (decode_frames_concat p (new p) _ payloads encs).
Qed.

Lemma decode_frames_back_to_back_witness :
  decode_frames (new 2)
    (concat [[FEND; Byte.x20; Byte.x41; FEND]; [FEND; Byte.x20; FESC; TFEND; FEND]])
  = Some (new 2, Ok (mkKISSFrame 2 DATA_FRAME <$> [[Byte.x41]; [FEND]])).
Proof.
  apply decode_frames_back_to_back.
  - lia.
  - repeat constructor.
Defined.

(** X6.  [set_tx_delay] with a delay of 0 ms or more gives a frame that
    decodes to the command [TX_DELAY] on the handler's port with the one
    byte [min(255, delay_ms // 10)]; with a negative delay it raises
    [ValueError]. *)
Theorem set_tx_delay_frame (p delay_ms : Z) :
  0 <= p <= 15 ->
  match set_tx_delay (new p) delay_ms with
  | Ok enc =>
      0 <= delay_ms
      /\ exists d, ord d = Z.min 255 (delay_ms / 10)
                   /\ decode enc = Ok (Some (mkKISSFrame p TX_DELAY [d]))
  | Raise e => e = ValueError /\ delay_ms < 0
  end.
Proof.
  intros Hp. unfold set_tx_delay. cbn [new kp_port].
  destruct (byte_of_int _) as [d|e] eqn:Hd; cbn [bind].
  - pose proof (byte_of_int_Ok _ _ Hd) as Hord. pose proof (ord_range d) as Hr.
    destruct (encode_decode_frame p TX_DELAY [d] Hp) as (enc & -> & Hdec).
    split; [|by exists d].
    destruct (Z.ltb_spec delay_ms 0); [|done].
    assert (delay_ms / 10 < 0) by (apply Z.div_lt_upper_bound; lia). lia.
  - apply byte_of_int_Raise in Hd as [-> Hr]. split; [done|].
    destruct (Z.ltb_spec delay_ms 0); [done|].
    assert (0 <= delay_ms / 10) by (apply Z.div_pos; lia). lia.
Qed.

Lemma set_tx_delay_frame_witness :
  match set_tx_delay (new 1) 3000 with
  | Ok enc =>
      0 <= 3000
      /\ exists d, ord d = Z.min 255 (3000 / 10)
                   /\ decode enc = Ok (Some (mkKISSFrame 1 TX_DELAY [d]))
  | Raise e => e = ValueError /\ 3000 < 0
  end.
Proof. apply (set_tx_delay_frame 1 3000). lia. Defined.

End KISSFraming.
(** ** AX.25: addresses and frames on the wire *)

Module AX25Codec.
Import Text TextFacts Base64Facts AX25 AX25Facts.

Lemma len_ascii s : isascii s = true -> len s = Z.of_nat (length s).
Proof.
  unfold len, isascii. intros H. f_equal. f_equal.
  induction s as [|b r IH]; [done|]. cbn [forallb] in H.
  apply andb_true_iff in H as [Hb Hr].
  rewrite filter_cons_True, IH; [done|done|].
  unfold is_cont, in_range. apply Z.ltb_lt in Hb.
  apply andb_false_intro1. lia.
Qed.

(** A 7-bit character shifted left fits a byte, comes back by the shift
    right, and leaves the extension bit clear. *)
Lemma shift_char b :
  ord b <? 128 = true ->
  exists b', byte_of_int (Z.shiftl (ord b) 1) = Ok b'
             /\ chr7 (Z.shiftr (ord b') 1) = b /\ Z.land (ord b') 1 = 0.
Proof.
  pose proof (forall_bytes
    (fun b => implb (ord b <? 128)
       match byte_of_int (Z.shiftl (ord b) 1) with
       | Ok b' => @bool_decide _ (byte_eq_dec (chr7 (Z.shiftr (ord b') 1)) b)
                    && (Z.land (ord b') 1 =? 0)
       | Raise _ => false
       end) ltac:(vm_compute; reflexivity) b) as H.
  cbv beta in H. intros Hb. rewrite Hb in H. cbn [implb] in H.
  destruct (byte_of_int _) as [b'|]; [|done].
  apply andb_true_iff in H as [H1 H2].
  exists b'. split; [done|]. split; [by apply bool_decide_eq_true_1 in H1|lia].
Qed.

Lemma shift_chars_ascii s :
  isascii s = true ->
  exists shifted,
    shift_chars s = Ok shifted
    /\ length shifted = length s
    /\ map (fun b => chr7 (Z.shiftr (ord b) 1)) shifted = s.
Proof.
  induction s as [|b r IH]; intros H; [by exists []|].
  cbn [isascii forallb] in H. apply andb_true_iff in H as [Hb Hr].
  destruct (IH Hr) as (sh & Hsh & Hlen & Hmap).
  destruct (shift_char b Hb) as (b' & Hb' & Hchr & _).
  exists (b' :: sh). cbn [shift_chars]. rewrite Hb', Hsh. cbn [bind].
  split; [done|]. split; [cbn; by rewrite Hlen|]. cbn [map]. by rewrite Hchr, Hmap.
Qed.

(** The SSID byte: reserved bits, the SSID in bits 1 to 4, and the
    extension bit. *)
Lemma ssid_byte s (is_last : bool) :
  0 <= s <= 15 ->
  exists b,
    byte_of_int (if is_last then Z.lor (Z.lor 96 (Z.shiftl s 1)) 1
                 else Z.lor 96 (Z.shiftl s 1)) = Ok b
    /\ Z.land (Z.shiftr (ord b) 1) 15 = s
    /\ Z.land (ord b) 1 = (if is_last then 1 else 0).
Proof.
  intros Hs.
  assert (Hcases : s = 0 \/ s = 1 \/ s = 2 \/ s = 3 \/ s = 4 \/ s = 5 \/ s = 6
    \/ s = 7 \/ s = 8 \/ s = 9 \/ s = 10 \/ s = 11 \/ s = 12 \/ s = 13
    \/ s = 14 \/ s = 15) by lia.
  repeat (destruct Hcases as [->|Hcases];
          [destruct is_last; eexists; (split; [reflexivity|by vm_compute])|]).
  subst s. destruct is_last; eexists; (split; [reflexivity|by vm_compute]).
Qed.

Lemma filter_spaces cs n :
  SPACE ∉ cs -> filter (fun c => c <> SPACE) (cs ++ replicate n SPACE) = cs.
Proof.
  intros Hcs. rewrite filter_app.
  replace (filter (fun c => c <> SPACE) (replicate n SPACE)) with (@nil byte).
  - rewrite app_nil_r. induction cs as [|c r IH]; [done|].
    apply not_elem_of_cons in Hcs as [Hne Hr].
    rewrite filter_cons_True by done. by rewrite IH.
  - induction n as [|n IH]; [done|]. cbn [replicate].
    by rewrite filter_cons_False by (intros H; by apply H).
Qed.

(** What [encode] makes of an address: six shifted characters and the
    SSID byte, which [decode] reads back. *)
Lemma encode_decode_address upper a (is_last : bool) :
  wire_address upper a ->
  exists body s,
    encode a is_last = Ok (body ++ [s])
    /\ length body = 6%nat
    /\ Z.land (ord s) 1 = (if is_last then 1 else 0)
    /\ decode upper (body ++ [s]) = Ok (Some a).
Proof.
  intros (Hascii & Hlen & Hsp & Hup & Hssid).
  destruct a as [cs sd]. cbn [callsign ssid] in *.
  set (padded := ljust 6 SPACE cs).
  assert (Hpad : padded = cs ++ replicate (6 - length cs) SPACE).
  { unfold padded, ljust. rewrite (len_ascii cs Hascii). do 2 f_equal. lia. }
  assert (Hpa : isascii padded = true).
  { rewrite Hpad. unfold isascii in *. rewrite forallb_app, Hascii. cbn [andb].
    apply forallb_forall. intros x Hx%list_elem_of_In.
    by apply elem_of_replicate in Hx as [-> _]. }
  destruct (shift_chars_ascii padded Hpa) as (body & Hbody & Hblen & Hmap).
  destruct (ssid_byte sd is_last Hssid) as (s & Hs & Hsd & Hext).
  assert (Hb6 : length body = 6%nat).
  { rewrite Hblen, Hpad, length_app, length_replicate. lia. }
  exists body, s. split; [|split; [done|split; [done|]]].
  - unfold encode. cbn [callsign ssid]. fold padded. rewrite Hbody. cbn [bind].
    destruct is_last; rewrite Hs; done.
  - unfold decode.
    rewrite length_app, Hb6. cbn [length Nat.add Nat.eqb negb].
    rewrite take_app_length' by done. rewrite Hmap, Hpad, filter_spaces by done.
    rewrite lookup_app_r by lia. rewrite Hb6. cbn [Nat.sub lookup list_lookup].
    rewrite Hsd. unfold AX25Address_new. rewrite Hup, (len_ascii cs Hascii).
    destruct (Z.ltb_spec 6 (Z.of_nat (length cs))); [lia|].
    destruct (Z.leb_spec 0 sd); [|lia]. destruct (Z.leb_spec sd 15); [|lia]. done.
Qed.

(** X7.  An address with a callsign of at most six ASCII characters without
    a space, already in upper case, and an SSID of 0 to 15 is encoded in
    7 bytes, the last of which carries the extension bit exactly when
    [is_last] is set, and [AX25Address.decode] reads the same address
    back from them. *)
Theorem ax25_address_roundtrip (upper : str -> str) (a : AX25Address)
    (is_last : bool) :
  wire_address upper a ->
  exists data,
    encode a is_last = Ok data
    /\ length data = 7%nat
    /\ (exists b, last data = Some b /\ Z.land (ord b) 1 = if is_last then 1 else 0)
    /\ decode upper data = Ok (Some a).
Proof.
  intros Ha.
  destruct (encode_decode_address upper a is_last Ha) as (body & s & He & Hl & Hx & Hd).
  exists (body ++ [s]). split; [done|]. split; [rewrite length_app, Hl; done|].
  split; [|done]. exists s. split; [apply last_snoc|done].
Qed.

Lemma ax25_address_roundtrip_witness :
  exists data,
    encode (mkAX25Address (u "N0CALL") 7) true = Ok data
    /\ length data = 7%nat
    /\ (exists b, last data = Some b /\ Z.land (ord b) 1 = 1)
    /\ decode ascii_upper data = Ok (Some (mkAX25Address (u "N0CALL") 7)).
Proof.
  apply (ax25_address_roundtrip ascii_upper (mkAX25Address (u "N0CALL") 7) true).
  split; [reflexivity|]. split; [cbn; lia|]. split; [CodecFacts.decide_closed|].
  split; [reflexivity|cbn; lia].
Defined.

Lemma parse_to_str {ucd : UnicodeData} (upper : str -> str) (a : AX25Address) :
  HYPHEN ∉ callsign a ->
  upper (callsign a) = callsign a ->
  len (callsign a) <= 6 ->
  0 <= ssid a <= 15 ->
  exists s, to_str a = Ok s
    /\ (ssid a = 0 -> s = callsign a)
    /\ parse upper s = Ok a.
Proof.
  intros Hh Hup Hlen Hs. destruct a as [cs sd]. cbn [callsign ssid] in *.
  unfold to_str. cbn [callsign ssid].
  assert (Hnew : AX25Address_new upper cs sd = Ok (mkAX25Address cs sd)).
  { unfold AX25Address_new. rewrite Hup.
    destruct (Z.ltb_spec 6 (len cs)); [lia|].
    destruct (Z.leb_spec 0 sd); [|lia]. destruct (Z.leb_spec sd 15); [|lia]. done. }
  unfold parse. destruct (Z.eqb_spec sd 0) as [->|Hne].
  - eexists. split; [reflexivity|]. split; [done|].
    unfold contains. rewrite bool_decide_eq_false_2 by done. exact Hnew.
  - rewrite str_of_int_small by lia. cbn [bind].
    eexists. split; [reflexivity|]. split; [done|].
    cbn [app]. rewrite contains_app, split1_app by done.
    rewrite int_of_str_decimal by (apply small_fits; lia). cbn [bind]. exact Hnew.
Qed.

(** X8.  The text form of an address reads back: for a callsign of at most
    six characters without a hyphen, already in upper case, and an SSID of
    0 to 15, [AX25Address.parse(str(a))] is [a]; the SSID 0 is written
    without a suffix. *)
Theorem ax25_address_text_roundtrip {ucd : UnicodeData} (upper : str -> str)
    (a : AX25Address) :
  HYPHEN ∉ callsign a ->
  upper (callsign a) = callsign a ->
  len (callsign a) <= 6 ->
  0 <= ssid a <= 15 ->
  exists s, to_str a = Ok s
    /\ (ssid a = 0 -> s = callsign a)
    /\ parse upper s = Ok a.
Proof. apply parse_to_str. Qed.

Lemma ax25_address_text_roundtrip_witness :
  exists s, to_str (mkAX25Address (u "W1AW") 12) = Ok s
    /\ (12 = 0 -> s = u "W1AW")
    /\ parse (ucd := unicode_excerpt) ascii_upper s = Ok (mkAX25Address (u "W1AW") 12).
Proof.
  apply (ax25_address_text_roundtrip (ucd := unicode_excerpt) ascii_upper
           (mkAX25Address (u "W1AW") 12)).
  - CodecFacts.decide_closed.
  - reflexivity.
  - by vm_compute.
  - cbn. lia.
Defined.

Lemma length_6 {A} (l : list A) :
  length l = 6%nat -> exists a b c d e f, l = [a; b; c; d; e; f].
Proof.
  intros H. do 6 (destruct l as [|? l]; [done|]). destruct l; [|done].
  by eexists _, _, _, _, _, _.
Qed.

Lemma encode_decode_digipeaters upper digis : forall n i acc tail,
  Forall (wire_address upper) digis ->
  (i + length digis = n)%nat ->
  exists bs,
    encode_digipeaters n i digis = Ok bs
    /\ length bs = (7 * length digis)%nat
    /\ (digis <> [] ->
        decode_digipeaters upper (bs ++ tail) acc = Ok (tail, acc ++ digis)).
Proof.
  induction digis as [|digi rest IH]; intros n i acc tail Hall Hn.
  { exists []. split; [done|]. split; done. }
  apply Forall_cons in Hall as [Hd Hrest].
  cbn [length] in Hn.
  destruct (IH n (S i) (acc ++ [digi]) tail Hrest ltac:(lia)) as (bs & Hbs & Hlen & Hdec).
  destruct (encode_decode_address upper digi (i =? n - 1)%nat Hd)
    as (body & s & Henc & Hb6 & Hext & Hda).
  exists ((body ++ [s]) ++ bs). cbn [encode_digipeaters].
  rewrite Henc, Hbs. cbn [bind]. split; [done|].
  split; [rewrite !length_app, Hb6, Hlen; cbn; lia|]. intros _.
  destruct (length_6 body Hb6) as (b0 & b1 & b2 & b3 & b4 & b5 & ->).
  cbn [app decode_digipeaters]. cbn [app] in Hda. rewrite Hda. cbn [bind].
  rewrite Hext. destruct rest as [|digi' rest'].
  - replace (i =? n - 1)%nat with true by (symmetry; apply Nat.eqb_eq; cbn in Hn; lia).
    cbn [Z.eqb negb]. cbn [encode_digipeaters] in Hbs. injection Hbs as <-. done.
  - replace (i =? n - 1)%nat with false by (symmetry; apply Nat.eqb_neq; cbn in Hn; lia).
    cbn [Z.eqb negb]. rewrite Hdec by done. by rewrite <- app_assoc.
Qed.

Lemma encode_decode_ax25_frame (upper : str -> str) (f : AX25Frame) :
  wire_frame upper f ->
  exists data,
    AX25Frame_encode f = Ok data
    /\ length data = (16 + 7 * length (digipeaters f) + length (info f))%nat
    /\ AX25Frame_decode upper data = Some f.
Proof.
  intros (Hd & Hs & Hdg & Hc & Hp). destruct f as [dst src digis ctl pd inf].
  cbn [destination source digipeaters control pid info] in *.
  destruct (encode_decode_address upper dst false Hd)
    as (bd & sd & Hed & Hbd & _ & Hdd).
  destruct (encode_decode_address upper src (length digis =? 0)%nat Hs)
    as (bs & ss & Hes & Hbs & Hxs & Hds).
  destruct (encode_decode_digipeaters upper digis (length digis) 0 []
              ([default Byte.x00 (Byte.of_N (Z.to_N ctl))]
               ++ [default Byte.x00 (Byte.of_N (Z.to_N pd))] ++ inf) Hdg eq_refl)
    as (bg & Hbg & Hlg & Hdec).
  destruct (proj2 (byte_of_int_range ctl) Hc) as [c Hbc].
  destruct (proj2 (byte_of_int_range pd) Hp) as [p Hbp].
  pose proof (byte_of_int_Ok _ _ Hbc) as Hoc.
  pose proof (byte_of_int_Ok _ _ Hbp) as Hop.
  assert (Hc' : default Byte.x00 (Byte.of_N (Z.to_N ctl)) = c).
  { rewrite <- Hoc. unfold ord. by rewrite N2Z.id, Byte.of_to_N. }
  assert (Hp' : default Byte.x00 (Byte.of_N (Z.to_N pd)) = p).
  { rewrite <- Hop. unfold ord. by rewrite N2Z.id, Byte.of_to_N. }
  rewrite Hc', Hp' in Hdec.
  exists ((bd ++ [sd]) ++ (bs ++ [ss]) ++ bg ++ [c] ++ [p] ++ inf).
  split; [|split].
  - unfold AX25Frame_encode. cbn [destination source digipeaters control pid info].
    rewrite Hed, Hes, Hbg, Hbc, Hbp. done.
  - rewrite !length_app, Hbd, Hbs, Hlg. cbn [length]. lia.
  - destruct (length_6 bd Hbd) as (d0 & d1 & d2 & d3 & d4 & d5 & ->).
    destruct (length_6 bs Hbs) as (s0 & s1 & s2 & s3 & s4 & s5 & ->).
    unfold AX25Frame_decode.
    replace (length _ <? 16)%nat with false.
    2:{ symmetry. apply Nat.ltb_ge. rewrite !length_app. cbn [length]. lia. }
    cbn [app slice Nat.sub drop take lookup list_lookup].
    rewrite take_0, drop_0. cbn [app] in Hdd, Hds, Hdec.
    rewrite Hdd. cbn [bind]. rewrite Hds. cbn [bind].
    rewrite Hxs. destruct digis as [|g digis'].
    + cbn [length Nat.eqb Z.eqb bind]. cbn [encode_digipeaters] in Hbg.
      injection Hbg as <-. cbn [app catch_none]. by rewrite Hoc, Hop.
    + cbn [length Nat.eqb Z.eqb]. rewrite Hdec by done. cbn [bind app catch_none].
      by rewrite Hoc, Hop.
Qed.


(** X9.  A frame whose addresses are as in X7 and whose control and PID
    fit a byte is encoded in [16 + 7 * len(digipeaters) + len(info)] bytes,
    and [AX25Frame.decode] reads the same frame back from them: addresses,
    digipeaters in order, control, PID and information field. *)
Theorem ax25_frame_roundtrip (upper : str -> str) (f : AX25Frame) :
  wire_frame upper f ->
  exists data,
    AX25Frame_encode f = Ok data
    /\ length data = (16 + 7 * length (digipeaters f) + length (info f))%nat
    /\ AX25Frame_decode upper data = Some f.
Proof. apply encode_decode_ax25_frame. Qed.

Lemma ax25_frame_roundtrip_witness :
  exists data,
    AX25Frame_encode
      (mkAX25Frame (mkAX25Address (u "RFMP") 0) (mkAX25Address (u "N0CALL") 7)
         [mkAX25Address (u "WIDE1") 1; mkAX25Address (u "WIDE2") 2] 3 240 (u "hi"))
    = Ok data
    /\ length data = (16 + 7 * 2 + 2)%nat
    /\ AX25Frame_decode ascii_upper data
       = Some (mkAX25Frame (mkAX25Address (u "RFMP") 0) (mkAX25Address (u "N0CALL") 7)
                 [mkAX25Address (u "WIDE1") 1; mkAX25Address (u "WIDE2") 2] 3 240 (u "hi")).
Proof.
  apply (ax25_frame_roundtrip ascii_upper
           (mkAX25Frame (mkAX25Address (u "RFMP") 0) (mkAX25Address (u "N0CALL") 7)
              [mkAX25Address (u "WIDE1") 1; mkAX25Address (u "WIDE2") 2] 3 240 (u "hi"))).
  assert (Hw : forall cs sd, isascii cs = true -> (length cs <=? 6)%nat = true ->
             bool_decide (SPACE ∉ cs) = true -> ascii_upper cs = cs ->
             (0 <=? sd) && (sd <=? 15) = true ->
             wire_address ascii_upper (mkAX25Address cs sd)).
  { intros cs sd H1 H2 H3 H4 H5. split; [done|]. split; [by apply Nat.leb_le|].
    split; [by apply bool_decide_eq_true_1 in H3|]. split; [done|]. cbn. lia. }
  split; [by apply Hw|]. split; [by apply Hw|].
  split; [repeat constructor; by apply Hw|]. cbn. lia.
Defined.

End AX25Codec.
(** ** The link: KISS around AX.25 around the payload *)

Module LinkFacts.
Import Text TextFacts AX25 AX25Codec Direwolf.

Section Link.

Variable upper : str -> str.

Context {ucd : UnicodeData}.

Lemma send_frame_wire config data :
  station_ok upper config ->
  exists ax25_data wire,
    send_frame upper config true data (u "RFMP") = (true, Some wire)
    /\ KISS.encode_data (KISS.new 0) ax25_data = Ok wire
    /\ wire <> []
    /\ AX25Frame_decode upper ax25_data = Some (ui_frame config data).
Proof.
  intros (Hoff & Hascii & Hlen & Hsp & Hhy & Hup & Hssid & Hrfmp).
  set (src := mkAX25Address (Direwolf.callsign config) (Direwolf.ssid config)).
  assert (Hsrc : exists source_str,
             source_of config = Ok source_str /\ parse upper source_str = Ok src).
  { assert (source_of config = to_str src) as ->.
    { unfold source_of, to_str, src. cbn [AX25.callsign AX25.ssid].
      destruct (Z.ltb_spec 0 (Direwolf.ssid config));
        destruct (Z.eqb_spec (Direwolf.ssid config) 0); (done || lia). }
    destruct (parse_to_str upper src) as (s & Hs & _ & Hp);
      cbn [AX25.callsign AX25.ssid src]; try done.
    - rewrite (len_ascii _ Hascii). lia.
    - by exists s. }
  destruct Hsrc as (source_str & Hsource & Hsrc).
  assert (Hdst : parse upper (u "RFMP") = Ok (mkAX25Address (u "RFMP") 0)).
  { unfold parse. replace (contains HYPHEN (u "RFMP")) with false by (by vm_compute).
    unfold AX25Address_new. rewrite Hrfmp. by vm_compute. }
  assert (Hwire : wire_frame upper (ui_frame config data)).
  { split; [|split; [|split; [constructor|cbn; lia]]].
    - split; [by vm_compute|]. split; [cbn; lia|].
      split; [CodecFacts.decide_closed|]. split; [done|cbn; lia].
    - unfold wire_address. cbn [ui_frame source AX25.callsign AX25.ssid].
      do 4 (split; [done|]). done. }
  destruct (encode_decode_ax25_frame upper _ Hwire) as (ax25_data & Henc & _ & Hdec).
  destruct (KISSFraming.encode_decode_frame 0 KISS.DATA_FRAME ax25_data ltac:(lia))
    as (wire & Hk & _).
  exists ax25_data, wire. split; [|split; [done|split; [|done]]].
  - unfold send_frame. rewrite Hoff. cbn [negb]. rewrite Hsource. cbn [bind].
    unfold create_ui_frame. rewrite Hsrc, Hdst. cbn [bind parse_all].
    fold src. change (mkAX25Frame _ src [] 3 240 data) with (ui_frame config data).
    rewrite Henc. cbn [bind]. unfold KISS.encode_data. cbn [KISS.new KISS.kp_port].
    by rewrite Hk.
  - intros ->. unfold KISS.encode in Hk.
    destruct (byte_of_int _); [|done]. cbn [bind] in Hk. done.
Qed.

Lemma deliver_ui config data ax25_data :
  AX25Frame_decode upper ax25_data = Some (ui_frame config data) ->
  deliver upper [KISS.mkKISSFrame 0 KISS.DATA_FRAME ax25_data] = [ui_frame config data].
Proof. intros H. unfold deliver. cbn [omap list_omap KISS.data]. by rewrite H. Qed.

(** X10.  What [send_frame] writes for a payload, read in one piece by the
    [_receive_loop] of a station that has just connected, is delivered to
    [on_frame_received] as one UI frame from the sender's callsign and SSID
    to [RFMP], carrying the payload byte for byte. *)
Theorem link_roundtrip (config : DirewolfConfig) (data : list byte) :
  station_ok upper config ->
  exists wire,
    send_frame upper config true data (u "RFMP") = (true, Some wire)
    /\ _receive_loop upper true (KISS.new 0) [wire] = [ui_frame config data].
Proof.
  intros Hok.
  destruct (send_frame_wire config data Hok) as (ax25_data & wire & Hsend & Hk & Hne & Hdec).
  exists wire. split; [done|].
  destruct wire as [|b wire']; [done|]. cbn [_receive_loop].
  rewrite (KISSFraming.decode_frames_concat 0 _ _ [ax25_data] [b :: wire']).
  - cbn [fmap list_fmap]. rewrite (deliver_ui config data) by done. done.
  - lia.
  - done.
  - cbn [KISS.new KISS.buffer concat app]. by rewrite app_nil_r.
  - by repeat constructor.
Qed.

(** X11.  The same bytes arrive differently in one read and in two.  Two
    frames read together are each delivered once.  Read one after the
    other, the second is delivered twice: from its second pass on the loop
    extends the decoder's own buffer and then passes the whole buffer to
    [decode_frames], which appends it again. *)
Theorem later_reads_are_decoded_twice (config : DirewolfConfig)
    (data1 data2 : list byte) :
  station_ok upper config ->
  exists wire1 wire2,
    send_frame upper config true data1 (u "RFMP") = (true, Some wire1)
    /\ send_frame upper config true data2 (u "RFMP") = (true, Some wire2)
    /\ _receive_loop upper true (KISS.new 0) [wire1 ++ wire2]
       = [ui_frame config data1; ui_frame config data2]
    /\ _receive_loop upper true (KISS.new 0) [wire1; wire2]
       = [ui_frame config data1; ui_frame config data2; ui_frame config data2].
Proof.
  intros Hok.
  destruct (send_frame_wire config data1 Hok) as (a1 & w1 & Hs1 & Hk1 & Hne1 & Hd1).
  destruct (send_frame_wire config data2 Hok) as (a2 & w2 & Hs2 & Hk2 & Hne2 & Hd2).
  exists w1, w2. split; [done|]. split; [done|]. split.
  - destruct (w1 ++ w2) as [|b w] eqn:Hw; [by destruct w1|]. cbn [_receive_loop].
    rewrite (KISSFraming.decode_frames_concat 0 _ _ [a1; a2] [w1; w2]).
    + unfold deliver. cbn [fmap list_fmap omap list_omap KISS.data]. by rewrite Hd1, Hd2.
    + lia.
    + done.
    + cbn [KISS.new KISS.buffer concat app]. by rewrite app_nil_r, Hw.
    + by repeat constructor.
  - destruct w1 as [|b1 w1']; [done|]. destruct w2 as [|b2 w2']; [done|].
    cbn [_receive_loop].
    rewrite (KISSFraming.decode_frames_concat 0 _ _ [a1] [b1 :: w1']);
      [|lia|done|cbn [KISS.new KISS.buffer concat app]; by rewrite app_nil_r
       |by repeat constructor].
    cbn [KISS.new KISS.buffer KISS.kp_port app].
    rewrite (KISSFraming.decode_frames_concat 0 _ _ [a2; a2] [b2 :: w2'; b2 :: w2']);
      [|lia|done|cbn [KISS.buffer concat app]; by rewrite app_nil_r
       |by repeat constructor].
    unfold deliver. cbn [fmap list_fmap omap list_omap KISS.data app]. by rewrite Hd1, Hd2.
Qed.

End Link.

Lemma demo_station_ok : station_ok ascii_upper demo_station.
Proof.
  split; [done|]. split; [done|]. split; [cbn; lia|].
  split; [CodecFacts.decide_closed|]. split; [CodecFacts.decide_closed|].
  split; [done|]. split; [cbn; lia|done].
Qed.

Lemma link_roundtrip_witness :
  exists wire,
    send_frame (ucd := unicode_excerpt) ascii_upper demo_station true (u "MSG|id=1")
      (u "RFMP") = (true, Some wire)
    /\ _receive_loop ascii_upper true (KISS.new 0) [wire]
       = [ui_frame demo_station (u "MSG|id=1")].
Proof.
  apply (link_roundtrip ascii_upper (ucd := unicode_excerpt) demo_station).
  exact demo_station_ok.
Defined.

Lemma later_reads_are_decoded_twice_witness :
  exists wire1 wire2,
    send_frame (ucd := unicode_excerpt) ascii_upper demo_station true (u "one")
      (u "RFMP") = (true, Some wire1)
    /\ send_frame (ucd := unicode_excerpt) ascii_upper demo_station true (u "two")
         (u "RFMP") = (true, Some wire2)
    /\ _receive_loop ascii_upper true (KISS.new 0) [wire1 ++ wire2]
       = [ui_frame demo_station (u "one"); ui_frame demo_station (u "two")]
    /\ _receive_loop ascii_upper true (KISS.new 0) [wire1; wire2]
       = [ui_frame demo_station (u "one"); ui_frame demo_station (u "two");
          ui_frame demo_station (u "two")].
Proof.
  apply (later_reads_are_decoded_twice ascii_upper (ucd := unicode_excerpt) demo_station).
  exact demo_station_ok.
Defined.

End LinkFacts.
(** ** The parser: what a decoded frame satisfies *)

Module ParserFacts.
Import Text TextFacts Frames FrameParser Codec.

Ltac bind_Ok H :=
  repeat match type of H with
         | bind ?r _ = Ok _ =>
             let E := fresh "E" in
             destruct r eqn:E; cbn [bind] in H; [|discriminate H]
         end.

Lemma MSG_new_valid i f t c p r b m :
  MSG_new i f t c p r b = Ok m ->
  MSG_valid m /\ validate_frame (FrameMSG m) = validate_beyond_constructor (FrameMSG m).
Proof.
  unfold MSG_new, MSG_valid.
  destruct (negb ((8 <=? len i) && (len i <=? 12))) eqn:H1; [done|].
  destruct (negb ((0 <=? p) && (p <=? 3))) eqn:H2; [done|].
  destruct (negb (islower c) || negb (isascii c)) eqn:H3; [done|].
  intros [= <-]. cbn [id from_node timestamp channel priority reply_to body].
  unfold MSG_new. rewrite H1, H2, H3. split; [done|].
  unfold validate_frame, validate_beyond_constructor.
  cbn [id from_node timestamp channel priority reply_to body].
  rewrite H1, H2, H3.
  destruct (len t =? 16); destruct (bool_decide _); destruct (bool_decide _); done.
Qed.

Lemma FRAG_new_valid i x n d f :
  FRAG_new i x n d = Ok f ->
  FRAG_valid f /\ validate_frame (FrameFRAG f) = true.
Proof.
  unfold FRAG_new, FRAG_valid.
  destruct ((x <? 0) || (n <=? x)) eqn:H1; [done|].
  intros [= <-]. cbn [message_id idx total data]. unfold FRAG_new. rewrite H1.
  split; [done|]. unfold validate_frame. cbn [message_id idx total data]. rewrite H1.
  apply orb_false_iff in H1 as [Hx Hn].
  destruct (Z.leb_spec n 0); [lia|done].
Qed.

Lemma SYNC_new_valid n bfs w s :
  SYNC_new n bfs w = Ok s ->
  SYNC_valid s
  /\ validate_frame (FrameSYNC s) = forallb (fun bf => (length bf =? 32)%nat) (bloom_filters s).
Proof.
  unfold SYNC_new, SYNC_valid.
  destruct (negb (length bfs =? 3)%nat) eqn:H1; [done|].
  destruct (negb ((0 <=? w) && (w <=? 2))) eqn:H2; [done|].
  intros [= <-]. cbn [sync_from_node bloom_filters window_index].
  unfold SYNC_new. rewrite H1, H2. split; [done|].
  unfold validate_frame. cbn [sync_from_node bloom_filters window_index].
  by rewrite H1, H2.
Qed.

(** *** The integers that [int] returns *)

Lemma digit_val_range b d : digit_val b = Some d -> 0 <= d <= 9 /\ in_range 48 57 b = true.
Proof.
  unfold digit_val. destruct (in_range 48 57 b) eqn:Hb; [|done].
  intros [= <-]. unfold in_range in Hb. lia.
Qed.

Lemma digit_val_None b : digit_val b = None -> in_range 48 57 b = false.
Proof. unfold digit_val. by destruct (in_range 48 57 b). Qed.

Lemma count_digits_cons b s :
  count_digits (b :: s) = (if in_range 48 57 b then 1 else 0) + count_digits s.
Proof.
  unfold count_digits. rewrite filter_cons.
  destruct (in_range 48 57 b) eqn:Hb.
  - rewrite decide_True by done. cbn [length]. lia.
  - rewrite decide_False by done. lia.
Qed.

Lemma count_digits_nonneg s : 0 <= count_digits s.
Proof. unfold count_digits. lia. Qed.

(** Digits after [acc] give a number below [(acc + 1) * 10^digits]. *)
Lemma parse_digits_bound s : forall acc prev n,
  0 <= acc -> parse_digits s acc prev = Some n ->
  0 <= n < (acc + 1) * 10 ^ count_digits s.
Proof.
  induction s as [|b r IH]; intros acc prev n Hacc Hn.
  - cbn in Hn. destruct prev; [|done]. injection Hn as <-.
    change (count_digits []) with 0. rewrite Z.pow_0_r. lia.
  - cbn [parse_digits] in Hn. rewrite count_digits_cons.
    pose proof (count_digits_nonneg r) as Hc.
    destruct (digit_val b) as [d|] eqn:Hd.
    + destruct (digit_val_range b d Hd) as [Hrange ->].
      apply IH in Hn; [|lia].
      rewrite Z.pow_add_r by lia. change (10 ^ 1) with 10.
      assert (0 < 10 ^ count_digits r) by (apply Z.pow_pos_nonneg; lia). nia.
    + rewrite (digit_val_None b Hd). rewrite Z.add_0_l.
      destruct (decide (b = "_"%byte)); [|done]. destruct prev; [|done].
      by apply IH in Hn.
Qed.

Section Unicode.

Context {ucd : UnicodeData}.

(** What [int] returns, [str] writes back. *)
Lemma int_of_str_int_ok s n : int_of_str s = Ok n -> int_ok n.
Proof.
  unfold int_of_str, int_of_ascii, int_ok.
  set (body := strip _).
  assert (Hgen : forall neg ds,
            match parse_digits ds 0 false with
            | Some n0 =>
                if MAX_STR_DIGITS <? count_digits ds then Raise ValueError
                else Ok (if neg : bool then - n0 else n0)
            | None => Raise ValueError
            end = Ok n -> Z.abs n < 10 ^ MAX_STR_DIGITS).
  { intros neg ds. destruct (parse_digits ds 0 false) as [n0|] eqn:Hp; [|done].
    destruct (Z.ltb_spec MAX_STR_DIGITS (count_digits ds)) as [|Hle]; [done|].
    intros [= <-]. apply parse_digits_bound in Hp; [|lia].
    assert (Hpow : 10 ^ count_digits ds <= 10 ^ MAX_STR_DIGITS).
    { apply Z.pow_le_mono_r; [lia|done]. }
    destruct neg; lia. }
  destruct body as [|b r]; [apply (Hgen false [])|].
  destruct (decide (b = "-"%byte)); [apply (Hgen true r)|].
  destruct (decide (b = "+"%byte)); [apply (Hgen false r)|apply (Hgen false (b :: r))].
Qed.

Lemma ints_of_strs_int_ok l : forall ns, ints_of_strs l = Ok ns -> Forall int_ok ns.
Proof.
  induction l as [|s l IH]; intros ns Hns; cbn [ints_of_strs] in Hns.
  - injection Hns as <-. constructor.
  - destruct (int_of_str s) as [i|] eqn:Hi; [|done]. cbn [bind] in Hns.
    destruct (ints_of_strs l) as [r|] eqn:Hr; [|done]. cbn [bind] in Hns.
    injection Hns as <-. constructor; [by eapply int_of_str_int_ok|by apply IH].
Qed.

Lemma MSG_new_fields i f t c p r b m : MSG_new i f t c p r b = Ok m -> priority m = p.
Proof.
  unfold MSG_new. repeat (destruct (_ : bool); [done|]). by intros [= <-].
Qed.

Lemma FRAG_new_fields i x n d f : FRAG_new i x n d = Ok f -> idx f = x /\ total f = n.
Proof. unfold FRAG_new. destruct (_ : bool); [done|]. by intros [= <-]. Qed.

Lemma SYNC_new_fields n bfs w s : SYNC_new n bfs w = Ok s -> window_index s = w.
Proof.
  unfold SYNC_new. repeat (destruct (_ : bool); [done|]). by intros [= <-].
Qed.

(** X12.  Every frame that [FrameParser.decode] returns is one that its
    constructor accepts (id length, priority, channel, fragment index,
    three filters, window index), whatever bytes it was decoded from and
    whatever the interpreter's Unicode tables are; so on a decoded frame
    [validate_frame] can only fail on the checks that the constructors do
    not make: the timestamp format of a MSG, the size of the filters of a
    SYNC and the empty message id of a REQ.  The integers of a decoded
    frame have at most 4300 digits, so that [str] writes them back. *)
Theorem decoded_frame_is_valid (data : list byte) (frame : Frame) :
  decode data = Some frame ->
  Frame_valid frame
  /\ validate_frame frame = validate_beyond_constructor frame
  /\ Forall int_ok (int_fields frame).
Proof.
  unfold decode. destruct (decode_utf8 data) as [text|]; [|done]. cbn [bind].
  destruct (split PIPE text) as [|frame_type_str [|part rest]]; [done|done|].
  destruct (FrameType_of_value frame_type_str) as [[| | |]|]; [| | | |done];
    cbn [catch_none].
  - destruct (MSG_from_dict _) as [m|] eqn:Hm; [|done]. cbn [bind catch_none].
    intros [= <-]. unfold MSG_from_dict in Hm. bind_Ok Hm.
    pose proof (MSG_new_fields _ _ _ _ _ _ _ _ Hm) as Hp.
    apply MSG_new_valid in Hm as [Hv Hval]. split; [done|]. split; [done|].
    cbn [int_fields]. rewrite Hp. constructor; [by eapply int_of_str_int_ok|constructor].
  - destruct (FRAG_from_dict _) as [f|] eqn:Hf; [|done]. cbn [bind catch_none].
    intros [= <-]. unfold FRAG_from_dict in Hf. bind_Ok Hf.
    pose proof (FRAG_new_fields _ _ _ _ _ Hf) as [Hi Ht].
    apply FRAG_new_valid in Hf as [Hv Hval]. split; [done|]. split; [done|].
    cbn [int_fields]. rewrite Hi, Ht.
    repeat constructor; by eapply int_of_str_int_ok.
  - destruct (SYNC_from_dict _) as [s|] eqn:Hs; [|done]. cbn [bind catch_none].
    intros [= <-]. unfold SYNC_from_dict in Hs. bind_Ok Hs.
    pose proof (SYNC_new_fields _ _ _ _ Hs) as Hw.
    apply SYNC_new_valid in Hs as [Hv Hval]. split; [done|]. split; [done|].
    cbn [int_fields]. rewrite Hw. constructor; [by eapply int_of_str_int_ok|constructor].
  - destruct (REQ_from_dict _) as [r|] eqn:Hr; [|done]. cbn [bind catch_none].
    intros [= <-]. split; [done|]. split; [done|].
    unfold REQ_from_dict in Hr. cbn [int_fields].
    destruct (_ !! u "missing") as [ms|].
    + destruct (ints_of_strs _) as [l|] eqn:Hl; [|done]. cbn [bind] in Hr.
      bind_Ok Hr. injection Hr as <-. cbn [missing_fragments default].
      by apply ints_of_strs_int_ok in Hl.
    + cbn [bind] in Hr. bind_Ok Hr. injection Hr as <-. constructor.
Qed.

End Unicode.

Lemma decoded_frame_is_valid_witness :
  decode (ucd := unicode_excerpt) frag_arabic
    = Some (FrameFRAG (mkFRAG (u "deadbeef0123") 0 3 (u "hi")))
  /\ Frame_valid (FrameFRAG (mkFRAG (u "deadbeef0123") 0 3 (u "hi")))
  /\ validate_frame (FrameFRAG (mkFRAG (u "deadbeef0123") 0 3 (u "hi")))
     = validate_beyond_constructor (FrameFRAG (mkFRAG (u "deadbeef0123") 0 3 (u "hi")))
  /\ Forall int_ok (int_fields (FrameFRAG (mkFRAG (u "deadbeef0123") 0 3 (u "hi")))).
Proof.
  assert (Hdec : decode (ucd := unicode_excerpt) frag_arabic
                 = Some (FrameFRAG (mkFRAG (u "deadbeef0123") 0 3 (u "hi"))))
    by (vm_compute; reflexivity).
  split; [exact Hdec|].
  exact (decoded_frame_is_valid (ucd := unicode_excerpt) frag_arabic _ Hdec).
Defined.

End ParserFacts.
(** ** Fragment collectors *)

Module FragmenterFacts.
Import Text Frames FrameParser Codec Fragmentation CodecFacts FragmentationFacts.

Lemma present_missing_length (m : gmap Z (list byte)) (l : list Z) :
  (length (filter (fun i => is_Some (m !! i)) l)
   + length (filter (fun i => m !! i = None) l) = length l)%nat.
Proof.
  induction l as [|x l IH]; [done|].
  destruct (m !! x) as [d|] eqn:Hx.
  - rewrite filter_cons_True by (by rewrite Hx).
    rewrite (filter_cons_False (fun i => m !! i = None)) by (by rewrite Hx).
    cbn [length]. lia.
  - rewrite filter_cons_False by (rewrite Hx; by intros [? ?]).
    rewrite (filter_cons_True (fun i => m !! i = None)) by done.
    cbn [length]. lia.
Qed.

Lemma present_count (m : gmap Z (list byte)) (n : Z) :
  (forall i, is_Some (m !! i) -> 0 <= i < n) ->
  size m = length (filter (fun i => is_Some (m !! i)) (seqZ 0 n)).
Proof.
  intros Hrange. rewrite <- length_map_to_list.
  rewrite <- (length_fmap fst (map_to_list m)).
  apply Permutation_length, NoDup_Permutation.
  - apply NoDup_fst_map_to_list.
  - apply NoDup_filter, NoDup_seqZ.
  - intros i. rewrite list_elem_of_filter, elem_of_seqZ, list_elem_of_fmap. split.
    + intros ([k d] & -> & Hkd%elem_of_map_to_list). cbn [fst].
      assert (is_Some (m !! k)) as Hs by (by eexists).
      split; [done|]. specialize (Hrange k Hs). lia.
    + intros [[d Hd] _]. exists (i, d). split; [done|]. by apply elem_of_map_to_list.
Qed.

Lemma missing_count self :
  indexes_in_range self -> 0 <= total_fragments self ->
  Z.of_nat (length (get_missing_indexes self)) + Z.of_nat (size (fragments self))
  = total_fragments self.
Proof.
  intros Hrange Htot. unfold get_missing_indexes.
  rewrite (present_count _ _ Hrange).
  pose proof (present_missing_length (fragments self) (seqZ 0 (total_fragments self))) as H.
  rewrite length_seqZ in H. lia.
Qed.

Lemma mapM_lookup_Ok (m : gmap Z (list byte)) (l : list Z) :
  Forall (fun i => is_Some (m !! i)) l ->
  exists parts,
    mapM (fun i => match m !! i with Some d => Ok d | None => Raise KeyError end) l
    = Ok parts.
Proof.
  induction 1 as [|i l [d Hd] _ [parts IH]]; [by exists []|].
  exists (d :: parts). cbn [mapM]. by rewrite Hd, IH.
Qed.

Lemma mapM_lookup_Raise (m : gmap Z (list byte)) (l : list Z) i :
  i ∈ l -> m !! i = None ->
  mapM (fun i => match m !! i with Some d => Ok d | None => Raise KeyError end) l
  = Raise KeyError.
Proof.
  induction l as [|x l IH]; [by intros ?%elem_of_nil|].
  intros Hin Hi. cbn [mapM]. destruct (m !! x) as [d|] eqn:Hx; [|done]. cbn [bind].
  apply elem_of_cons in Hin as [->|Hin]; [congruence|]. by rewrite IH.
Qed.

(** X13.  In a collector whose fragments all have an index below its
    total, the missing indexes and the fragments held add up to the total;
    none is missing exactly when [is_complete] holds, and then
    [reassemble] returns the joined payloads without raising. *)
Theorem collector_missing_complete (self : FragmentCollector) :
  indexes_in_range self ->
  0 <= total_fragments self ->
  Z.of_nat (length (get_missing_indexes self))
    = total_fragments self - Z.of_nat (size (fragments self))
  /\ (get_missing_indexes self = [] <-> is_complete self = true)
  /\ (is_complete self = true ->
      exists parts,
        Forall2 (fun i d => fragments self !! i = Some d)
                (seqZ 0 (total_fragments self)) parts
        /\ reassemble self = Ok (Some (concat parts))).
Proof.
  intros Hrange Htot. pose proof (missing_count self Hrange Htot) as Hcount.
  split; [lia|]. split.
  - unfold is_complete. rewrite Z.eqb_eq. split.
    + intros H. rewrite H in Hcount. cbn in Hcount. lia.
    + intros H. apply length_zero_iff_nil. lia.
  - intros Hc. assert (Hnone : get_missing_indexes self = []).
    { unfold is_complete in Hc. apply Z.eqb_eq in Hc. apply length_zero_iff_nil. lia. }
    assert (Hall : Forall (fun i => is_Some (fragments self !! i))
                     (seqZ 0 (total_fragments self))).
    { apply Forall_forall. intros i Hi.
      destruct (fragments self !! i) as [d|] eqn:Hd; [by eexists|].
      assert (i ∈ get_missing_indexes self) as Hm
        by (by apply list_elem_of_filter).
      rewrite Hnone in Hm. by apply elem_of_nil in Hm. }
    unfold reassemble. rewrite Hc. cbn [negb].
    clear -Hall. induction Hall as [|i l [d Hd] _ (parts & HF & IH)].
    + exists []. split; [constructor|done].
    + destruct (mapM _ l) as [ps|] eqn:Hps; [|done]. cbn [bind] in IH.
      injection IH as Hcat.
      exists (d :: parts). split; [by constructor|].
      cbn [mapM]. rewrite Hd, Hps. cbn [bind concat].
      assert (ps = parts) as ->; [|done].
      clear -HF Hps. revert ps Hps.
      induction HF as [|j e l ps' Hj _ IH]; intros ps Hps.
      * cbn in Hps. by injection Hps.
      * cbn [mapM] in Hps. rewrite Hj in Hps. cbn [bind] in Hps.
        destruct (mapM _ l) as [qs|] eqn:Hqs; [|done]. cbn [bind] in Hps.
        injection Hps as <-. f_equal. by apply IH.
Qed.

Lemma two_of_three_in_range : indexes_in_range two_of_three.
Proof.
  unfold indexes_in_range.
  intros i. unfold two_of_three; cbn [fragments total_fragments].
  intros [<-|[_ H]]%lookup_insert_is_Some; [lia|].
  apply lookup_insert_is_Some in H as [<-|[_ H]]; [lia|].
  rewrite lookup_empty in H. by destruct H.
Qed.

Lemma collector_missing_complete_witness :
  Z.of_nat (length (get_missing_indexes two_of_three))
    = 3 - Z.of_nat (size (fragments two_of_three))
  /\ (get_missing_indexes two_of_three = [] <-> is_complete two_of_three = true)
  /\ (is_complete two_of_three = true ->
      exists parts,
        Forall2 (fun i d => fragments two_of_three !! i = Some d) (seqZ 0 3) parts
        /\ reassemble two_of_three = Ok (Some (concat parts))).
Proof.
  apply (collector_missing_complete two_of_three).
  - exact two_of_three_in_range.
  - cbn. lia.
Defined.

(** X14.  When a fragment with an index at or above the collector's total
    brings the number of fragments held up to that total, the collector
    counts as complete although an index below the total is missing, and
    [Fragmenter.add_fragment] ends with the [KeyError] of
    [self.fragments[i]]. *)
Theorem add_fragment_index_beyond_total {ucd : UnicodeData} (now : Z) (self : Fragmenter)
    (collector : FragmentCollector) (fragment : FRAG) :
  collectors self !! message_id fragment = Some collector ->
  fc_message_id collector = message_id fragment ->
  indexes_in_range collector ->
  Z.of_nat (size (fragments collector)) + 1 = total_fragments collector ->
  total_fragments collector <= idx fragment ->
  (add_fragment now self fragment).2 = Raise KeyError.
Proof.
  intros Hc Hid Hrange Hsize Hidx.
  assert (Hnew : fragments collector !! idx fragment = None).
  { destruct (fragments collector !! idx fragment) as [d|] eqn:Hd; [|done].
    assert (is_Some (fragments collector !! idx fragment)) as Hs by (by eexists).
    specialize (Hrange _ Hs). lia. }
  pose proof (missing_count collector Hrange ltac:(lia)) as Hcount.
  destruct (get_missing_indexes collector) as [|i rest] eqn:Hmiss;
    [cbn [length] in Hcount; lia|].
  assert (i ∈ get_missing_indexes collector) as Hi by (rewrite Hmiss; left).
  apply list_elem_of_filter in Hi as [Hnone Hin].
  pose proof Hin as Hin'. apply elem_of_seqZ in Hin'.
  unfold add_fragment. rewrite Hc. unfold collector_add_fragment.
  rewrite decide_False by (intros H; by apply H).
  rewrite Hnew. unfold is_complete. cbn [fragments total_fragments].
  rewrite map_size_insert_None by done.
  replace (Z.of_nat (S (size (fragments collector))) =? total_fragments collector)
    with true by (symmetry; apply Z.eqb_eq; lia).
  unfold reassemble, is_complete. cbn [fragments total_fragments].
  rewrite map_size_insert_None by done.
  replace (Z.of_nat (S (size (fragments collector))) =? total_fragments collector)
    with true by (symmetry; apply Z.eqb_eq; lia).
  cbn [negb].
  rewrite (mapM_lookup_Raise _ _ i Hin); [done|].
  rewrite lookup_insert_ne by lia. done.
Qed.

Lemma add_fragment_index_beyond_total_witness :
  FRAG_new (u "deadbeef0123") 5 6 (u "zz") = Ok (mkFRAG (u "deadbeef0123") 5 6 (u "zz"))
  /\ (add_fragment (ucd := unicode_excerpt) 1
        (mkFragmenter 200 {[u "deadbeef0123" := one_of_two]})
        (mkFRAG (u "deadbeef0123") 5 6 (u "zz"))).2 = Raise KeyError.
Proof.
  split; [reflexivity|].
  apply (add_fragment_index_beyond_total (ucd := unicode_excerpt) 1 _ one_of_two).
  - apply lookup_singleton_eq.
  - reflexivity.
  - unfold indexes_in_range. intros i. unfold one_of_two; cbn [fragments total_fragments].
    intros [<-|[_ H]]%lookup_insert_is_Some; [lia|].
    rewrite lookup_empty in H. by destruct H.
  - reflexivity.
  - cbn. lia.
Defined.

(** X15.  A fragment whose index the collector already holds is reported
    as not new and changes nothing: the payload received first stays, the
    other collectors stay, and no message is returned. *)
Theorem duplicate_fragment_ignored {ucd : UnicodeData} (now : Z) (self : Fragmenter)
    (collector : FragmentCollector) (fragment : FRAG) (held : list byte) :
  collectors self !! message_id fragment = Some collector ->
  fc_message_id collector = message_id fragment ->
  fragments collector !! idx fragment = Some held ->
  is_complete collector = false ->
  add_fragment now self fragment = (self, Ok (false, None)).
Proof.
  intros Hc Hid Hheld Hinc.
  unfold add_fragment. rewrite Hc. unfold collector_add_fragment.
  rewrite decide_False by (intros H; by apply H).
  rewrite Hheld, Hinc. rewrite insert_id by done. by destruct self.
Qed.

Lemma duplicate_fragment_ignored_witness :
  add_fragment (ucd := unicode_excerpt) 9
    (mkFragmenter 200 {[u "deadbeef0123" := two_of_three]})
    (mkFRAG (u "deadbeef0123") 2 3 (u "other"))
  = (mkFragmenter 200 {[u "deadbeef0123" := two_of_three]}, Ok (false, None)).
Proof.
  apply (duplicate_fragment_ignored (ucd := unicode_excerpt) 9 _ two_of_three _ (u "ef")).
  - apply lookup_singleton_eq.
  - reflexivity.
  - reflexivity.
  - reflexivity.
Defined.


(** *** Fragments of one message *)

Lemma fragment_message_cut threshold msg encoded :
  50 < threshold ->
  encode (FrameMSG msg) = Ok encoded ->
  threshold < Z.of_nat (length encoded) ->
  exists total,
    2 <= total
    /\ (total - 1) * (threshold - 50) < Z.of_nat (length encoded)
         <= total * (threshold - 50)
    /\ fragment_message (Fragmenter_new threshold) msg
       = Ok (cut msg encoded threshold total <$> seqZ 0 total)
    /\ concat (data <$> (cut msg encoded threshold total <$> seqZ 0 total)) = encoded.
Proof.
  intros Hthr Henc HL.
  set (L := Z.of_nat (length encoded)) in *.
  destruct (ceil_div_pos L (threshold - 50)) as (total & Hceil & Hlo & Hhi); [lia|].
  exists total. split; [nia|]. split; [done|]. split.
  - unfold fragment_message, Fragmenter_new. cbn [fragment_threshold].
    rewrite Henc. cbn [bind]. fold L.
    destruct (Z.leb_spec L threshold); [lia|].
    rewrite Hceil. cbn [bind]. apply mapM_Ok.
    intros i Hi. apply elem_of_seqZ in Hi. unfold FRAG_new, cut.
    destruct (Z.ltb_spec i 0); [lia|]. destruct (Z.leb_spec total i); [lia|]. done.
  - rewrite <- list_fmap_compose.
    change (concat (map (fun i => zslice encoded (i * (threshold - 50))
                     (Z.min (i * (threshold - 50) + (threshold - 50)) L))
                   (seqZ 0 total)) = encoded).
    replace total with (Z.of_nat (Z.to_nat total)) by nia.
    unfold L. rewrite chunks_take by lia. apply take_ge. nia.
Qed.

(** X16.  Every fragment that [fragment_message] returns is one that the
    FRAG constructor accepts; there are at least two; each payload has
    [threshold - 50] bytes, except the last, which has between 1 and
    [threshold - 50]. *)
Theorem fragment_payload_sizes (threshold : Z) (msg : MSG) (encoded : list byte) :
  50 < threshold ->
  encode (FrameMSG msg) = Ok encoded ->
  threshold < Z.of_nat (length encoded) ->
  exists frags,
    fragment_message (Fragmenter_new threshold) msg = Ok frags
    /\ (2 <= length frags)%nat
    /\ forall i f, frags !! i = Some f ->
         FRAG_valid f
         /\ 0 < Z.of_nat (length (data f)) <= threshold - 50
         /\ ((S i < length frags)%nat -> Z.of_nat (length (data f)) = threshold - 50).
Proof.
  intros Hthr Henc HL.
  destruct (fragment_message_cut threshold msg encoded Hthr Henc HL)
    as (tot & Ht & [Hlo Hhi] & Hfm & _).
  exists (cut msg encoded threshold tot <$> seqZ 0 tot). split; [done|].
  rewrite length_fmap, length_seqZ. split; [lia|].
  intros i f Hf. rewrite list_lookup_fmap in Hf.
  destruct (seqZ 0 tot !! i) as [j|] eqn:Hj; [|done].
  apply lookup_seqZ in Hj as [-> Hi]. injection Hf as <-.
  rewrite Z.add_0_l.
  set (s := threshold - 50) in *. set (L := Z.of_nat (length encoded)) in *.
  assert (Hlen : Z.of_nat (length (data (cut msg encoded threshold tot (Z.of_nat i))))
                 = Z.min (Z.of_nat i * s + s) L - Z.of_nat i * s).
  { unfold cut. cbn [data]. fold s. fold L. unfold zslice, slice.
    rewrite length_take, length_drop. unfold L in *. nia. }
  split; [|split].
  - unfold FRAG_valid, FRAG_new, cut. cbn [message_id idx total data].
    destruct (Z.ltb_spec (Z.of_nat i) 0); [lia|].
    destruct (Z.leb_spec tot (Z.of_nat i)); [lia|]. done.
  - rewrite Hlen. nia.
  - intros Hnext. rewrite Hlen. nia.
Qed.

Lemma msg_long_encoded :
  exists encoded, encode (FrameMSG msg_long) = Ok encoded
                  /\ 200 < Z.of_nat (length encoded).
Proof. eexists. split; vm_compute; reflexivity. Qed.

Lemma fragment_payload_sizes_witness :
  exists frags,
    fragment_message (Fragmenter_new 200) msg_long = Ok frags
    /\ (2 <= length frags)%nat
    /\ forall i f, frags !! i = Some f ->
         FRAG_valid f
         /\ 0 < Z.of_nat (length (data f)) <= 200 - 50
         /\ ((S i < length frags)%nat -> Z.of_nat (length (data f)) = 200 - 50).
Proof.
  destruct msg_long_encoded as (encoded & Henc & HL).
  apply (fragment_payload_sizes 200 msg_long encoded).
  - lia.
  - exact Henc.
  - exact HL.
Defined.

Lemma submseteq_NoDup {A} (l k : list A) : l ⊆+ k -> NoDup k -> NoDup l.
Proof.
  intros [k' Hk']%submseteq_Permutation Hnd. rewrite Hk' in Hnd.
  by apply NoDup_app in Hnd as [? _].
Qed.

Section AnyOrder.

Context {ucd : UnicodeData}.

Variables (recv : Z) (mid : str) (n : Z) (frags : list FRAG) (m' : MSG).

Hypothesis frags_id : Forall (fun f => message_id f = mid /\ total f = n) frags.
Hypothesis frags_idx : idx <$> frags = seqZ 0 n.
Hypothesis frags_data : concat (data <$> frags) <> [].
Hypothesis frags_decode : decode (concat (data <$> frags)) = Some (FrameMSG m').

Lemma held_keys received : ((fun f => (idx f, data f)) <$> received).*1 = idx <$> received.
Proof. rewrite <- list_fmap_compose. done. Qed.

Lemma frags_NoDup : NoDup (idx <$> frags).
Proof. rewrite frags_idx. apply NoDup_seqZ. Qed.

Lemma held_frags_lookup i f :
  frags !! i = Some f -> held frags !! Z.of_nat i = Some (data f).
Proof.
  intros Hf. unfold held. apply elem_of_list_to_map_1.
  - rewrite held_keys. apply frags_NoDup.
  - apply list_elem_of_fmap. exists f. split; [|by eapply list_elem_of_lookup_2].
    f_equal. assert ((idx <$> frags) !! i = Some (idx f)) as H
      by (by rewrite list_lookup_fmap, Hf).
    rewrite frags_idx in H. apply lookup_seqZ in H. lia.
Qed.

Lemma reassemble_frags t0 :
  reassemble (mkFragmentCollector mid n (held frags) t0)
  = Ok (Some (concat (data <$> frags))).
Proof.
  assert (Hlen : Z.of_nat (length frags) = n).
  { rewrite <- (length_fmap idx), frags_idx, length_seqZ.
    destruct (Z.le_gt_cases 0 n); [lia|].
    assert (seqZ 0 n = []) as E by (apply seqZ_nil; lia).
    rewrite E in frags_idx. apply fmap_nil_inv in frags_idx.
    exfalso. apply frags_data. by rewrite frags_idx. }
  unfold reassemble, is_complete. cbn [fragments total_fragments].
  unfold held at 1. rewrite map_size_list_to_map by (rewrite held_keys; apply frags_NoDup).
  rewrite length_fmap, Hlen, Z.eqb_refl. cbn [negb].
  rewrite <- frags_idx.
  rewrite (mapM_Ok _ (fun i => default [] (held frags !! i)) (idx <$> frags)).
  - cbn [bind]. do 3 f_equal. rewrite <- list_fmap_compose.
    apply list_eq. intros i. rewrite !list_lookup_fmap.
    destruct (frags !! i) as [f|] eqn:Hf; [|done]. cbn [fmap option_fmap option_map compose].
    assert ((idx <$> frags) !! i = Some (idx f)) as H
      by (by rewrite list_lookup_fmap, Hf).
    rewrite frags_idx in H. apply lookup_seqZ in H as [-> _]. rewrite Z.add_0_l.
    by rewrite (held_frags_lookup i f Hf).
  - intros i Hi. apply list_elem_of_lookup in Hi as [k Hk].
    rewrite list_lookup_fmap in Hk.
    destruct (frags !! k) as [f|] eqn:Hf; [|done]. injection Hk as <-.
    assert ((idx <$> frags) !! k = Some (idx f)) as H
      by (by rewrite list_lookup_fmap, Hf).
    rewrite frags_idx in H. apply lookup_seqZ in H as [-> _]. rewrite Z.add_0_l.
    by rewrite (held_frags_lookup k f Hf).
Qed.

(** One call, on a fragment whose index is new. *)
Lemma add_fragment_new now cs received t0 f :
  match cs !! mid with
  | Some c => c
  | None => mkFragmentCollector mid n ∅ now
  end = mkFragmentCollector mid n (held received) t0 ->
  (f :: received) ⊆+ frags ->
  add_fragment now (mkFragmenter recv cs) f
  = if decide (length (f :: received) = length frags)
    then (mkFragmenter recv (delete mid cs), Ok (true, Some m'))
    else (mkFragmenter recv
            (<[mid := mkFragmentCollector mid n (held (f :: received)) t0]> cs),
          Ok (true, None)).
Proof.
  intros Hc0 Hsub.
  assert (Hf : message_id f = mid /\ total f = n).
  { rewrite Forall_forall in frags_id. apply frags_id.
    eapply elem_of_submseteq; [|exact Hsub]. left. }
  destruct Hf as [Hfid Hftot].
  assert (Hnd : NoDup (idx <$> f :: received)).
  { eapply submseteq_NoDup; [|apply frags_NoDup]. by apply (fmap_submseteq idx). }
  assert (Hnew : held received !! idx f = None).
  { apply not_elem_of_list_to_map_1. rewrite held_keys.
    rewrite fmap_cons in Hnd. by apply NoDup_cons in Hnd as [? _]. }
  assert (Hsize : size (held (f :: received)) = length (f :: received)).
  { unfold held. rewrite map_size_list_to_map by (by rewrite held_keys).
    by rewrite length_fmap. }
  assert (Hn : Z.of_nat (length frags) = n).
  { rewrite <- (length_fmap idx), frags_idx, length_seqZ.
    destruct (Z.le_gt_cases 0 n); [lia|].
    assert (seqZ 0 n = []) as E by (apply seqZ_nil; lia).
    rewrite E in frags_idx. apply fmap_nil_inv in frags_idx.
    exfalso. apply frags_data. by rewrite frags_idx. }
  unfold add_fragment. cbn [collectors fragment_threshold]. rewrite Hfid, Hftot, Hc0.
  unfold collector_add_fragment. cbn [fc_message_id fragments total_fragments first_seen].
  rewrite decide_False by (intros H; by apply H).
  rewrite Hnew.
  change (<[idx f := data f]> (held received)) with (held (f :: received)).
  unfold is_complete at 1. cbn [fragments total_fragments]. rewrite Hsize.
  destruct (decide (length (f :: received) = length frags)) as [Hlen|Hnlen].
  - assert (Hperm : f :: received ≡ₚ frags)
      by (apply submseteq_length_Permutation; [done|lia]).
    rewrite Hlen, Hn, Z.eqb_refl.
    assert (held (f :: received) = held frags) as ->.
    { unfold held. apply list_to_map_proper; [by rewrite held_keys|].
      by apply fmap_Permutation. }
    rewrite reassemble_frags.
    destruct (concat (data <$> frags)) as [|b rest] eqn:Hcat; [done|].
    rewrite frags_decode. cbn [collectors fragment_threshold].
    by rewrite delete_insert_eq.
  - destruct (Z.eqb_spec (Z.of_nat (length (f :: received))) n) as [Heq|Hneq]; [|done].
    exfalso. apply Hnlen. lia.
Qed.

Lemma feed_rest : forall events received t0,
  received <> [] ->
  received ++ events.*2 ≡ₚ frags ->
  events <> [] ->
  feed (mkFragmenter recv
          {[mid := mkFragmentCollector mid n (held received) t0]}) events
  = (Fragmenter_new recv,
     replicate (length events - 1) (Ok (true, None)) ++ [Ok (true, Some m')]).
Proof.
  induction events as [|[now f] rest IH]; intros received t0 Hr Hperm Hne; [done|].
  cbn [feed]. cbn [fmap list_fmap snd] in Hperm.
  assert (Hperm' : (f :: received) ++ rest.*2 ≡ₚ frags).
  { rewrite <- Hperm. cbn [app]. by rewrite Permutation_middle. }
  assert (Hsub : f :: received ⊆+ frags).
  { rewrite <- Hperm'. apply submseteq_inserts_r. done. }
  rewrite (add_fragment_new now _ received t0 f); [|by rewrite lookup_singleton_eq|done].
  destruct rest as [|ev rest'].
  - cbn [fmap list_fmap] in Hperm'. rewrite app_nil_r in Hperm'.
    rewrite decide_True by (by apply Permutation_length).
    cbn [feed length Nat.sub replicate app].
    by rewrite delete_singleton_eq.
  - rewrite decide_False.
    2:{ intros Hp. apply Permutation_length in Hperm'.
        rewrite length_app in Hperm'. rewrite <- Hp in Hperm'. cbn in Hperm'. lia. }
    rewrite insert_singleton_eq. rewrite (IH (f :: received) t0) by done.
    cbn [length Nat.sub]. by rewrite Nat.sub_0_r.
Qed.

Lemma feed_all events :
  events.*2 ≡ₚ frags ->
  feed (Fragmenter_new recv) events
  = (Fragmenter_new recv,
     replicate (length events - 1) (Ok (true, None)) ++ [Ok (true, Some m')]).
Proof.
  intros Hperm. destruct events as [|[now f] rest].
  { cbn in Hperm. apply Permutation_nil_l in Hperm.
    exfalso. apply frags_data. by rewrite <- Hperm. }
  cbn [feed]. cbn [fmap list_fmap snd] in Hperm.
  assert (Hsub : [f] ⊆+ frags).
  { rewrite <- Hperm. apply (submseteq_inserts_r (rest.*2) [f] [f]). done. }
  unfold Fragmenter_new at 1.
  rewrite (add_fragment_new now ∅ [] now f); [|by rewrite lookup_empty|done].
  destruct rest as [|ev rest'].
  - rewrite decide_True by (by apply Permutation_length).
    cbn [feed length Nat.sub replicate app].
    by rewrite delete_empty.
  - rewrite decide_False.
    2:{ intros Hp. apply Permutation_length in Hperm. cbn in Hp, Hperm.
        rewrite <- Hp in Hperm. cbn in Hperm. lia. }
    rewrite insert_empty. rewrite (feed_rest (ev :: rest') [f] now) by done.
    cbn [length Nat.sub]. by rewrite Nat.sub_0_r.
Qed.

End AnyOrder.

(** X17.  The fragments of a message reach a receiver's [Fragmenter] in any
    order, each once.  Every call but the last returns [(True, None)]; the
    last returns [(True, msg)], the message as it decodes from its
    encoding, when its text fields hold no field separator; and the
    receiver is left with no collector. *)
Theorem reassembly_any_order {ucd : UnicodeData} (threshold recv : Z) (msg : MSG)
    (encoded : list byte) (frags : list FRAG) (events : list (Z * FRAG)) :
  50 < threshold ->
  encode (FrameMSG msg) = Ok encoded ->
  threshold < Z.of_nat (length encoded) ->
  MSG_valid msg ->
  Forall wire_ok (text_fields (FrameMSG msg)) ->
  fragment_message (Fragmenter_new threshold) msg = Ok frags ->
  events.*2 ≡ₚ frags ->
  exists m',
    normalize (FrameMSG msg) = FrameMSG m'
    /\ feed (Fragmenter_new recv) events
       = (Fragmenter_new recv,
          replicate (length frags - 1) (Ok (true, None)) ++ [Ok (true, Some m')]).
Proof.
  intros Hthr Henc HL Hvalid Htext Hfm Hperm.
  destruct (fragment_message_cut threshold msg encoded Hthr Henc HL)
    as (total & Ht & _ & Hfm' & Hcat).
  rewrite Hfm in Hfm'. injection Hfm' as ->.
  eexists. split; [reflexivity|].
  rewrite <- (Permutation_length Hperm), length_fmap.
  apply (feed_all recv (id msg) total (cut msg encoded threshold total <$> seqZ 0 total)).
  - apply Forall_fmap, Forall_forall. by intros i _.
  - rewrite <- list_fmap_compose. rewrite <- (list_fmap_id (seqZ 0 total)) at 2.
    apply list_fmap_ext. by intros.
  - rewrite Hcat. intros E. rewrite E in HL. cbn in HL. lia.
  - rewrite Hcat. by apply MSG_roundtrip.
  - done.
Qed.

Lemma reassembly_any_order_witness :
  exists frags m',
    fragment_message (Fragmenter_new 200) msg_long = Ok frags
    /\ normalize (FrameMSG msg_long) = FrameMSG m'
    /\ feed (ucd := unicode_excerpt) (Fragmenter_new 120) (reverse (zip [5; 6; 7] frags))
        = (Fragmenter_new 120,
           replicate (length frags - 1) (Ok (true, None)) ++ [Ok (true, Some m')]).
Proof.
  destruct msg_long_encoded as (encoded & Henc & HL).
  destruct (fragment_message (Fragmenter_new 200) msg_long) as [frags|] eqn:Hfm;
    [|by vm_compute in Hfm].
  destruct (reassembly_any_order (ucd := unicode_excerpt) 200 120 msg_long encoded frags
              (reverse (zip [5; 6; 7] frags)))
    as (m' & Hm' & Hfeed).
  - lia.
  - exact Henc.
  - exact HL.
  - reflexivity.
  - repeat (apply Forall_cons_2 || apply Forall_nil_2);
      (split; [vm_compute; reflexivity|decide_closed]).
  - exact Hfm.
  - vm_compute in Hfm. injection Hfm as <-. rewrite fmap_reverse.
    cbn [zip zip_with fmap list_fmap snd]. apply reverse_Permutation.
  - by exists frags, m'.
Defined.

End FragmenterFacts.
(** ** Bloom filters: membership, serialization and the SYNC frame *)

Module BloomProps.
Import Frames Bloom BloomFacts.

Section Hash.

Variable mmh3_hash : str -> Z -> Z.

Lemma lor_bit_byte old k :
  0 <= old < 256 -> 0 <= k < 8 -> 0 <= Z.lor old (Z.shiftl 1 k) < 256.
Proof.
  intros Ho Hk. split; [apply Z.lor_nonneg; split; [lia|apply Z.shiftl_nonneg; lia]|].
  assert (H1 : 0 < Z.shiftl 1 k < 256).
  { rewrite Z.shiftl_1_l. split; [apply Z.pow_pos_nonneg; lia|].
    change 256 with (2 ^ 8). apply Z.pow_lt_mono_r; lia. }
  assert (Hl : Z.log2 (Z.lor old (Z.shiftl 1 k)) < 8).
  { rewrite Z.log2_lor by lia. apply Z.max_lub_lt.
    - destruct (decide (old = 0)) as [->|]; [cbn; lia|].
      apply Z.log2_lt_pow2; lia.
    - apply Z.log2_lt_pow2; lia. }
  apply Z.log2_lt_pow2 in Hl; [exact Hl|].
  assert (0 <= Z.lor old (Z.shiftl 1 k)) by (apply Z.lor_nonneg; lia).
  assert (Z.lor old (Z.shiftl 1 k) <> 0); [|lia].
  intros E. apply Z.lor_eq_0_iff in E. lia.
Qed.

Lemma set_bit_bytes bf item seed bf' :
  BloomFilter_wf bf -> BloomFilter_bytes bf ->
  set_bit mmh3_hash bf item seed = Ok bf' ->
  BloomFilter_bytes bf' /\ num_bits bf' = num_bits bf /\ num_hashes bf' = num_hashes bf.
Proof.
  intros Hwf [Hb Hn] Hset.
  destruct (bit_position_wf mmh3_hash bf item seed Hwf)
    as (byte_idx & bit_idx & Hpos & Hidx & Hbyte & Hbit).
  unfold set_bit in Hset. rewrite Hpos in Hset. cbn [bind] in Hset.
  rewrite Hidx in Hset. cbn [bind] in Hset. injection Hset as <-.
  cbn [bits num_bits num_bytes num_hashes]. split; [|done]. split; [|done].
  apply Forall_insert; [done|]. apply lor_bit_byte; [|done].
  destruct (bits bf !! Z.to_nat byte_idx) as [old|] eqn:Hold; cbn [default]; [|lia].
  rewrite Forall_forall in Hb. apply Hb. by eapply list_elem_of_lookup_2.
Qed.

Lemma add_seeds_bytes seeds : forall bf item bf',
  BloomFilter_wf bf -> BloomFilter_bytes bf ->
  add_seeds mmh3_hash bf item seeds = Ok bf' ->
  BloomFilter_bytes bf' /\ num_bits bf' = num_bits bf /\ num_hashes bf' = num_hashes bf.
Proof.
  induction seeds as [|seed rest IH]; intros bf item bf' Hwf Hb Hadd.
  - cbn in Hadd. by injection Hadd as <-.
  - cbn [add_seeds] in Hadd.
    destruct (set_bit_wf mmh3_hash bf item seed Hwf) as (bf1 & Hset & Hwf1 & _).
    rewrite Hset in Hadd. cbn [bind] in Hadd.
    destruct (set_bit_bytes bf item seed bf1 Hwf Hb Hset) as (Hb1 & Hn1 & Hh1).
    destruct (IH bf1 item bf' Hwf1 Hb1 Hadd) as (Hb' & Hn' & Hh').
    split; [done|]. split; congruence.
Qed.

Lemma add_bytes bf item bf' :
  BloomFilter_wf bf -> BloomFilter_bytes bf ->
  add mmh3_hash bf item = Ok bf' ->
  BloomFilter_bytes bf' /\ num_bits bf' = num_bits bf /\ num_hashes bf' = num_hashes bf.
Proof. apply add_seeds_bytes. Qed.

Lemma add_items_wf items : forall bf,
  BloomFilter_wf bf ->
  exists bf',
    add_items mmh3_hash bf items = Ok bf'
    /\ BloomFilter_wf bf'
    /\ (BloomFilter_bytes bf -> BloomFilter_bytes bf')
    /\ num_bits bf' = num_bits bf /\ num_hashes bf' = num_hashes bf
    /\ (forall x, contains mmh3_hash bf x = Ok true -> contains mmh3_hash bf' x = Ok true)
    /\ (forall x, x ∈ items -> contains mmh3_hash bf' x = Ok true).
Proof.
  induction items as [|item rest IH]; intros bf Hwf.
  - exists bf. cbn [add_items]. do 6 (split; [done|]). by intros x ?%elem_of_nil.
  - destruct (add_wf mmh3_hash bf item Hwf) as (bf1 & Hadd & Hwf1 & Hin & Hmono).
    destruct (IH bf1 Hwf1) as (bf' & Hrest & Hwf' & Hb' & Hn' & Hh' & Hmono' & Hall).
    exists bf'. cbn [add_items]. rewrite Hadd. cbn [bind].
    split; [done|]. split; [done|].
    assert (Hsame : BloomFilter_bytes bf ->
              BloomFilter_bytes bf1 /\ num_bits bf1 = num_bits bf
              /\ num_hashes bf1 = num_hashes bf).
    { intros Hb. by apply (add_bytes bf item). }
    assert (Hcfg : num_bits bf1 = num_bits bf /\ num_hashes bf1 = num_hashes bf).
    { unfold Bloom.add in Hadd. clear -Hadd Hwf.
      revert Hadd. generalize (seqZ 0 (num_hashes bf)). intros seeds.
      destruct (add_seeds_wf mmh3_hash bf item seeds Hwf) as (b & Hb & _ & Hn & Hh & _).
      rewrite Hb. by intros [= <-]. }
    split; [intros Hb; apply Hb'; by apply Hsame|].
    split; [lia|]. split; [destruct Hcfg; congruence|].
    split; [intros x Hx; by apply Hmono', Hmono|].
    intros x [->|Hx]%elem_of_cons; [by apply Hmono'|by apply Hall].
Qed.

(** X18.  A Bloom filter has no false negatives: on a filter with a
    positive number of bits, a multiple of 8, no [add] raises, and after
    any items have been added [contains] answers true for each of them and
    for every item it answered true for before. *)
Theorem no_false_negatives (bf : BloomFilter) (items : list str) :
  BloomFilter_wf bf ->
  exists bf',
    add_items mmh3_hash bf items = Ok bf'
    /\ (forall x, x ∈ items -> contains mmh3_hash bf' x = Ok true)
    /\ (forall x, contains mmh3_hash bf x = Ok true -> contains mmh3_hash bf' x = Ok true).
Proof.
  intros Hwf.
  destruct (add_items_wf items bf Hwf) as (bf' & H & _ & _ & _ & _ & Hmono & Hall).
  by exists bf'.
Qed.

(** X19.  What a new filter answers.  With at least one hash function and
    a positive size it contains nothing; with no hash function it
    contains everything; and with a size of 0 bits, which the constructor
    accepts, [contains] divides by zero. *)
Theorem new_filter_contains (num_bits num_hashes : Z) (item : str) :
  0 <= num_bits -> num_bits mod 8 = 0 ->
  exists bf,
    BloomFilter_new num_bits num_hashes = Ok bf
    /\ contains mmh3_hash bf item
       = if num_hashes <=? 0 then Ok true
         else if num_bits =? 0 then Raise ZeroDivisionError
         else Ok false.
Proof.
  intros Hnb Hmod. unfold BloomFilter_new. rewrite Hmod. cbn [Z.eqb negb].
  destruct (Z.ltb_spec (num_bits / 8) 0) as [Hneg|Hpos].
  { assert (0 <= num_bits / 8) by (apply Z.div_pos; lia). lia. }
  eexists. split; [reflexivity|].
  unfold contains. cbn [Bloom.num_hashes].
  destruct (Z.leb_spec num_hashes 0) as [Hh|Hh].
  { rewrite seqZ_nil by lia. done. }
  rewrite seqZ_cons by lia. cbn [contains_seeds].
  unfold test_bit, bit_position. cbn [Bloom.num_bits bits].
  destruct (Z.eqb_spec num_bits 0) as [->|Hnz]; [done|].
  cbn [bind].
  set (pos := mmh3_hash item 0 mod num_bits).
  assert (Hp : 0 <= pos < num_bits) by (apply Z.mod_pos_bound; lia).
  assert (Hidx : 0 <= pos / 8 < num_bits / 8).
  { split; [apply Z.div_pos; lia|]. apply Z.div_lt_upper_bound; [lia|].
    pose proof (Z.div_mod num_bits 8 ltac:(lia)). lia. }
  unfold index_of. rewrite length_replicate, Z2Nat.id by lia.
  destruct (Z.leb_spec 0 (pos / 8)); [|lia].
  destruct (Z.ltb_spec (pos / 8) (num_bits / 8)); [|lia].
  cbn [andb bind]. rewrite lookup_replicate_2 by lia. cbn [default].
  by rewrite Z.land_0_l.
Qed.

Lemma to_bytes_Ok bf :
  Forall (fun b => 0 <= b < 256) (bits bf) ->
  exists data, to_bytes bf = Ok data /\ ord <$> data = bits bf.
Proof.
  unfold to_bytes. generalize (bits bf). intros l H.
  induction H as [|b l Hb _ (data & Hd & Hord)]; [by exists []|].
  destruct (proj2 (byte_of_int_range b) Hb) as [c Hc].
  exists (c :: data). cbn [Fragmentation.mapM]. rewrite Hc, Hd. cbn [bind].
  split; [done|]. cbn [fmap list_fmap]. rewrite (byte_of_int_Ok _ _ Hc).
  f_equal. exact Hord.
Qed.

(** X20.  A filter made by the constructor and any number of [add] calls
    is written by [to_bytes] as [num_bits / 8] bytes, from which
    [from_bytes] with the same number of hash functions rebuilds the same
    filter. *)
Theorem bloom_bytes_roundtrip (num_bits num_hashes : Z) (items : list str) :
  0 < num_bits -> num_bits mod 8 = 0 ->
  exists bf0 bf data,
    BloomFilter_new num_bits num_hashes = Ok bf0
    /\ add_items mmh3_hash bf0 items = Ok bf
    /\ to_bytes bf = Ok data
    /\ Z.of_nat (length data) = num_bits / 8
    /\ from_bytes data num_hashes = Ok bf.
Proof.
  intros Hnb Hmod.
  destruct (BloomFilter_new_wf num_bits num_hashes Hnb Hmod) as (bf0 & Hnew & Hwf0).
  assert (Hb0 : BloomFilter_bytes bf0 /\ Bloom.num_bits bf0 = num_bits
                /\ Bloom.num_hashes bf0 = num_hashes).
  { unfold BloomFilter_new in Hnew. rewrite Hmod in Hnew. cbn [Z.eqb negb] in Hnew.
    destruct (num_bits / 8 <? 0); [done|]. injection Hnew as <-.
    split; [|done]. split; [|done]. cbn [bits].
    apply Forall_forall. intros b Hb%elem_of_replicate. lia. }
  destruct Hb0 as (Hb0 & Hn0 & Hh0).
  destruct (add_items_wf items bf0 Hwf0) as (bf & Hadd & Hwf & Hb & Hn & Hh & _).
  destruct (Hb Hb0) as [Hbytes Hnum].
  destruct (to_bytes_Ok bf Hbytes) as (data & Hdata & Hord).
  destruct Hwf as (_ & Hm & Hlen).
  assert (Hl : Z.of_nat (length data) = num_bits / 8).
  { rewrite <- (length_fmap ord), Hord, Hlen. congruence. }
  exists bf0, bf, data. split; [done|]. split; [done|]. split; [done|]. split; [done|].
  unfold from_bytes. rewrite Hl.
  assert (Hmul : num_bits / 8 * 8 = num_bits).
  { pose proof (Z.div_mod num_bits 8 ltac:(lia)). lia. }
  rewrite Hmul. rewrite Hnew. cbn [bind]. rewrite Hord.
  destruct bf as [nb nh nby bs]. cbn in *. subst. f_equal.
  unfold BloomFilter_new in Hnew. rewrite Hmod in Hnew. cbn [Z.eqb negb] in Hnew.
  destruct (Bloom.num_bits bf0 / 8 <? 0); [done|]. by injection Hnew as <-.
Qed.


(** *** The rotating filter and the SYNC frame *)










End Hash.

Lemma new_filter_contains_witness :
  exists bf,
    BloomFilter_new 256 3 = Ok bf
    /\ contains toy_hash bf (u "deadbeef0123")
       = if 3 <=? 0 then Ok true
         else if 256 =? 0 then Raise ZeroDivisionError
         else Ok false.
Proof. apply (new_filter_contains toy_hash 256 3 (u "deadbeef0123")); [lia|reflexivity]. Defined.

Lemma bloom_bytes_roundtrip_witness :
  exists bf0 bf data,
    BloomFilter_new 16 2 = Ok bf0
    /\ add_items toy_hash bf0 [u "a"; u "bc"] = Ok bf
    /\ to_bytes bf = Ok data
    /\ Z.of_nat (length data) = 16 / 8
    /\ from_bytes data 2 = Ok bf.
Proof. apply (bloom_bytes_roundtrip toy_hash 16 2 [u "a"; u "bc"]); [lia|reflexivity]. Defined.


Lemma no_false_negatives_witness :
  exists bf',
    add_items toy_hash empty_filter [u "a"; u "bc"] = Ok bf'
    /\ (forall x, x ∈ [u "a"; u "bc"] -> contains toy_hash bf' x = Ok true)
    /\ (forall x, contains toy_hash empty_filter x = Ok true ->
                  contains toy_hash bf' x = Ok true).
Proof.
  apply (no_false_negatives toy_hash empty_filter [u "a"; u "bc"]).
  split; [by vm_compute|]. split; reflexivity.
Defined.

End BloomProps.
(** ** REQ rate limiting: waiting times and success *)

Module RateLimitTimes.
Import RateLimit RateLimitFacts.

Lemma list_min_spec l m :
  list_min l = Some m -> m ∈ l /\ Forall (fun x => m <= x) l.
Proof.
  destruct l as [|x rest]; [done|]. cbn [list_min]. intros [= <-].
  induction rest as [|y rest [IHin IHle]]; cbn [foldr].
  - split; [left|]. by apply Forall_singleton.
  - apply Forall_cons in IHle as [Hx Hrest]. split.
    + destruct (Z.min_spec y (foldr Z.min x rest)) as [[_ ->]|[_ ->]].
      * right. left.
      * apply elem_of_cons in IHin as [->|Hin]; [left|right; by right].
    + apply Forall_cons. split; [lia|]. apply Forall_cons. split; [lia|].
      eapply Forall_impl; [exact Hrest|]. intros z Hz. cbn beta in *. lia.
Qed.

(** X22.  When the history holds [max_req_per_min] requests,
    [get_next_req_time] names the instant at which the oldest of them
    leaves the 60-second window: [can_send_req] refuses at every moment
    before it and admits at it. *)
Theorem next_req_time_global (self : RateLimiter) (message_id : option str) :
  request_history self <> [] ->
  Z.of_nat (length (request_history self)) = max_req_per_min (config self) ->
  exists oldest,
    list_min (request_history self) = Some oldest
    /\ get_next_req_time self message_id = Some (oldest + seconds 60)
    /\ (forall now, now < oldest + seconds 60 ->
          (can_send_req now self message_id).2 = false)
    /\ (can_send_req (oldest + seconds 60) self None).2 = true.
Proof.
  intros Hne Hfull.
  destruct (list_min (request_history self)) as [oldest|] eqn:Hmin.
  2:{ by destruct (request_history self). }
  destruct (list_min_spec _ _ Hmin) as [Hin Hle].
  exists oldest. split; [done|]. split; [|split].
  - unfold get_next_req_time. rewrite Hmin.
    rewrite bool_decide_eq_true_2 by lia. done.
  - intros now Hnow. unfold can_send_req, _check_global_limit.
    assert (Hall : filter (fun ts => now - seconds 60 < ts) (request_history self)
                   = request_history self).
    { clear -Hle Hnow. induction Hle as [|x l Hx _ IH]; [done|].
      rewrite filter_cons_True by lia. by rewrite IH. }
    rewrite Hall. cbn [config].
    rewrite bool_decide_eq_false_2 by lia. done.
  - unfold can_send_req, _check_global_limit. cbn [config].
    replace (oldest + seconds 60 - seconds 60) with oldest by lia.
    rewrite bool_decide_eq_true_2; [done|].
    assert ((length (filter (fun ts => (oldest < ts)%Z) (request_history self))
             < length (request_history self))%nat); [|lia].
    apply (length_filter_lt _ _ oldest); [done|lia].
Qed.

Lemma next_req_time_global_witness :
  exists oldest,
    list_min [seconds 5; seconds 3] = Some oldest
    /\ get_next_req_time
         (mkRateLimiter (mkRateLimitConfig 2 30 600 4) [seconds 5; seconds 3] ∅)
         (Some demo_id) = Some (oldest + seconds 60)
    /\ (forall now, now < oldest + seconds 60 ->
          (can_send_req now
             (mkRateLimiter (mkRateLimitConfig 2 30 600 4) [seconds 5; seconds 3] ∅)
             (Some demo_id)).2 = false)
    /\ (can_send_req (oldest + seconds 60)
          (mkRateLimiter (mkRateLimitConfig 2 30 600 4) [seconds 5; seconds 3] ∅)
          None).2 = true.
Proof.
  apply (next_req_time_global
           (mkRateLimiter (mkRateLimitConfig 2 30 600 4) [seconds 5; seconds 3] ∅)
           (Some demo_id)).
  - discriminate.
  - reflexivity.
Defined.



(** X24.  [mark_success] forgets the record of the message and nothing
    else: the message is admitted again as soon as the global limit
    allows, even after its retries were used up; the next request for it
    is recorded as a first attempt with the initial backoff; and the
    records of the other messages and the history stay as they are. *)
Theorem mark_success_resets (self : RateLimiter) (id : str) (now : Z) :
  let self' := mark_success self id in
  (can_send_req now self' (Some id)).2 = (can_send_req now self None).2
  /\ get_next_req_time self' (Some id) = get_next_req_time self None
  /\ message_requests (record_req now self' id) !! id
     = Some (mkRequestRecord id now now 1 (initial_backoff (config self)))
  /\ get_backoff self' id = None
  /\ request_history self' = request_history self
  /\ forall id', id' <> id ->
       message_requests self' !! id' = message_requests self !! id'.
Proof.
  intros self'. split; [|split; [|split; [|split; [|split]]]].
  - unfold can_send_req, _check_global_limit, self', mark_success.
    cbn [request_history config message_requests].
    destruct (negb _); [done|]. destruct id as [|c id']; [done|].
    unfold _check_message_limit. cbn [message_requests]. by rewrite lookup_delete_eq.
  - unfold get_next_req_time, self', mark_success. cbn [request_history config message_requests].
    destruct (bool_decide _); [destruct (list_min _); [done|]|].
    + destruct id as [|c id']; [done|]. by rewrite lookup_delete_eq.
    + destruct id as [|c id']; [done|]. by rewrite lookup_delete_eq.
  - unfold record_req, self', mark_success. cbn [request_history config message_requests].
    rewrite lookup_delete_eq. by rewrite lookup_insert_eq.
  - unfold get_backoff, self', mark_success. cbn [message_requests].
    by rewrite lookup_delete_eq.
  - done.
  - intros id' Hne. unfold self', mark_success. cbn [message_requests].
    by rewrite lookup_delete_ne.
Qed.

End RateLimitTimes.
(** ** Storage: messages, the queue and request tracking *)

Module DatabaseProps.
Import Database DatabaseFacts.

(** X25.  [save_message] keeps the table of messages referentially closed
    and never overwrites a row: whatever it is given, every row stored
    before is still read back by [get_message]; a row that was inserted
    is read back as given; a refused row leaves the database as it was;
    and saving the same row again is refused.  The call raises only for a
    priority outside SQLite's 64-bit integers, with [OverflowError] and
    before anything is written. *)
Theorem save_message_keeps_references (db : Database) (row : message_row) :
  references_closed db ->
  match save_message db row with
  | Ok (db', saved) =>
      - 2 ^ 63 <= m_priority row < 2 ^ 63
      /\ references_closed db'
      /\ (forall id r, get_message db id = Some r -> get_message db' id = Some r)
      /\ (if saved then get_message db' (m_id row) = Some row else db' = db)
      /\ save_message db' row = Ok (db', false)
  | Raise e => e = OverflowError /\ ~ (- 2 ^ 63 <= m_priority row < 2 ^ 63)
  end.
Proof.
  intros Hclosed. unfold save_message at 1. unfold sqlite_int.
  destruct (Z.leb_spec (- 2 ^ 63) (m_priority row));
    destruct (Z.ltb_spec (m_priority row) (2 ^ 63)); cbn [andb bind];
    [|split; [done|lia]..].
  assert (Hfits : sqlite_int (m_priority row) = Ok (m_priority row)).
  { unfold sqlite_int.
    destruct (Z.leb_spec (- 2 ^ 63) (m_priority row)); [|lia].
    destruct (Z.ltb_spec (m_priority row) (2 ^ 63)); [|lia]. done. }
  destruct (insert_allowed db row) eqn:Hallow.
  - unfold insert_allowed in Hallow. apply andb_true_iff in Hallow as [Hnew Hfk].
    apply bool_decide_eq_true_1 in Hnew.
    split; [lia|]. split; [|split; [|split]].
    + intros id r. cbn [messages]. intros Hr.
      destruct (decide (id = m_id row)) as [->|Hne].
      * rewrite lookup_insert_eq in Hr. injection Hr as <-. split; [done|].
        intros ref Href. rewrite Href in Hfk. apply bool_decide_eq_true_1 in Hfk.
        destruct Hfk as [Hs| ->]; [|by rewrite lookup_insert_eq].
        destruct (decide (ref = m_id row)) as [->|?];
          [by rewrite lookup_insert_eq|by rewrite lookup_insert_ne].
      * rewrite lookup_insert_ne in Hr by done.
        destruct (Hclosed id r Hr) as [Hid Hrefs]. split; [done|].
        intros ref Href. specialize (Hrefs ref Href).
        destruct (decide (ref = m_id row)) as [->|?];
          [by rewrite lookup_insert_eq|by rewrite lookup_insert_ne].
    + intros id r. unfold get_message. cbn [messages]. intros Hr.
      rewrite lookup_insert_ne; [done|]. intros <-. congruence.
    + unfold get_message. cbn [messages]. apply lookup_insert_eq.
    + unfold save_message. rewrite Hfits. cbn [bind].
      unfold insert_allowed. cbn [messages]. rewrite lookup_insert_eq.
      by rewrite bool_decide_eq_false_2.
  - split; [lia|]. split; [done|]. split; [done|]. split; [done|].
    unfold save_message. rewrite Hfits. cbn [bind]. by rewrite Hallow.
Qed.

Lemma references_closed_empty : references_closed empty.
Proof. intros id row H. cbn in H. by rewrite lookup_empty in H. Qed.

Lemma save_message_keeps_references_witness :
  let row := mkMessageRow (u "aaaaaaaaaaaa") (u "N0CALL-1") None (u "20240101T000000Z")
               (u "general") 1 None (u "first") 5 [] in
  match save_message empty row with
  | Ok (db', saved) =>
      - 2 ^ 63 <= m_priority row < 2 ^ 63
      /\ references_closed db'
      /\ (forall id r, get_message empty id = Some r -> get_message db' id = Some r)
      /\ (if saved then get_message db' (m_id row) = Some row else db' = empty)
      /\ save_message db' row = Ok (db', false)
  | Raise e => e = OverflowError /\ ~ (- 2 ^ 63 <= m_priority row < 2 ^ 63)
  end.
Proof.
  intros row. apply (save_message_keeps_references empty row).
  exact references_closed_empty.
Defined.

(** *** Serving the queue *)

Lemma due_update now id l :
  filter (fun r => eligible now r = true) (map (mark_transmitting id) l)
  = filter (fun r => tx_id r <> id) (filter (fun r => eligible now r = true) l).
Proof.
  induction l as [|x l IH]; [done|]. cbn [map].
  destruct (decide (tx_id x = id)) as [Hx|Hx].
  - rewrite filter_cons_False.
    2:{ unfold eligible, mark_transmitting. apply Z.eqb_eq in Hx. rewrite Hx. cbn.
        done. }
    rewrite IH. destruct (eligible now x) eqn:Hel.
    + rewrite (filter_cons_True (fun r => eligible now r = true)) by done.
      by rewrite filter_cons_False by (intros H; by apply H).
    + by rewrite (filter_cons_False (fun r => eligible now r = true)) by congruence.
  - rewrite mark_other by done. destruct (eligible now x) eqn:Hel.
    + rewrite !filter_cons_True by done. by rewrite IH.
    + rewrite !(filter_cons_False (fun r => eligible now r = true)) by congruence.
      exact IH.
Qed.

Lemma NoDup_ids_filter (P : tx_row -> Prop) `{!forall r, Decision (P r)} l :
  NoDup (tx_id <$> l) -> NoDup (tx_id <$> filter P l).
Proof.
  induction l as [|x l IH]; [done|]. rewrite fmap_cons, NoDup_cons. intros [Hx Hnd].
  destruct (decide (P x)).
  - rewrite filter_cons_True by done. rewrite fmap_cons. apply NoDup_cons.
    split; [|by apply IH]. intros (y & Hy & Hin%list_elem_of_filter)%list_elem_of_fmap.
    apply Hx. rewrite Hy. apply list_elem_of_fmap_2. by destruct Hin.
  - rewrite filter_cons_False by done. by apply IH.
Qed.

Lemma take_out row l :
  NoDup (tx_id <$> l) -> row ∈ l ->
  l ≡ₚ row :: filter (fun r => tx_id r <> tx_id row) l.
Proof.
  induction l as [|x l IH]; [by intros _ ?%elem_of_nil|].
  rewrite fmap_cons, NoDup_cons. intros [Hx Hnd] [->|Hin]%elem_of_cons.
  - rewrite filter_cons_False by (intros H; by apply H).
    f_equiv. symmetry. clear IH. induction l as [|y l IH]; [done|].
    rewrite fmap_cons, not_elem_of_cons in Hx. destruct Hx as [Hne Hx].
    rewrite fmap_cons, NoDup_cons in Hnd. destruct Hnd as [_ Hnd].
    rewrite filter_cons_True by (intros E; by apply Hne). f_equiv. by apply IH.
  - assert (tx_id x <> tx_id row) as Hne.
    { intros E. apply Hx. rewrite E. by apply list_elem_of_fmap_2. }
    rewrite filter_cons_True by done. rewrite (IH Hnd Hin) at 1. apply Permutation_swap.
Qed.

Lemma serve_all n : forall now db,
  queue_wf db ->
  length (due now db) = n ->
  let served := run_queue db (replicate n (Next now)) in
  served.2 ≡ₚ due now db
  /\ in_queue_order (served.2)
  /\ due now (served.1) = [].
Proof.
  induction n as [|n IH]; intros now db Hwf Hlen.
  - cbn. apply length_zero_iff_nil in Hlen. rewrite Hlen.
    split; [done|]. split; done.
  - cbn [replicate run_queue]. unfold get_next_transmission.
    destruct (select_next now db) as [row|] eqn:Hsel.
    2:{ unfold select_next in Hsel. apply first_row_None in Hsel.
        unfold due in Hlen. rewrite Hsel in Hlen. done. }
    pose proof Hsel as Hfirst. unfold select_next in Hfirst.
    apply first_row_spec in Hfirst as [Hin Hmin]. fold (due now db) in Hin, Hmin.
    assert (Hdue1 : due now (update_transmitting db (tx_id row))
                    = filter (fun r => tx_id r <> tx_id row) (due now db)).
    { unfold due, update_transmitting. cbn [transmission_queue]. apply due_update. }
    assert (Hperm : due now db ≡ₚ row :: due now (update_transmitting db (tx_id row))).
    { rewrite Hdue1. apply take_out; [|done].
      apply NoDup_ids_filter. by destruct Hwf. }
    assert (Hlen1 : length (due now (update_transmitting db (tx_id row))) = n).
    { pose proof (Permutation_length Hperm) as Hl. rewrite Hlen in Hl.
      cbn [length] in Hl. lia. }
    destruct (IH now _ (queue_wf_update db (tx_id row) Hwf) Hlen1) as (Hp & Hs & Hnone).
    destruct (run_queue (update_transmitting db (tx_id row)) (replicate n (Next now)))
      as [db' rows]. cbn [fst snd] in *.
    split; [by rewrite Hperm, Hp|]. split; [|done].
    cbn [in_queue_order]. split; [|done]. apply Forall_forall. intros b Hb. apply Hmin.
    rewrite Hperm. right. by rewrite <- Hp.
Qed.

(** X26.  The queue is served completely and in order.  As many calls of
    [get_next_transmission] at one time as there are pending rows due
    return each of those rows once, none of them after a row that
    [priority DESC, scheduled_at ASC] puts behind it; the next call
    returns [None]. *)
Theorem queue_served_in_order (db : Database) (now : Z) :
  queue_wf db ->
  let served := run_queue db (replicate (length (due now db)) (Next now)) in
  served.2 ≡ₚ due now db
  /\ (forall i j a b, (i < j)%nat -> served.2 !! i = Some a -> served.2 !! j = Some b ->
        tx_priority b <= tx_priority a
        /\ (tx_priority b = tx_priority a -> scheduled_at a <= scheduled_at b))
  /\ (get_next_transmission now (served.1)).2 = None.
Proof.
  intros Hwf served.
  destruct (serve_all (length (due now db)) now db Hwf eq_refl) as (Hp & Hs & Hnone).
  fold served in Hp, Hs, Hnone.
  split; [done|]. split.
  - intros i j a b Hij Ha Hb.
    assert (before b a = false) as Hba.
    { clear -Hs Hij Ha Hb. revert i j Hij Ha Hb.
      induction (served.2) as [|x l IH]; intros i j Hij Ha Hb; [done|].
      destruct Hs as [Hall Hs].
      destruct j as [|j]; [lia|]. cbn in Hb. destruct i as [|i].
      - cbn in Ha. injection Ha as ->. rewrite Forall_forall in Hall.
        apply Hall. by eapply list_elem_of_lookup_2.
      - cbn in Ha. apply (IH Hs i j); [lia|done|done]. }
    apply not_before_spec in Hba. lia.
  - unfold get_next_transmission, select_next. fold (due now served.1).
    by rewrite Hnone.
Qed.

Lemma queue_served_in_order_witness :
  let served := run_queue demo_queue (replicate (length (due 200 demo_queue)) (Next 200)) in
  served.2 ≡ₚ due 200 demo_queue
  /\ (forall i j a b, (i < j)%nat -> served.2 !! i = Some a -> served.2 !! j = Some b ->
        tx_priority b <= tx_priority a
        /\ (tx_priority b = tx_priority a -> scheduled_at a <= scheduled_at b))
  /\ (get_next_transmission 200 (served.1)).2 = None.
Proof. apply (queue_served_in_order demo_queue 200). exact demo_queue_wf. Defined.

(** *** Request tracking *)

Lemma track_requests_snoc table id times now :
  track_requests table id (times ++ [now])
  = (track_request now (track_requests table id times) id).1.
Proof.
  revert table. induction times as [|t times IH]; intros table; [done|].
  cbn [app track_requests]. apply IH.
Qed.

(** X27.  [track_request] called [k + 1] times for a message that had no
    row leaves the row with the first and the last of the call times,
    [retry_count = k] and [backoff_seconds = min(600, 30 * 2^k)];
    [can_request] then allows the next request from
    [last_request + backoff_seconds] on while [k < 4], and never once
    [k] has reached 4. *)
Theorem track_request_backoff (table : request_tracking) (id : str)
    (first : Z) (later : list Z) (now : Z) :
  table !! id = None ->
  let k := Z.of_nat (length later) in
  let last_time := default first (last later) in
  let table' := track_requests table id (first :: later) in
  table' !! id
    = Some (mkTrackingRow first last_time k (Z.min 600 (30 * 2 ^ k)) false)
  /\ can_request now table' id
     = if 4 <=? k then false else last_time + Z.min 600 (30 * 2 ^ k) <=? now.
Proof.
  intros Hnone k last_time table'.
  assert (Hrow : table' !! id
            = Some (mkTrackingRow first last_time k (Z.min 600 (30 * 2 ^ k)) false)).
  { unfold table', k, last_time. clear k last_time table'.
    induction later as [|t later IH] using rev_ind.
    - cbn [track_requests]. unfold track_request. rewrite Hnone. cbn [fst].
      rewrite lookup_insert_eq. done.
    - rewrite app_comm_cons, track_requests_snoc.
      unfold track_request at 1. rewrite IH. cbn [fst].
      rewrite lookup_insert_eq, last_snoc, length_app. cbn [length default].
      cbn [first_request retry_count backoff_seconds success].
      do 2 f_equal; [lia|].
      replace (Z.of_nat (length later + 1)) with (Z.of_nat (length later) + 1) by lia.
      rewrite Z.pow_add_r by lia. change (2 ^ 1) with 2.
      assert (0 < 2 ^ Z.of_nat (length later)) by (apply Z.pow_pos_nonneg; lia).
      lia. }
  split; [done|]. unfold can_request. rewrite Hrow.
  cbn [success retry_count last_request backoff_seconds]. done.
Qed.

Lemma track_request_backoff_witness :
  let table' := track_requests ∅ (u "deadbeef0123") [100; 130; 190] in
  table' !! u "deadbeef0123"
    = Some (mkTrackingRow 100 190 2 (Z.min 600 (30 * 2 ^ 2)) false)
  /\ can_request 300 table' (u "deadbeef0123")
     = if 4 <=? 2 then false else 190 + Z.min 600 (30 * 2 ^ 2) <=? 300.
Proof.
  apply (track_request_backoff ∅ (u "deadbeef0123") 100 [130; 190] 300).
  apply lookup_empty.
Defined.

End DatabaseProps.
(** ** The daemon: duplicates, new messages and fragments *)

Module DaemonProps.
Import Text Frames Codec Fragmentation Bloom Database Daemon BloomFacts CodecFacts
  DaemonFacts.

Section Hash.

Variable mmh3_hash : str -> Z -> Z.

Context {ucd : UnicodeData}.

Abbreviation handle_msg_frame := (handle_msg_frame mmh3_hash).
Abbreviation handle_frag_frame := (handle_frag_frame mmh3_hash).
Abbreviation ingest := (ingest mmh3_hash).

(** X28.  A MSG whose id was ingested before changes nothing at all: the
    database, the fragmenter, the Bloom filter and the notifications are
    the same after [handle_msg_frame] as before, whatever else the frame
    carries, whatever the frames ingested before were and whatever the
    Bloom filter of the daemon is. *)
Theorem duplicate_msg_changes_nothing (threshold : Z) (bloom : RotatingBloomFilter)
    (events : list (Z * Z * MSG)) (now delay : Z) (m : MSG) :
  id m ∈ map (fun e => id (e.2)) events ->
  let st := ingest (RFMPDaemon_new threshold bloom) (msg_events events) in
  handle_msg_frame now delay st m = (st, Ok tt).
Proof.
  intros Hin st. apply handle_msg_frame_dup.
  apply list_elem_of_fmap in Hin as (e & -> & He).
  apply (ingest_msgs_seen mmh3_hash events _ (e.2)).
  by apply list_elem_of_fmap_2.
Qed.


(** X30.  [handle_frag_frame] never delivers a message of its own id.
    Whatever the state and the fragment, when a reassembled MSG carries
    the message id of its fragments the call emits no notification and
    stores no message row: marking the fragment as seen has put that id
    in the seen cache, where [handle_msg_frame] takes it for a duplicate.
    A fragment whose index does not fit SQLite's 64-bit integers makes the
    call raise [OverflowError] before anything is marked, stored or
    collected.  A new fragment whose index fits and whose total does not
    is marked as seen before [save_fragment] raises [OverflowError]: it is
    neither stored nor collected. *)
Theorem fragment_delivers_nothing (st : RFMPDaemon) (now delay : Z) (f : FRAG) :
  (forall is_new m, (add_fragment now (fragmenter st) f).2 = Ok (is_new, Some m) ->
                    id m = message_id f) ->
  notifications (handle_frag_frame now delay st f).1 = notifications st
  /\ messages (database (handle_frag_frame now delay st f).1) = messages (database st)
  /\ (~ (- 2 ^ 63 <= idx f < 2 ^ 63) ->
      handle_frag_frame now delay st f = (st, Raise OverflowError))
  /\ (- 2 ^ 63 <= idx f < 2 ^ 63 -> ~ (- 2 ^ 63 <= total f < 2 ^ 63) ->
      is_seen (database st) (message_id f) (Some (idx f)) false = Ok false ->
      let st' := (handle_frag_frame now delay st f).1 in
      (handle_frag_frame now delay st f).2 = Raise OverflowError
      /\ seen_cache (database st')
         = <[message_id f := mkSeenRow (Some (idx f)) (unix now) false]>
             (seen_cache (database st))
      /\ fragments (database st') = fragments (database st)
      /\ fragmenter st' = fragmenter st).
Proof.
  intros Hid.
  destruct (handle_frag_frame_drops mmh3_hash now delay st f Hid) as [Hn Hm].
  split; [done|]. split; [done|]. split.
  - intros Hbig. unfold Daemon.handle_frag_frame, is_seen, sqlite_opt_int.
    by rewrite sqlite_int_big.
  - intros Hidx Htotal Hnew st'. subst st'. unfold Daemon.handle_frag_frame.
    rewrite Hnew. unfold mark_seen, save_fragment, sqlite_opt_int.
    rewrite sqlite_int_small by done. cbn [bind].
    rewrite sqlite_int_big by done. by cbn.
Qed.

End Hash.

Lemma duplicate_msg_changes_nothing_witness :
  let st := Daemon.ingest (ucd := unicode_excerpt) toy_hash (RFMPDaemon_new 200 fresh_filter)
              (msg_events [(seconds 1, 2, msg_parent); (seconds 2, 3, msg_reply)]) in
  Daemon.handle_msg_frame toy_hash (seconds 9) 1 st msg_parent = (st, Ok tt).
Proof.
  apply (duplicate_msg_changes_nothing toy_hash (ucd := unicode_excerpt) 200 fresh_filter
           [(seconds 1, 2, msg_parent); (seconds 2, 3, msg_reply)] (seconds 9) 1 msg_parent).
  left.
Defined.


(** The fragment that completes [msg_long], and a fragment whose total is
    [2^63]. *)
Lemma fragment_delivers_nothing_witness :
  (let st := Daemon.ingest (ucd := unicode_excerpt) toy_hash (RFMPDaemon_new 200 fresh_filter)
               (frag_events (take 2 fragments_201)) in
   exists f,
     fragments_201 !! 2%nat = Some (seconds 3, 2, f)
     /\ (add_fragment (ucd := unicode_excerpt) (seconds 3) (fragmenter st) f).2
        = Ok (true, Some msg_long)
     /\ notifications (Daemon.handle_frag_frame (ucd := unicode_excerpt) toy_hash
                         (seconds 3) 2 st f).1
        = notifications st
     /\ messages (database (Daemon.handle_frag_frame (ucd := unicode_excerpt) toy_hash
                              (seconds 3) 2 st f).1)
        = messages (database st))
  /\ (let st := RFMPDaemon_new 200 fresh_filter in
      let f := mkFRAG (u "deadbeef0123") 0 (2 ^ 63) [] in
      let r := Daemon.handle_frag_frame (ucd := unicode_excerpt) toy_hash (seconds 3) 2 st f in
      FRAG_valid f
      /\ r.2 = Raise OverflowError
      /\ is_Some (seen_cache (database r.1) !! message_id f)
      /\ fragments (database r.1) = ∅
      /\ fragmenter r.1 = fragmenter st).
Proof.
  split.
  - intros st.
    destruct (fragments_201 !! 2%nat) as [[[t d] f]|] eqn:Hf; [|by vm_compute in Hf].
    assert (Ht : t = seconds 3 /\ d = 2) by (vm_compute in Hf; by injection Hf as <- <- _).
    destruct Ht as [-> ->]. exists f. split; [done|].
    assert (Hadd : (add_fragment (ucd := unicode_excerpt) (seconds 3) (fragmenter st) f).2
                   = Ok (true, Some msg_long)).
    { vm_compute in Hf. injection Hf as <-. vm_compute. reflexivity. }
    split; [done|].
    destruct (fragment_delivers_nothing toy_hash (ucd := unicode_excerpt) st (seconds 3) 2 f)
      as (Hn & Hm & _); [|by split].
    intros is_new m Hm. rewrite Hadd in Hm. injection Hm as _ <-.
    vm_compute in Hf. injection Hf as <-. reflexivity.
  - intros st f r. subst r.
    destruct (fragment_delivers_nothing toy_hash (ucd := unicode_excerpt) st (seconds 3) 2 f)
      as (_ & _ & _ & Hbig).
    { intros is_new m Hm. by vm_compute in Hm. }
    destruct Hbig as (Hres & Hseen & Hfr & Hfm);
      [unfold f; cbn [idx]; lia|unfold f; cbn [total]; lia|reflexivity|].
    split; [reflexivity|]. split; [exact Hres|].
    split; [rewrite Hseen, lookup_insert_eq; by eexists|]. by split.
Defined.

End DaemonProps.

